(** * AthenaK problem generators [bondi], [rad_bondi] and [cylindrical_jet_2]

    A shallow embedding of the three problem generators under [src/pgen]:
    the initial-state kernels ([UserProblem]) and the per-substep source
    terms ([AddUserSrcs], [AddBHGrav], [AddTabularCooling], [AddJets]).

    The C++ type [Real] is kept abstract: the kernels are written once over
    an interface [RealOps] of the arithmetic the sources use, so that every
    structural fact (which entries a kernel writes, with which expression,
    in which order) holds for any arithmetic, IEEE binary64 included.  Two
    instances follow: the mathematical reals, over which the analytic and
    numeric facts are proved, and binary64 primitive floats, over which the
    jet kernels run. *)

From Stdlib Require Import ZArith List Bool Lia String.
From Stdlib Require Import Reals Lra.
From Stdlib Require PrimFloat Uint63 FloatOps.
Import ListNotations.

Set Implicit Arguments.
Open Scope Z_scope.

(* ================================================================== *)
(** * Part I: the embedding *)
(* ================================================================== *)

(** ** The arithmetic of [Real] *)

(** What the kernels need of [Real] (a [double] in this build:
    [SINGLE_PRECISION_ENABLED] is 0): conversion from [int] and to [int],
    the literals [0.5] and [1.5], the four operations, [sqrt], the two
    comparisons used in conditions and the constant [M_PI].  [to_int] is the
    implicit conversion of a [Real] argument to an [int] parameter: it drops
    the fractional part (truncation toward zero). *)
Class RealOps (Real : Type) : Type := {
  of_int : Z -> Real;
  lit_0_5 : Real;
  lit_1_5 : Real;
  M_PI : Real;
  radd : Real -> Real -> Real;
  rsub : Real -> Real -> Real;
  rmul : Real -> Real -> Real;
  rdiv : Real -> Real -> Real;
  rsqrt : Real -> Real;
  to_int : Real -> Z;
  rleb : Real -> Real -> bool;
  rltb : Real -> Real -> bool
}.

(** [std::pow] of [<cmath>], kept apart from [RealOps]: it is a library
    routine, not a basic operation of the arithmetic. *)
Class PowOp (Real : Type) : Type := {
  pow : Real -> Real -> Real
}.

Declare Scope real_scope.
Delimit Scope real_scope with real.
Notation "x + y" := (radd x y) : real_scope.
Notation "x - y" := (rsub x y) : real_scope.
Notation "x * y" := (rmul x y) : real_scope.
Notation "x / y" := (rdiv x y) : real_scope.
Notation "x <=? y" := (rleb x y) : real_scope.
Notation "x <? y" := (rltb x y) : real_scope.

(** The literals [0.0], [1.0] and [3.0] are the exact conversions of the
    integers 0, 1 and 3. *)
Definition lit_0_0 {Real} `{RealOps Real} : Real := of_int 0.
Definition lit_1_0 {Real} `{RealOps Real} : Real := of_int 1.
Definition lit_3_0 {Real} `{RealOps Real} : Real := of_int 3.

(** The [int] of the build: 32 bits, two's complement. *)
Definition INT_MIN : Z := - 2 ^ 31.
Definition INT_MAX : Z := 2 ^ 31 - 1.

(** Whether an integer is a value of [int]. *)
Definition in_int_range (n : Z) : bool := (INT_MIN <=? n) && (n <=? INT_MAX).

(** [int abs(int)] of [<stdlib.h>].  [abs(INT_MIN)] has no value in [int]
    (the call is undefined in C); the negation of the build wraps, which
    leaves [INT_MIN]. *)
Definition int_abs (n : Z) : Z := if n =? INT_MIN then INT_MIN else Z.abs n.

(** Modelled from the spec: the macro [SQR] of [athena.hpp], the square of
    its argument. *)
Definition SQR {Real} `{RealOps Real} (x : Real) : Real := (x * x)%real.

(** Modelled from the spec: [CellCenterX] of [coordinates/cell_locations.hpp],
    the affine map
    [axisMin + (localIndex + 0.5) * (axisMax - axisMin) / cellCount]. *)
Definition CellCenterX {Real} `{RealOps Real}
    (ith nx : Z) (xmin xmax : Real) : Real :=
  (xmin + (of_int ith + lit_0_5) * (xmax - xmin) / of_int nx)%real.

(** ** Mesh, arrays and the parallel loop *)

(** Modelled from the spec: the variable indices of [athena.hpp], density,
    the three momenta and energy, followed by the passive scalars. *)
Definition IDN : Z := 0.
Definition IM1 : Z := 1.
Definition IM2 : Z := 2.
Definition IM3 : Z := 3.
Definition IEN : Z := 4.

(** [indcs.is] is spelled [is_]: [is] is reserved. *)
Record RegionIndcs : Type := {
  is_ : Z; ie : Z; js : Z; je : Z; ks : Z; ke : Z;
  nx1 : Z; nx2 : Z; nx3 : Z
}.

Record RegionSize (Real : Type) : Type := {
  x1min : Real; x1max : Real;
  x2min : Real; x2max : Real;
  x3min : Real; x3max : Real
}.

(** A [DvceArray5D<Real>], read as [u0(m,n,k,j,i)]. *)
Definition DvceArray5D (Real : Type) : Type := Z -> Z -> Z -> Z -> Z -> Real.

Definition idx_eqb (m n k j i m' n' k' j' i' : Z) : bool :=
  (m =? m')%Z && (n =? n')%Z && (k =? k')%Z && (j =? j')%Z && (i =? i')%Z.

(** The assignment [u0(m,n,k,j,i) = v]. *)
Definition upd {Real} (u : DvceArray5D Real) (m n k j i : Z) (v : Real)
    : DvceArray5D Real :=
  fun m' n' k' j' i' =>
    if idx_eqb m n k j i m' n' k' j' i' then v else u m' n' k' j' i'.

(** The hydro module of a pack: [nhydro], [nscalars], the conserved array
    [u0] and the primitive array [w0].  The [EOS_Data] handed to the source
    terms is read by none of them and is left out. *)
Record Hydro (Real : Type) : Type := {
  nhydro : Z;
  nscalars : Z;
  u0 : DvceArray5D Real;
  w0 : DvceArray5D Real
}.

(** The mesh as the kernels see it through [pm->pmb_pack]: the number of
    blocks of the pack, the shared index ranges, the bounding box of every
    block and the hydro module ([phydro], possibly [nullptr]). *)
Record Mesh (Real : Type) : Type := {
  nmb_thispack : Z;
  mb_indcs : RegionIndcs;
  mb_size : Z -> RegionSize Real;
  phydro : option (Hydro Real)
}.

Definition set_u0 {Real} (h : Hydro Real) (u : DvceArray5D Real) : Hydro Real :=
  {| nhydro := nhydro h; nscalars := nscalars h; u0 := u; w0 := w0 h |}.

Definition set_phydro {Real} (pm : Mesh Real) (h : Hydro Real) : Mesh Real :=
  {| nmb_thispack := nmb_thispack pm; mb_indcs := mb_indcs pm;
     mb_size := mb_size pm; phydro := Some h |}.

(** The integers [lo, lo+1, ..., hi], empty when [hi < lo]. *)
Definition zrange (lo hi : Z) : list Z :=
  map (fun n => (lo + Z.of_nat n)%Z) (seq 0 (Z.to_nat (hi - lo + 1))).

(** The index tuples [(m,k,j,i)] of a four-dimensional [par_for], bounds
    inclusive. *)
Definition cells (ml mu kl ku jl ju il iu : Z) : list (Z * Z * Z * Z) :=
  flat_map (fun m =>
    flat_map (fun k =>
      flat_map (fun j =>
        map (fun i => (m, k, j, i)) (zrange il iu))
      (zrange jl ju))
    (zrange kl ku))
  (zrange ml mu).

(** Modelled from the spec: Kokkos' [par_for] over [(m,k,j,i)], the body run
    once for every index tuple.  The bodies below touch only the entries of
    their own cell, so running them one after the other is the
    data-parallel pass. *)
Definition par_for {S : Type} (ml mu kl ku jl ju il iu : Z)
    (body : Z -> Z -> Z -> Z -> S -> S) (s : S) : S :=
  fold_left (fun s c => let '(m, k, j, i) := c in body m k j i s)
            (cells ml mu kl ku jl ju il iu) s.

(** ** Configuration lookup *)

(** A call that may throw: [GetReal] on an absent key. *)
Inductive Exc (A : Type) : Type :=
| Ok (a : A)
| Throw (block name : string).
Arguments Throw {A} block name.

Definition bind {A B} (c : Exc A) (f : A -> Exc B) : Exc B :=
  match c with
  | Ok a => f a
  | Throw b n => Throw b n
  end.

Notation "x <- c ;; k" := (bind c (fun x => k))
  (at level 61, c at next level, right associativity).

(** [ParameterInput]: the value stored under a block and a name, if any. *)
Definition ParameterInput (Real : Type) : Type := string -> string -> option Real.

Definition GetReal {Real} (pin : ParameterInput Real) (block name : string)
    : Exc Real :=
  match pin block name with
  | Some v => Ok v
  | None => Throw block name
  end.

(** [GetOrAddReal]: the stored value, or the default (which the input then
    records; no kernel reads the input again). *)
Definition GetOrAddReal {Real} (pin : ParameterInput Real) (block name : string)
    (def : Real) : Exc Real :=
  match pin block name with
  | Some v => Ok v
  | None => Ok def
  end.

(** The problem generator object together with the file-scope parameter
    struct ([*pbh], [*pjet]) its kernels share: the mesh, the registered
    source-term function ([user_srcs_func], a function pointer that reads the
    parameter struct when called) and the parameter struct itself. *)
Record ProblemGenerator (Real P : Type) : Type := {
  pmy_mesh_ : Mesh Real;
  user_srcs_func : option (P -> Mesh Real -> Real -> option (Mesh Real));
  params : P
}.

(** The physical position of the cell [(m,k,j,i)], as every kernel derives
    it from the block's bounding box. *)
Section CellPosition.
Context {Real : Type} `{RealOps Real}.
Variable pm : Mesh Real.

Definition cell_x1 (m i : Z) : Real :=
  CellCenterX (i - is_ (mb_indcs pm)) (nx1 (mb_indcs pm))
              (x1min (mb_size pm m)) (x1max (mb_size pm m)).
Definition cell_x2 (m j : Z) : Real :=
  CellCenterX (j - js (mb_indcs pm)) (nx2 (mb_indcs pm))
              (x2min (mb_size pm m)) (x2max (mb_size pm m)).
Definition cell_x3 (m k : Z) : Real :=
  CellCenterX (k - ks (mb_indcs pm)) (nx3 (mb_indcs pm))
              (x3min (mb_size pm m)) (x3max (mb_size pm m)).
Definition cell_rad (m k j i : Z) : Real :=
  rsqrt (SQR (cell_x1 m i) + SQR (cell_x2 m j) + SQR (cell_x3 m k))%real.

(** The cells a kernel's [par_for] visits. *)
Definition in_pack (m k j i : Z) : Prop :=
  (0 <= m <= nmb_thispack pm - 1 /\
   ks (mb_indcs pm) <= k <= ke (mb_indcs pm) /\
   js (mb_indcs pm) <= j <= je (mb_indcs pm) /\
   is_ (mb_indcs pm) <= i <= ie (mb_indcs pm))%Z.
End CellPosition.

(** ** [rad_bondi.cpp] *)

Module RadBondi.
Section Defs.
Context {Real : Type} `{RealOps Real} `{PowOp Real}.
(** [ISMCoolFn] of [srcterms/ismcooling.hpp], the tabulated cooling
    function. *)
Variable ISMCoolFn : Real -> Real.
Local Open Scope real_scope.

Record pgen_bh : Type := {
  CONST_G : Real; CONST_K : Real; CONST_kB_cgs : Real; CONST_mp : Real;
  CONST_mu : Real; r_vir : Real; rho_vir : Real; M_bh : Real; v_bh : Real;
  rho_cgm : Real; cs_cgm : Real; epsilon : Real; gamma_gas : Real;
  length_cgs : Real; mass_cgs : Real; time_cgs : Real
}.

Definition Phi_Bondi (r epsilon CONST_G M_bh : Real) : Real :=
  let phi_bondi := (of_int (-1) * CONST_G * M_bh) / rsqrt (SQR r + SQR epsilon) in
  phi_bondi.

Definition Rho_bondi (r epsilon CONST_G M_bh CONST_K gamma_gas rho_vir r_vir : Real)
    : Real :=
  let gm1 := gamma_gas - of_int 1 in
  let term1 := of_int (-1) * (gm1 / (CONST_K * gamma_gas))
               * Phi_Bondi r epsilon CONST_G M_bh in
  let term2 := of_int (-1) * (gm1 / (CONST_K * gamma_gas))
               * Phi_Bondi r_vir epsilon CONST_G M_bh in
  rho_vir + pow term1 (lit_1_0 / gm1) - pow term2 (lit_1_0 / gm1).

(** The body of the ["bondi"] kernel of [UserProblem]. *)
Definition UserProblem_kernel (pbh : pgen_bh) (gm1 : Real)
    (indcs : RegionIndcs) (size : Z -> RegionSize Real)
    (m k j i : Z) (u0 : DvceArray5D Real) : DvceArray5D Real :=
  let xmin := x1min (size m) in
  let xmax := x1max (size m) in
  let nx1 := nx1 indcs in
  let x1v := CellCenterX (i - is_ indcs) nx1 xmin xmax in
  let ymin := x2min (size m) in
  let ymax := x2max (size m) in
  let nx2 := nx2 indcs in
  let x2v := CellCenterX (j - js indcs) nx2 ymin ymax in
  let zmin := x3min (size m) in
  let zmax := x3max (size m) in
  let nx3 := nx3 indcs in
  let x3v := CellCenterX (k - ks indcs) nx3 zmin zmax in
  let rad := rsqrt (SQR x1v + SQR x2v + SQR x3v) in
  if rad <? r_vir pbh then
    let dens := Rho_bondi rad (epsilon pbh) (CONST_G pbh) (M_bh pbh)
                          (CONST_K pbh) (gamma_gas pbh) (rho_vir pbh) (r_vir pbh) in
    let pres := CONST_K pbh * pow dens (gamma_gas pbh) in
    let u0 := upd u0 m IDN k j i dens in
    let u0 := upd u0 m IM1 k j i lit_0_0 in
    let u0 := upd u0 m IM2 k j i lit_0_0 in
    let u0 := upd u0 m IM3 k j i lit_0_0 in
    upd u0 m IEN k j i
        (pres / gm1
         + lit_0_5 * (SQR (u0 m IM1 k j i) + SQR (u0 m IM2 k j i)
                      + SQR (u0 m IM3 k j i)) / u0 m IDN k j i)
  else
    let pres := rho_cgm pbh * SQR (cs_cgm pbh) in
    let u0 := upd u0 m IDN k j i (rho_cgm pbh) in
    let u0 := upd u0 m IM1 k j i lit_0_0 in
    let u0 := upd u0 m IM2 k j i lit_0_0 in
    let u0 := upd u0 m IM3 k j i lit_0_0 in
    upd u0 m IEN k j i
        (pres / gm1
         + lit_0_5 * (SQR (u0 m IM1 k j i) + SQR (u0 m IM2 k j i)
                      + SQR (u0 m IM3 k j i)) / u0 m IDN k j i).

(** The body of the kernel of [AddBHGrav]. *)
Definition AddBHGrav_kernel (pbh : pgen_bh) (bdt : Real)
    (indcs : RegionIndcs) (size : Z -> RegionSize Real)
    (m k j i : Z) (u0 : DvceArray5D Real) : DvceArray5D Real :=
  let x1min := x1min (size m) in
  let x1max := x1max (size m) in
  let nx1 := nx1 indcs in
  let x1v := CellCenterX (i - is_ indcs) nx1 x1min x1max in
  let x2min := x2min (size m) in
  let x2max := x2max (size m) in
  let nx2 := nx2 indcs in
  let x2v := CellCenterX (j - js indcs) nx2 x2min x2max in
  let x3min := x3min (size m) in
  let x3max := x3max (size m) in
  let nx3 := nx3 indcs in
  let x3v := CellCenterX (k - ks indcs) nx3 x3min x3max in
  let rad := rsqrt (SQR x1v + SQR x2v + SQR x3v) in
  let grad_phi_by_r :=
    (CONST_G pbh * M_bh pbh) / pow (SQR rad + SQR (epsilon pbh)) lit_1_5 in
  let u0 := upd u0 m IM1 k j i
                (u0 m IM1 k j i - (u0 m IDN k j i * grad_phi_by_r * bdt) * x1v) in
  let u0 := upd u0 m IM2 k j i
                (u0 m IM2 k j i - (u0 m IDN k j i * grad_phi_by_r * bdt) * x2v) in
  let u0 := upd u0 m IM3 k j i
                (u0 m IM3 k j i - (u0 m IDN k j i * grad_phi_by_r * bdt) * x3v) in
  let p_dot_r := (u0 m IM1 k j i * x1v) + (u0 m IM2 k j i * x2v)
                 + (u0 m IM3 k j i * x3v) in
  upd u0 m IEN k j i (u0 m IEN k j i - p_dot_r * grad_phi_by_r * bdt).

(** [AddBHGrav]: the new contents of [u0] (passed by reference). *)
Definition AddBHGrav (pbh : pgen_bh) (pm : Mesh Real) (bdt : Real)
    (u0 w0 : DvceArray5D Real) : DvceArray5D Real :=
  let indcs := mb_indcs pm in
  let nmb1 := (nmb_thispack pm - 1)%Z in
  let size := mb_size pm in
  par_for 0 nmb1 (ks indcs) (ke indcs) (js indcs) (je indcs) (is_ indcs) (ie indcs)
          (AddBHGrav_kernel pbh bdt indcs size) u0.

(** The body of the kernel of [AddTabularCooling]; the cell position and
    radius it computes are not used. *)
Definition AddTabularCooling_kernel (pbh : pgen_bh) (bdt : Real)
    (gm1 rho_cgs v_cgs temp_unit cooling_rate_unit : Real)
    (indcs : RegionIndcs) (size : Z -> RegionSize Real)
    (w0 : DvceArray5D Real)
    (m k j i : Z) (u0 : DvceArray5D Real) : DvceArray5D Real :=
  let x1min := x1min (size m) in
  let x1max := x1max (size m) in
  let nx1 := nx1 indcs in
  let x1v := CellCenterX (i - is_ indcs) nx1 x1min x1max in
  let x2min := x2min (size m) in
  let x2max := x2max (size m) in
  let nx2 := nx2 indcs in
  let x2v := CellCenterX (j - js indcs) nx2 x2min x2max in
  let x3min := x3min (size m) in
  let x3max := x3max (size m) in
  let nx3 := nx3 indcs in
  let x3v := CellCenterX (k - ks indcs) nx3 x3min x3max in
  let rad := rsqrt (SQR x1v + SQR x2v + SQR x3v) in
  let dens_cgs := w0 m IDN k j i * rho_cgs in
  let pres_cgs := w0 m IEN k j i * gm1 * rho_cgs * SQR v_cgs in
  let temp_cgs := (pres_cgs / dens_cgs) * temp_unit in
  let n_cgs := dens_cgs / (CONST_mu pbh * CONST_mp pbh) in
  let lambda_cgs := ISMCoolFn temp_cgs in
  let cooling_rate_cgs := SQR n_cgs * lambda_cgs in
  let cooling_rate_code := cooling_rate_cgs / cooling_rate_unit in
  upd u0 m IEN k j i (u0 m IEN k j i - cooling_rate_code * bdt).

Definition AddTabularCooling (pbh : pgen_bh) (pm : Mesh Real) (bdt : Real)
    (u0 w0 : DvceArray5D Real) : DvceArray5D Real :=
  let indcs := mb_indcs pm in
  let nmb1 := (nmb_thispack pm - 1)%Z in
  let size := mb_size pm in
  let gm1 := gamma_gas pbh - of_int 1 in
  let rho_cgs := mass_cgs pbh / pow (length_cgs pbh) lit_3_0 in
  let v_cgs := length_cgs pbh / time_cgs pbh in
  let temp_unit := CONST_mu pbh * CONST_mp pbh / CONST_kB_cgs pbh in
  let cooling_rate_unit :=
    mass_cgs pbh / (length_cgs pbh * pow (time_cgs pbh) lit_3_0) in
  par_for 0 nmb1 (ks indcs) (ke indcs) (js indcs) (je indcs) (is_ indcs) (ie indcs)
          (AddTabularCooling_kernel pbh bdt gm1 rho_cgs v_cgs temp_unit
                                    cooling_rate_unit indcs size w0) u0.

(** [AddUserSrcs]: dereferences [phydro] (no result on [nullptr]) and
    calls [AddBHGrav]. *)
Definition AddUserSrcs (pbh : pgen_bh) (pm : Mesh Real) (bdt : Real)
    : option (Mesh Real) :=
  match phydro pm with
  | None => None
  | Some hyd =>
      let w0 := w0 hyd in
      let u0 := AddBHGrav pbh pm bdt (u0 hyd) w0 in
      Some (set_phydro pm (set_u0 hyd u0))
  end.

Definition UserProblem (pin : ParameterInput Real) (restart : bool)
    (pg : ProblemGenerator Real pgen_bh) : Exc (ProblemGenerator Real pgen_bh) :=
  let user_srcs_func := Some AddUserSrcs in
  let pmbp := pmy_mesh_ pg in
  let indcs := mb_indcs pmbp in
  let size := mb_size pmbp in
  G <- GetReal pin "problem" "CONST_G" ;;
  K <- GetReal pin "problem" "CONST_K" ;;
  kB <- GetReal pin "problem" "CONST_kB_cgs" ;;
  mp <- GetReal pin "problem" "CONST_mp" ;;
  mu <- GetReal pin "problem" "CONST_mu" ;;
  rv <- GetReal pin "problem" "r_vir" ;;
  rhov <- GetReal pin "problem" "rho_vir" ;;
  Mb <- GetReal pin "problem" "M_bh" ;;
  vb <- GetReal pin "problem" "v_bh" ;;
  rhoc <- GetReal pin "problem" "rho_cgm" ;;
  csc <- GetReal pin "problem" "cs_cgm" ;;
  eps <- GetReal pin "problem" "epsilon" ;;
  gam <- GetReal pin "hydro" "gamma" ;;
  len <- GetReal pin "units" "length_cgs" ;;
  mass <- GetReal pin "units" "mass_cgs" ;;
  tim <- GetReal pin "units" "time_cgs" ;;
  let pbh := {| CONST_G := G; CONST_K := K; CONST_kB_cgs := kB; CONST_mp := mp;
                CONST_mu := mu; r_vir := rv; rho_vir := rhov; M_bh := Mb;
                v_bh := vb; rho_cgm := rhoc; cs_cgm := csc; epsilon := eps;
                gamma_gas := gam; length_cgs := len; mass_cgs := mass;
                time_cgs := tim |} in
  let gm1 := gamma_gas pbh - of_int 1 in
  if restart then
    Ok {| pmy_mesh_ := pmbp; user_srcs_func := user_srcs_func; params := pbh |}
  else
    match phydro pmbp with
    | Some hyd =>
        let u0 :=
          par_for 0 (nmb_thispack pmbp - 1)%Z (ks indcs) (ke indcs)
                  (js indcs) (je indcs) (is_ indcs) (ie indcs)
                  (UserProblem_kernel pbh gm1 indcs size) (u0 hyd) in
        Ok {| pmy_mesh_ := set_phydro pmbp (set_u0 hyd u0);
              user_srcs_func := user_srcs_func; params := pbh |}
    | None =>
        Ok {| pmy_mesh_ := pmbp; user_srcs_func := user_srcs_func; params := pbh |}
    end.
End Defs.
Arguments pgen_bh Real : clear implicits.
End RadBondi.

(** ** [bondi.cpp] *)

Module Bondi.
Section Defs.
Context {Real : Type} `{RealOps Real} `{PowOp Real}.
Local Open Scope real_scope.

Record pgen_bh : Type := {
  cs_amb : Real; d_amb : Real; M_bh : Real; gamma : Real;
  CONST_G : Real; epsilon : Real
}.

(** The body of the ["bondi"] kernel of [UserProblem]: the uniform ambient
    state. *)
Definition UserProblem_kernel (pbh : pgen_bh) (gm1 : Real)
    (indcs : RegionIndcs) (size : Z -> RegionSize Real)
    (m k j i : Z) (u0 : DvceArray5D Real) : DvceArray5D Real :=
  let pres := d_amb pbh * SQR (cs_amb pbh) in
  let u0 := upd u0 m IDN k j i (d_amb pbh) in
  let u0 := upd u0 m IM1 k j i lit_0_0 in
  let u0 := upd u0 m IM2 k j i lit_0_0 in
  let u0 := upd u0 m IM3 k j i lit_0_0 in
  upd u0 m IEN k j i
      (pres / gm1
       + lit_0_5 * (SQR (u0 m IM1 k j i) + SQR (u0 m IM2 k j i)
                    + SQR (u0 m IM3 k j i)) / u0 m IDN k j i).

(** The body of the kernel of [AddBHGrav]: the momentum source is scaled
    by the ambient density [d_amb]. *)
Definition AddBHGrav_kernel (pbh : pgen_bh) (bdt : Real)
    (indcs : RegionIndcs) (size : Z -> RegionSize Real)
    (m k j i : Z) (u0 : DvceArray5D Real) : DvceArray5D Real :=
  let x1min := x1min (size m) in
  let x1max := x1max (size m) in
  let nx1 := nx1 indcs in
  let x1v := CellCenterX (i - is_ indcs) nx1 x1min x1max in
  let x2min := x2min (size m) in
  let x2max := x2max (size m) in
  let nx2 := nx2 indcs in
  let x2v := CellCenterX (j - js indcs) nx2 x2min x2max in
  let x3min := x3min (size m) in
  let x3max := x3max (size m) in
  let nx3 := nx3 indcs in
  let x3v := CellCenterX (k - ks indcs) nx3 x3min x3max in
  let rad := rsqrt (SQR x1v + SQR x2v + SQR x3v) in
  let grad_phi_by_r :=
    (CONST_G pbh * M_bh pbh) / pow (SQR rad + SQR (epsilon pbh)) lit_1_5 in
  let u0 := upd u0 m IM1 k j i
                (u0 m IM1 k j i - (d_amb pbh * grad_phi_by_r * bdt) * x1v) in
  let u0 := upd u0 m IM2 k j i
                (u0 m IM2 k j i - (d_amb pbh * grad_phi_by_r * bdt) * x2v) in
  let u0 := upd u0 m IM3 k j i
                (u0 m IM3 k j i - (d_amb pbh * grad_phi_by_r * bdt) * x3v) in
  let p_dot_r := (u0 m IM1 k j i * x1v) + (u0 m IM2 k j i * x2v)
                 + (u0 m IM3 k j i * x3v) in
  upd u0 m IEN k j i (u0 m IEN k j i - p_dot_r * grad_phi_by_r * bdt).

Definition AddBHGrav (pbh : pgen_bh) (pm : Mesh Real) (bdt : Real)
    (u0 w0 : DvceArray5D Real) : DvceArray5D Real :=
  let indcs := mb_indcs pm in
  let nmb1 := (nmb_thispack pm - 1)%Z in
  let size := mb_size pm in
  par_for 0 nmb1 (ks indcs) (ke indcs) (js indcs) (je indcs) (is_ indcs) (ie indcs)
          (AddBHGrav_kernel pbh bdt indcs size) u0.

Definition AddUserSrcs (pbh : pgen_bh) (pm : Mesh Real) (bdt : Real)
    : option (Mesh Real) :=
  match phydro pm with
  | None => None
  | Some hyd =>
      let w0 := w0 hyd in
      let u0 := AddBHGrav pbh pm bdt (u0 hyd) w0 in
      Some (set_phydro pm (set_u0 hyd u0))
  end.

Definition UserProblem (pin : ParameterInput Real) (restart : bool)
    (pg : ProblemGenerator Real pgen_bh) : Exc (ProblemGenerator Real pgen_bh) :=
  let user_srcs_func := Some AddUserSrcs in
  let pmbp := pmy_mesh_ pg in
  let indcs := mb_indcs pmbp in
  let size := mb_size pmbp in
  cs <- GetReal pin "problem" "cs_amb" ;;
  d <- GetReal pin "problem" "d_amb" ;;
  Mb <- GetReal pin "problem" "M_bh" ;;
  eps <- GetReal pin "problem" "epsilon" ;;
  gam <- GetReal pin "hydro" "gamma" ;;
  G <- GetReal pin "problem" "CONST_G" ;;
  let pbh := {| cs_amb := cs; d_amb := d; M_bh := Mb; gamma := gam;
                CONST_G := G; epsilon := eps |} in
  let gm1 := gamma pbh - of_int 1 in
  if restart then
    Ok {| pmy_mesh_ := pmbp; user_srcs_func := user_srcs_func; params := pbh |}
  else
    match phydro pmbp with
    | Some hyd =>
        let u0 :=
          par_for 0 (nmb_thispack pmbp - 1)%Z (ks indcs) (ke indcs)
                  (js indcs) (je indcs) (is_ indcs) (ie indcs)
                  (UserProblem_kernel pbh gm1 indcs size) (u0 hyd) in
        Ok {| pmy_mesh_ := set_phydro pmbp (set_u0 hyd u0);
              user_srcs_func := user_srcs_func; params := pbh |}
    | None =>
        Ok {| pmy_mesh_ := pmbp; user_srcs_func := user_srcs_func; params := pbh |}
    end.
End Defs.
Arguments pgen_bh Real : clear implicits.
End Bondi.

(** ** [cylindrical_jet_2.cpp] *)

Module CylindricalJet.
Section Defs.
Context {Real : Type} `{RealOps Real}.
Local Open Scope real_scope.

Record pgen_jet_amb : Type := {
  cs_amb : Real; d_amb : Real; rho_jet : Real; gamma : Real;
  r_jet : Real; h_jet : Real; l_jet : Real; v_jet : Real
}.

(** [InJet].  The call [abs(x1v)] is unqualified and the file has no
    [using]: of the headers it includes, [<cmath>] declares the
    floating-point overloads in [std] only, and the one [abs] of the global
    namespace is [int abs(int)] of [<stdlib.h>].  So [x1v] is converted to
    [int], and the [int] result is converted back to [Real] for the
    comparison with [h_jet]. *)
Definition InJet (x1v x2v x3v r_jet h_jet : Real) : bool :=
  let r2 := x2v * x2v + x3v * x3v in
  (r2 <=? r_jet * r_jet) && (of_int (int_abs (to_int x1v)) <=? h_jet).

(** The loop [for (n = nfluid; n < nfluid + nscalars; ++n) u0(m,n,k,j,i) = scal]. *)
Definition set_scalars (nfluid nscalars : Z) (scal : Real) (m k j i : Z)
    (u0 : DvceArray5D Real) : DvceArray5D Real :=
  fold_left (fun u0 n => upd u0 m n k j i scal)
            (zrange nfluid (nfluid + nscalars - 1)) u0.

(** The body of the ["jets"] kernel of [UserProblem]. *)
Definition UserProblem_kernel (pjet : pgen_jet_amb) (gm1 : Real)
    (nfluid nscalars : Z)
    (indcs : RegionIndcs) (size : Z -> RegionSize Real)
    (m k j i : Z) (u0 : DvceArray5D Real) : DvceArray5D Real :=
  let xmin := x1min (size m) in
  let xmax := x1max (size m) in
  let nx1 := nx1 indcs in
  let x1v := CellCenterX (i - is_ indcs) nx1 xmin xmax in
  let ymin := x2min (size m) in
  let ymax := x2max (size m) in
  let nx2 := nx2 indcs in
  let x2v := CellCenterX (j - js indcs) nx2 ymin ymax in
  let zmin := x3min (size m) in
  let zmax := x3max (size m) in
  let nx3 := nx3 indcs in
  let x3v := CellCenterX (k - ks indcs) nx3 zmin zmax in
  let pres := d_amb pjet * SQR (cs_amb pjet) in
  let scal := lit_0_0 in
  let '(scal, u0) :=
    if InJet x1v x2v x3v (r_jet pjet) (h_jet pjet) then
      let scal := lit_1_0 in
      let u0 := upd u0 m IDN k j i (rho_jet pjet) in
      let rad := rsqrt (SQR x1v + SQR x2v + SQR x3v) in
      let u0 := upd u0 m IM1 k j i
                    (if of_int 0 <? rad then rho_jet pjet * v_jet pjet else lit_0_0) in
      let u0 := upd u0 m IM2 k j i lit_0_0 in
      let u0 := upd u0 m IM3 k j i lit_0_0 in
      (scal, u0)
    else
      let scal := lit_0_0 in
      let u0 := upd u0 m IDN k j i (d_amb pjet) in
      let u0 := upd u0 m IM1 k j i lit_0_0 in
      let u0 := upd u0 m IM2 k j i lit_0_0 in
      let u0 := upd u0 m IM3 k j i lit_0_0 in
      (scal, u0) in
  let u0 := upd u0 m IEN k j i
                (pres / gm1
                 + lit_0_5 * (SQR (u0 m IM1 k j i) + SQR (u0 m IM2 k j i)
                              + SQR (u0 m IM3 k j i)) / u0 m IDN k j i) in
  set_scalars nfluid nscalars scal m k j i u0.

(** The body of the ["jet_inject"] kernel of [AddJets]. *)
Definition AddJets_kernel (pjet : pgen_jet_amb) (gm1 : Real)
    (nfluid nscalars : Z)
    (indcs : RegionIndcs) (size : Z -> RegionSize Real)
    (m k j i : Z) (u0 : DvceArray5D Real) : DvceArray5D Real :=
  let x1min := x1min (size m) in
  let x1max := x1max (size m) in
  let nx1 := nx1 indcs in
  let x1v := CellCenterX (i - is_ indcs) nx1 x1min x1max in
  let x2min := x2min (size m) in
  let x2max := x2max (size m) in
  let nx2 := nx2 indcs in
  let x2v := CellCenterX (j - js indcs) nx2 x2min x2max in
  let x3min := x3min (size m) in
  let x3max := x3max (size m) in
  let nx3 := nx3 indcs in
  let x3v := CellCenterX (k - ks indcs) nx3 x3min x3max in
  if InJet x1v x2v x3v (r_jet pjet) (h_jet pjet) then
    let scal := lit_1_0 in
    let pres := d_amb pjet * SQR (cs_amb pjet) in
    let u0 := upd u0 m IDN k j i (rho_jet pjet) in
    let rad := rsqrt (SQR x1v + SQR x2v + SQR x3v) in
    let u0 := upd u0 m IM1 k j i
                  (if of_int 0 <? rad then rho_jet pjet * v_jet pjet else lit_0_0) in
    let u0 := upd u0 m IM2 k j i lit_0_0 in
    let u0 := upd u0 m IM3 k j i lit_0_0 in
    let u0 := upd u0 m IEN k j i
                  (pres / gm1
                   + lit_0_5 * (SQR (u0 m IM1 k j i) + SQR (u0 m IM2 k j i)
                                + SQR (u0 m IM3 k j i)) / u0 m IDN k j i) in
    set_scalars nfluid nscalars scal m k j i u0
  else u0.

(** [AddJets]: the new contents of [u0]; [nfluid] and [nscalars] are read
    from the hydro module. *)
Definition AddJets (pjet : pgen_jet_amb) (pm : Mesh Real) (bdt : Real)
    (hyd : Hydro Real) (u0 w0 : DvceArray5D Real) : DvceArray5D Real :=
  let indcs := mb_indcs pm in
  let nmb1 := (nmb_thispack pm - 1)%Z in
  let size := mb_size pm in
  let gm1 := gamma pjet - of_int 1 in
  let nfluid := nhydro hyd in
  let nscalars := nscalars hyd in
  par_for 0 nmb1 (ks indcs) (ke indcs) (js indcs) (je indcs) (is_ indcs) (ie indcs)
          (AddJets_kernel pjet gm1 nfluid nscalars indcs size) u0.

Definition AddUserSrcs (pjet : pgen_jet_amb) (pm : Mesh Real) (bdt : Real)
    : option (Mesh Real) :=
  match phydro pm with
  | None => None
  | Some hyd =>
      let w0 := w0 hyd in
      let u0 := AddJets pjet pm bdt hyd (u0 hyd) w0 in
      Some (set_phydro pm (set_u0 hyd u0))
  end.

Definition UserProblem (pin : ParameterInput Real) (restart : bool)
    (pg : ProblemGenerator Real pgen_jet_amb)
    : Exc (ProblemGenerator Real pgen_jet_amb) :=
  let user_srcs_func := Some AddUserSrcs in
  let pmbp := pmy_mesh_ pg in
  let indcs := mb_indcs pmbp in
  let size := mb_size pmbp in
  gam <- GetReal pin "hydro" "gamma" ;;
  cs <- GetReal pin "problem" "cs_amb" ;;
  d <- GetOrAddReal pin "problem" "d_amb" (of_int 1) ;;
  l <- GetReal pin "problem" "l_jet" ;;
  r <- GetReal pin "problem" "r_jet" ;;
  h <- GetReal pin "problem" "h_jet" ;;
  v <- GetReal pin "problem" "v_jet" ;;
  let area_jet := M_PI * r * r in
  let rho := (of_int 2 * l) / (v * v * v * area_jet) in
  let pjet := {| cs_amb := cs; d_amb := d; rho_jet := rho; gamma := gam;
                 r_jet := r; h_jet := h; l_jet := l; v_jet := v |} in
  let gm1 := gamma pjet - of_int 1 in
  if restart then
    Ok {| pmy_mesh_ := pmbp; user_srcs_func := user_srcs_func; params := pjet |}
  else
    match phydro pmbp with
    | Some hyd =>
        let nfluid := nhydro hyd in
        let nscalars := nscalars hyd in
        let u0 :=
          par_for 0 (nmb_thispack pmbp - 1)%Z (ks indcs) (ke indcs)
                  (js indcs) (je indcs) (is_ indcs) (ie indcs)
                  (UserProblem_kernel pjet gm1 nfluid nscalars indcs size)
                  (u0 hyd) in
        Ok {| pmy_mesh_ := set_phydro pmbp (set_u0 hyd u0);
              user_srcs_func := user_srcs_func; params := pjet |}
    | None =>
        Ok {| pmy_mesh_ := pmbp; user_srcs_func := user_srcs_func; params := pjet |}
    end.
End Defs.
Arguments pgen_jet_amb Real : clear implicits.
End CylindricalJet.

(** ** Two arithmetics *)

(** Truncation toward zero on the reals: the floor of a non-negative
    number, the ceiling of a negative one. *)
Definition Rtrunc (x : R) : Z := if Rle_dec 0 x then Zfloor x else Zceil x.

(** The conversion of a real to [int].  Where the truncated value is no
    value of [int] the conversion is undefined in C++; the conversion
    instruction of the x86-64 build gives [INT_MIN] there.  The properties
    below are stated for arguments within the range. *)
Definition R_to_int (x : R) : Z :=
  let n := Rtrunc x in if in_int_range n then n else INT_MIN.

(** The mathematical reals: [Real] without rounding.  The comparisons
    decide the order of [R]; [sqrt] is the Standard Library's.  They serve
    to name the value a kernel computes and to state order facts; rounding,
    overflow and NaN are not modelled. *)
#[export] Instance R_ops : RealOps R := {|
  of_int := IZR;
  lit_0_5 := 0.5%R;
  lit_1_5 := 1.5%R;
  M_PI := PI;
  radd := Rplus;
  rsub := Rminus;
  rmul := Rmult;
  rdiv := Rdiv;
  rsqrt := sqrt;
  to_int := R_to_int;
  rleb := fun x y => if Rle_dec x y then true else false;
  rltb := fun x y => if Rlt_dec x y then true else false
|}.

(** [std::pow] on the reals, [exp (y * ln x)]: the value of [std::pow] for a
    positive base.  Facts that depend on its values are stated for positive
    bases only. *)
#[export] Instance R_pow : PowOp R := {| pow := Rpower |}.

(** IEEE binary64, the [double] of the build: every operation of [RealOps]
    is a correctly rounded primitive.  [of_int] converts as the implicit
    [int] to [double] conversion does (exactly, for the magnitudes of an
    [int]). *)
Module Binary64.
Import PrimFloat.

Definition float_of_int (z : Z) : float :=
  match z with
  | Z0 => zero
  | Zpos _ => of_uint63 (Uint63.of_Z z)
  | Zneg p => opp (of_uint63 (Uint63.of_Z (Zpos p)))
  end.

(** The conversion of a [double] to [int]: the integer part of a finite
    number, read off its sign, mantissa and exponent; [INT_MIN] for a NaN,
    an infinity and a number whose integer part is no value of [int], as
    the conversion instruction of the build gives. *)
Definition float_to_int (x : float) : Z :=
  match FloatOps.Prim2SF x with
  | SpecFloat.S754_zero _ => 0
  | SpecFloat.S754_finite s m e =>
      let q := if (0 <=? e)%Z then (Zpos m * 2 ^ e)%Z else (Zpos m / 2 ^ (- e))%Z in
      let n := if s then (- q)%Z else q in
      if in_int_range n then n else INT_MIN
  | _ => INT_MIN
  end.

#[global] Instance binary64_ops : RealOps float := {|
  of_int := float_of_int;
  lit_0_5 := 0.5%float;
  lit_1_5 := 1.5%float;
  M_PI := 0x1.921fb54442d18p+1%float;
  radd := add;
  rsub := sub;
  rmul := mul;
  rdiv := div;
  rsqrt := sqrt;
  to_int := float_to_int;
  rleb := leb;
  rltb := ltb
|}.
End Binary64.

(** ** Vocabulary of the statements *)

Section KernelShape.
Context {Real : Type}.

(** A kernel body writes its own cell only. *)
Definition writes_own_cell
    (body : Z -> Z -> Z -> Z -> DvceArray5D Real -> DvceArray5D Real) : Prop :=
  forall m k j i u m' n' k' j' i',
    (m', k', j', i') <> (m, k, j, i) ->
    body m k j i u m' n' k' j' i' = u m' n' k' j' i'.

(** What a kernel body writes into its cell depends on the array through
    the entries of that cell only. *)
Definition reads_own_cell
    (body : Z -> Z -> Z -> Z -> DvceArray5D Real -> DvceArray5D Real) : Prop :=
  forall m k j i u v,
    (forall n, u m n k j i = v m n k j i) ->
    forall n, body m k j i u m n k j i = body m k j i v m n k j i.
End KernelShape.

(** The expression [grad_phi_by_r] of the two [AddBHGrav] kernels, as a
    function of the constants and of the radius: the softened acceleration
    magnitude over the radius, [G M / (r^2 + eps^2)^(3/2)]. *)
Definition grav_accel {Real} `{RealOps Real} `{PowOp Real} (G M eps r : Real) : Real :=
  ((G * M) / pow (SQR r + SQR eps) lit_1_5)%real.

(** The density the ["bondi"] kernel of [rad_bondi] writes into a cell, as
    a function of the cell's radius [rad]: the branch on [rad < r_vir] of
    the kernel. *)
Definition rad_initial_density {Real} `{RealOps Real} `{PowOp Real}
    (pbh : RadBondi.pgen_bh Real) (rad : Real) : Real :=
  if (rad <? RadBondi.r_vir pbh)%real then
    RadBondi.Rho_bondi rad (RadBondi.epsilon pbh) (RadBondi.CONST_G pbh)
      (RadBondi.M_bh pbh) (RadBondi.CONST_K pbh) (RadBondi.gamma_gas pbh)
      (RadBondi.rho_vir pbh) (RadBondi.r_vir pbh)
  else RadBondi.rho_cgm pbh.

(** ** Test fixtures over the reals *)

(** One block of one cell whose centre is [(1,0,0)]. *)
Definition one_cell_indcs : RegionIndcs :=
  {| is_ := 0; ie := 0; js := 0; je := 0; ks := 0; ke := 0;
     nx1 := 1; nx2 := 1; nx3 := 1 |}.

Definition x1_unit_box : RegionSize R :=
  {| x1min := 0.5; x1max := 1.5; x2min := -0.5; x2max := 0.5;
     x3min := -0.5; x3max := 0.5 |}%R.

(** A gas at rest of unit density and zero energy, in both arrays. *)
Definition rest_gas : DvceArray5D R :=
  fun m n k j i => if (n =? IDN)%Z then 1%R else 0%R.

Definition rest_hydro : Hydro R :=
  {| nhydro := 5; nscalars := 1; u0 := rest_gas; w0 := rest_gas |}.

Definition one_cell_mesh : Mesh R :=
  {| nmb_thispack := 1; mb_indcs := one_cell_indcs;
     mb_size := fun _ => x1_unit_box; phydro := Some rest_hydro |}.

(** [G = M = 1], [eps = 0.1], unit ambient density. *)
Definition unit_bh : Bondi.pgen_bh R :=
  {| Bondi.cs_amb := 1; Bondi.d_amb := 1; Bondi.M_bh := 1; Bondi.gamma := 5 / 3;
     Bondi.CONST_G := 1; Bondi.epsilon := 0.1 |}%R.

(** The same point mass for [rad_bondi], with [gamma = 5/3], [K = 1], a
    virial radius of 2 and unit conversion factors. *)
Definition unit_rad_bh : RadBondi.pgen_bh R :=
  {| RadBondi.CONST_G := 1; RadBondi.CONST_K := 1; RadBondi.CONST_kB_cgs := 1;
     RadBondi.CONST_mp := 1; RadBondi.CONST_mu := 1; RadBondi.r_vir := 2;
     RadBondi.rho_vir := 1; RadBondi.M_bh := 1; RadBondi.v_bh := 0;
     RadBondi.rho_cgm := 0.5; RadBondi.cs_cgm := 1; RadBondi.epsilon := 0.1;
     RadBondi.gamma_gas := 5 / 3; RadBondi.length_cgs := 1;
     RadBondi.mass_cgs := 1; RadBondi.time_cgs := 1 |}%R.

(** One block of two cells along [x1], centred at [(-0.5, 0.5, 0)] and
    [(0.5, 0.5, 0)]. *)
Definition two_cell_indcs : RegionIndcs :=
  {| is_ := 0; ie := 1; js := 0; je := 0; ks := 0; ke := 0;
     nx1 := 2; nx2 := 1; nx3 := 1 |}.

Definition jet_box : RegionSize R :=
  {| x1min := -1; x1max := 1; x2min := 0; x2max := 1;
     x3min := -0.5; x3max := 0.5 |}%R.

Definition two_cell_mesh : Mesh R :=
  {| nmb_thispack := 1; mb_indcs := two_cell_indcs;
     mb_size := fun _ => jet_box; phydro := Some rest_hydro |}.

(** A jet of unit radius, half-length, speed and luminosity; [rho_jet] is
    what [UserProblem] derives from them. *)
Definition unit_jet : CylindricalJet.pgen_jet_amb R :=
  {| CylindricalJet.cs_amb := 1; CylindricalJet.d_amb := 1;
     CylindricalJet.rho_jet := (2 * 1) / (1 * 1 * 1 * (PI * 1 * 1));
     CylindricalJet.gamma := 5 / 3;
     CylindricalJet.r_jet := 1; CylindricalJet.h_jet := 1;
     CylindricalJet.l_jet := 1; CylindricalJet.v_jet := 1 |}%R.

(** A parameter input holding the values of [unit_rad_bh], and 1 under
    every other key. *)
Definition unit_pin : ParameterInput R :=
  fun block name =>
    if String.eqb name "r_vir" then Some 2%R
    else if String.eqb name "v_bh" then Some 0%R
    else if String.eqb name "rho_cgm" then Some 0.5%R
    else if String.eqb name "epsilon" then Some 0.1%R
    else if String.eqb name "gamma" then Some (5 / 3)%R
    else Some 1%R.

(** The problem generator of [rad_bondi] before setup, on the one-cell
    mesh. *)
Definition rad_pg0 : ProblemGenerator R (RadBondi.pgen_bh R) :=
  {| pmy_mesh_ := one_cell_mesh; user_srcs_func := None; params := unit_rad_bh |}.

Definition jet_pg0 : ProblemGenerator R (CylindricalJet.pgen_jet_amb R) :=
  {| pmy_mesh_ := two_cell_mesh; user_srcs_func := None; params := unit_jet |}.

Definition bondi_pg0 : ProblemGenerator R (Bondi.pgen_bh R) :=
  {| pmy_mesh_ := one_cell_mesh; user_srcs_func := None; params := unit_bh |}.

(** The same generators after setup: without restart and with it. *)
Definition rad_pg1 : ProblemGenerator R (RadBondi.pgen_bh R) :=
  match RadBondi.UserProblem unit_pin false rad_pg0 with
  | Ok pg => pg
  | Throw _ _ => rad_pg0
  end.

Definition rad_pg_restarted : ProblemGenerator R (RadBondi.pgen_bh R) :=
  match RadBondi.UserProblem unit_pin true rad_pg0 with
  | Ok pg => pg
  | Throw _ _ => rad_pg0
  end.

Definition jet_pg_restarted : ProblemGenerator R (CylindricalJet.pgen_jet_amb R) :=
  match CylindricalJet.UserProblem unit_pin true jet_pg0 with
  | Ok pg => pg
  | Throw _ _ => jet_pg0
  end.

Definition bondi_pg_restarted : ProblemGenerator R (Bondi.pgen_bh R) :=
  match Bondi.UserProblem unit_pin true bondi_pg0 with
  | Ok pg => pg
  | Throw _ _ => bondi_pg0
  end.

(** ** Test fixtures in binary64 *)

(** The two-cell block and the unit jet again, in [double]. *)
Module Binary64Fixtures.
Import PrimFloat.
Local Open Scope Z_scope.

Definition jet_box64 : RegionSize float :=
  {| x1min := (-1)%float; x1max := 1%float; x2min := 0%float; x2max := 1%float;
     x3min := (-0.5)%float; x3max := 0.5%float |}.

Definition rest_gas64 : DvceArray5D float :=
  fun m n k j i => if (n =? IDN)%Z then 1%float else 0%float.

Definition rest_hydro64 : Hydro float :=
  {| nhydro := 5; nscalars := 1; u0 := rest_gas64; w0 := rest_gas64 |}.

Definition two_cell_mesh64 : Mesh float :=
  {| nmb_thispack := 1; mb_indcs := two_cell_indcs;
     mb_size := fun _ => jet_box64; phydro := Some rest_hydro64 |}.

Definition unit_pin64 : ParameterInput float :=
  fun block name =>
    if String.eqb name "gamma" then Some 1.5%float else Some 1%float.

Definition jet_pg64 : ProblemGenerator float (CylindricalJet.pgen_jet_amb float) :=
  {| pmy_mesh_ := two_cell_mesh64; user_srcs_func := None;
     params := {| CylindricalJet.cs_amb := 0%float; CylindricalJet.d_amb := 0%float;
                  CylindricalJet.rho_jet := 0%float; CylindricalJet.gamma := 0%float;
                  CylindricalJet.r_jet := 0%float; CylindricalJet.h_jet := 0%float;
                  CylindricalJet.l_jet := 0%float; CylindricalJet.v_jet := 0%float |} |}.

(** The generator after a setup without restart. *)
Definition jet_pg64_set_up : ProblemGenerator float (CylindricalJet.pgen_jet_amb float) :=
  match CylindricalJet.UserProblem unit_pin64 false jet_pg64 with
  | Ok pg => pg
  | Throw _ _ => jet_pg64
  end.

(** The conserved array of a mesh, [rest_gas64] without a hydro module. *)
Definition conserved64 (pm : Mesh float) : DvceArray5D float :=
  match phydro pm with
  | Some hyd => u0 hyd
  | None => rest_gas64
  end.

(** The mesh after one call of the registered source function. *)
Definition jet_mesh64_injected : Mesh float :=
  match CylindricalJet.AddUserSrcs (params jet_pg64_set_up) (pmy_mesh_ jet_pg64_set_up) 0.25%float with
  | Some pm => pm
  | None => pmy_mesh_ jet_pg64_set_up
  end.
End Binary64Fixtures.

(** * Further vocabulary *)

(** ** Required keys of the three setups *)

(** The first key of a list that the input does not hold. *)
Definition first_missing {Real} (pin : ParameterInput Real)
    (keys : list (string * string)) : option (string * string) :=
  find (fun key => match pin (fst key) (snd key) with
                   | Some _ => false
                   | None => true
                   end) keys.

(** The keys [UserProblem] of [rad_bondi] reads with [GetReal], in the order
    of the reads. *)
Definition rad_required_keys : list (string * string) :=
  [("problem", "CONST_G"); ("problem", "CONST_K"); ("problem", "CONST_kB_cgs");
   ("problem", "CONST_mp"); ("problem", "CONST_mu"); ("problem", "r_vir");
   ("problem", "rho_vir"); ("problem", "M_bh"); ("problem", "v_bh");
   ("problem", "rho_cgm"); ("problem", "cs_cgm"); ("problem", "epsilon");
   ("hydro", "gamma"); ("units", "length_cgs"); ("units", "mass_cgs");
   ("units", "time_cgs")]%string.

(** The same for [bondi]. *)
Definition bondi_required_keys : list (string * string) :=
  [("problem", "cs_amb"); ("problem", "d_amb"); ("problem", "M_bh");
   ("problem", "epsilon"); ("hydro", "gamma"); ("problem", "CONST_G")]%string.

(** The same for [cylindrical_jet_2]; ["problem"/"d_amb"], read in third
    place with [GetOrAddReal], is not among them. *)
Definition jet_required_keys : list (string * string) :=
  [("hydro", "gamma"); ("problem", "cs_amb"); ("problem", "l_jet");
   ("problem", "r_jet"); ("problem", "h_jet"); ("problem", "v_jet")]%string.

(** ** Comparing meshes *)

(** Two arrays hold the same values. *)
Definition same_array {Real} (u v : DvceArray5D Real) : Prop :=
  forall m n k j i, u m n k j i = v m n k j i.

(** Two meshes have the same blocks: their number, index ranges and
    bounding boxes. *)
Definition same_geometry {Real} (pm pm' : Mesh Real) : Prop :=
  nmb_thispack pm' = nmb_thispack pm /\
  mb_indcs pm' = mb_indcs pm /\
  forall m, mb_size pm' m = mb_size pm m.

(** Two meshes hold the same hydro state: both without a hydro module, or
    with the same variable counts and the same conserved and primitive
    values. *)
Definition same_hydro {Real} (pm pm' : Mesh Real) : Prop :=
  match phydro pm, phydro pm' with
  | Some hyd, Some hyd' =>
      nhydro hyd' = nhydro hyd /\ nscalars hyd' = nscalars hyd /\
      same_array (u0 hyd) (u0 hyd') /\ same_array (w0 hyd) (w0 hyd')
  | None, None => True
  | _, _ => False
  end.

(** The first momentum the two jet kernels give a cell of the jet region,
    as a function of the cell's radius: the conditional expression
    [(rad > 0) ? rho_jet * v_jet : 0.0]. *)
Definition jet_p1_of {Real} `{RealOps Real}
    (pjet : CylindricalJet.pgen_jet_amb Real) (rad : Real) : Real :=
  if (of_int 0 <? rad)%real
  then (CylindricalJet.rho_jet pjet * CylindricalJet.v_jet pjet)%real
  else lit_0_0.

(** ** More fixtures over the reals *)

(** One block of one cell whose centre is [(3,0,0)], beyond the virial
    radius of [unit_rad_bh]. *)
Definition x1_far_box : RegionSize R :=
  {| x1min := 2.5; x1max := 3.5; x2min := -0.5; x2max := 0.5;
     x3min := -0.5; x3max := 0.5 |}%R.

Definition far_cell_mesh : Mesh R :=
  {| nmb_thispack := 1; mb_indcs := one_cell_indcs;
     mb_size := fun _ => x1_far_box; phydro := Some rest_hydro |}.

Definition rad_far_pg0 : ProblemGenerator R (RadBondi.pgen_bh R) :=
  {| pmy_mesh_ := far_cell_mesh; user_srcs_func := None; params := unit_rad_bh |}.

(** The generators after a setup without restart. *)
Definition rad_far_pg1 : ProblemGenerator R (RadBondi.pgen_bh R) :=
  match RadBondi.UserProblem unit_pin false rad_far_pg0 with
  | Ok pg => pg
  | Throw _ _ => rad_far_pg0
  end.

Definition bondi_pg1 : ProblemGenerator R (Bondi.pgen_bh R) :=
  match Bondi.UserProblem unit_pin false bondi_pg0 with
  | Ok pg => pg
  | Throw _ _ => bondi_pg0
  end.

Definition jet_pg1 : ProblemGenerator R (CylindricalJet.pgen_jet_amb R) :=
  match CylindricalJet.UserProblem unit_pin false jet_pg0 with
  | Ok pg => pg
  | Throw _ _ => jet_pg0
  end.

(** A kernel body run over the cells of a list, in the order of the list;
    [par_for] is [run_cells] over [cells]. *)
Definition run_cells {S : Type} (body : Z -> Z -> Z -> Z -> S -> S)
    (l : list (Z * Z * Z * Z)) (s : S) : S :=
  fold_left (fun s c => let '(m, k, j, i) := c in body m k j i s) l s.
(* ================================================================== *)
(** * Part II: properties *)
(* ================================================================== *)

Unset Implicit Arguments.

(** ** Index ranges and the parallel loop *)

Lemma In_zrange (lo hi x : Z) : In x (zrange lo hi) <-> (lo <= x <= hi)%Z.
Proof.
  unfold zrange. rewrite in_map_iff. split.
  - intros [n [<- Hn]]. apply in_seq in Hn. lia.
  - intros Hx. exists (Z.to_nat (x - lo)). split; [lia|].
    apply in_seq. lia.
Qed.

Lemma NoDup_map_inj {A B : Type} (f : A -> B) (l : list A) :
  (forall a b, f a = f b -> a = b) -> NoDup l -> NoDup (map f l).
Proof.
  intros Hinj Hl. induction Hl as [|a l Hnotin Hl IH]; simpl; constructor; auto.
  intros Hin. apply in_map_iff in Hin as [b [Hb Hin]].
  apply Hinj in Hb. subst. contradiction.
Qed.

Lemma NoDup_zrange (lo hi : Z) : NoDup (zrange lo hi).
Proof.
  unfold zrange. apply NoDup_map_inj.
  - intros a b Hab. lia.
  - apply seq_NoDup.
Qed.

Lemma NoDup_flat_map {A B : Type} (f : A -> list B) (l : list A) :
  NoDup l ->
  (forall a, In a l -> NoDup (f a)) ->
  (forall a a' b, In a l -> In a' l -> In b (f a) -> In b (f a') -> a = a') ->
  NoDup (flat_map f l).
Proof.
  induction l as [|a l IH]; intros Hl Hf Hdisj; simpl.
  - constructor.
  - inversion Hl as [|? ? Hnotin Hl']; subst.
    apply NoDup_app.
    + apply Hf. now left.
    + apply IH; auto.
      * intros a0 Ha0. apply Hf. now right.
      * intros a0 a1 b Ha0 Ha1. apply Hdisj; now right.
    + intros b Hb Hb'. apply in_flat_map in Hb' as [a' [Ha' Hb']].
      assert (a = a') by (apply (Hdisj a a' b); auto; [now left | now right]).
      subst. contradiction.
Qed.

Lemma In_cells (ml mu kl ku jl ju il iu m k j i : Z) :
  In (m, k, j, i) (cells ml mu kl ku jl ju il iu) <->
  (ml <= m <= mu /\ kl <= k <= ku /\ jl <= j <= ju /\ il <= i <= iu)%Z.
Proof.
  unfold cells. rewrite in_flat_map. split.
  - intros [m' [Hm H1]]. apply in_flat_map in H1 as [k' [Hk H2]].
    apply in_flat_map in H2 as [j' [Hj H3]].
    apply in_map_iff in H3 as [i' [Heq Hi]].
    inversion Heq; subst. rewrite In_zrange in Hm, Hk, Hj, Hi. tauto.
  - intros (Hm & Hk & Hj & Hi). exists m. split; [now apply In_zrange|].
    apply in_flat_map. exists k. split; [now apply In_zrange|].
    apply in_flat_map. exists j. split; [now apply In_zrange|].
    apply in_map_iff. exists i. split; [reflexivity | now apply In_zrange].
Qed.

Lemma NoDup_cells (ml mu kl ku jl ju il iu : Z) :
  NoDup (cells ml mu kl ku jl ju il iu).
Proof.
  unfold cells.
  apply NoDup_flat_map; [apply NoDup_zrange | |].
  - intros m _. apply NoDup_flat_map; [apply NoDup_zrange | |].
    + intros k _. apply NoDup_flat_map; [apply NoDup_zrange | |].
      * intros j _. apply NoDup_map_inj; [|apply NoDup_zrange].
        intros a b Hab. now inversion Hab.
      * intros j j' [[[? ?] ?] ?] _ _ H1 H2.
        apply in_map_iff in H1 as [? [E1 _]]. apply in_map_iff in H2 as [? [E2 _]].
        congruence.
    + intros k k' [[[? ?] ?] ?] _ _ H1 H2.
      apply in_flat_map in H1 as [? [_ H1]]. apply in_flat_map in H2 as [? [_ H2]].
      apply in_map_iff in H1 as [? [E1 _]]. apply in_map_iff in H2 as [? [E2 _]].
      congruence.
  - intros m m' [[[? ?] ?] ?] _ _ H1 H2.
    apply in_flat_map in H1 as [? [_ H1]]. apply in_flat_map in H2 as [? [_ H2]].
    apply in_flat_map in H1 as [? [_ H1]]. apply in_flat_map in H2 as [? [_ H2]].
    apply in_map_iff in H1 as [? [E1 _]]. apply in_map_iff in H2 as [? [E2 _]].
    congruence.
Qed.

Section Arrays.
Context {Real : Type}.
Implicit Types u v : DvceArray5D Real.

Lemma idx_eqb_true (m n k j i m' n' k' j' i' : Z) :
  idx_eqb m n k j i m' n' k' j' i' = true <->
  m = m' /\ n = n' /\ k = k' /\ j = j' /\ i = i'.
Proof.
  unfold idx_eqb. rewrite !andb_true_iff, !Z.eqb_eq. tauto.
Qed.

Lemma upd_cell u (m n k j i : Z) (x : Real) (n' : Z) :
  upd u m n k j i x m n' k j i = if (n =? n')%Z then x else u m n' k j i.
Proof.
  unfold upd, idx_eqb. rewrite !Z.eqb_refl. simpl.
  rewrite !andb_true_r. reflexivity.
Qed.

Lemma upd_other_cell u (m n k j i : Z) (x : Real) (m' n' k' j' i' : Z) :
  (m', k', j', i') <> (m, k, j, i) ->
  upd u m n k j i x m' n' k' j' i' = u m' n' k' j' i'.
Proof.
  intros Hne. unfold upd.
  destruct (idx_eqb m n k j i m' n' k' j' i') eqn:E; [|reflexivity].
  apply idx_eqb_true in E. exfalso. apply Hne.
  destruct E as (-> & _ & -> & -> & ->). reflexivity.
Qed.

Lemma upd_other_var u (m n k j i : Z) (x : Real) (m' n' k' j' i' : Z) :
  n' <> n ->
  upd u m n k j i x m' n' k' j' i' = u m' n' k' j' i'.
Proof.
  intros Hne. unfold upd.
  destruct (idx_eqb m n k j i m' n' k' j' i') eqn:E; [|reflexivity].
  apply idx_eqb_true in E. exfalso. apply Hne. symmetry. apply E.
Qed.

Lemma fold_cells_spec (body : Z -> Z -> Z -> Z -> DvceArray5D Real -> DvceArray5D Real)
    (l : list (Z * Z * Z * Z)) :
  writes_own_cell body -> reads_own_cell body -> NoDup l ->
  forall u m k j i n,
    (In (m, k, j, i) l ->
     fold_left (fun s c => let '(m, k, j, i) := c in body m k j i s) l u m n k j i
     = body m k j i u m n k j i) /\
    (~ In (m, k, j, i) l ->
     fold_left (fun s c => let '(m, k, j, i) := c in body m k j i s) l u m n k j i
     = u m n k j i).
Proof.
  intros Hw Hr. induction l as [|[[[cm ck] cj] ci] l IH]; intros Hnd u m k j i n.
  - split; [intros [] | reflexivity].
  - inversion Hnd as [|? ? Hnotin Hnd']; subst.
    cbn [fold_left].
    destruct (IH Hnd' (body cm ck cj ci u) m k j i n) as [IHin IHout].
    split.
    + intros [E|Hin].
      * inversion E; subst. now apply IHout.
      * rewrite (IHin Hin). apply Hr. intros n0. apply Hw.
        intros E. inversion E; subst. contradiction.
    + intros Hout. rewrite IHout by (intros Hin; apply Hout; now right).
      apply Hw. intros E. apply Hout. left. now inversion E.
Qed.

(** Inside the index ranges, a [par_for] applies the body to the cell. *)
Lemma par_for_inside (body : Z -> Z -> Z -> Z -> DvceArray5D Real -> DvceArray5D Real)
    (ml mu kl ku jl ju il iu : Z) u (m n k j i : Z) :
  writes_own_cell body -> reads_own_cell body ->
  (ml <= m <= mu /\ kl <= k <= ku /\ jl <= j <= ju /\ il <= i <= iu)%Z ->
  par_for ml mu kl ku jl ju il iu body u m n k j i = body m k j i u m n k j i.
Proof.
  intros Hw Hr Hin. unfold par_for.
  apply (fold_cells_spec body _ Hw Hr (NoDup_cells _ _ _ _ _ _ _ _)).
  now apply In_cells.
Qed.

(** Outside them, it leaves the entry alone. *)
Lemma par_for_outside (body : Z -> Z -> Z -> Z -> DvceArray5D Real -> DvceArray5D Real)
    (ml mu kl ku jl ju il iu : Z) u (m n k j i : Z) :
  writes_own_cell body -> reads_own_cell body ->
  ~ (ml <= m <= mu /\ kl <= k <= ku /\ jl <= j <= ju /\ il <= i <= iu)%Z ->
  par_for ml mu kl ku jl ju il iu body u m n k j i = u m n k j i.
Proof.
  intros Hw Hr Hout. unfold par_for.
  apply (fold_cells_spec body _ Hw Hr (NoDup_cells _ _ _ _ _ _ _ _)).
  intros Hin. apply Hout. now apply In_cells in Hin.
Qed.

(** The cells may be visited in any order: two duplicate-free enumerations
    of the same cells leave the same array. *)
Lemma fold_cells_any_order
    (body : Z -> Z -> Z -> Z -> DvceArray5D Real -> DvceArray5D Real)
    (l l' : list (Z * Z * Z * Z)) u :
  writes_own_cell body -> reads_own_cell body ->
  NoDup l -> NoDup l' -> (forall c, In c l <-> In c l') ->
  forall m n k j i,
    fold_left (fun s c => let '(m, k, j, i) := c in body m k j i s) l u m n k j i
    = fold_left (fun s c => let '(m, k, j, i) := c in body m k j i s) l' u m n k j i.
Proof.
  intros Hw Hr Hl Hl' Hsame m n k j i.
  destruct (fold_cells_spec body l Hw Hr Hl u m k j i n) as [Hin Hout].
  destruct (fold_cells_spec body l' Hw Hr Hl' u m k j i n) as [Hin' Hout'].
  assert (Hdec : forall a b : Z * Z * Z * Z, {a = b} + {a <> b})
    by (repeat decide equality).
  destruct (in_dec Hdec (m, k, j, i) l) as [Hc|Hc].
  - rewrite (Hin Hc). symmetry. apply Hin'. now apply Hsame.
  - rewrite (Hout Hc). symmetry. apply Hout'. intros Hc'. apply Hc. now apply Hsame.
Qed.

(** Entries that no application of the body changes survive the loop. *)
Lemma par_for_preserves (P : Z -> Z -> Z -> Z -> Z -> Prop)
    (body : Z -> Z -> Z -> Z -> DvceArray5D Real -> DvceArray5D Real)
    (ml mu kl ku jl ju il iu : Z) u :
  (forall cm ck cj ci v m n k j i,
      P m n k j i -> body cm ck cj ci v m n k j i = v m n k j i) ->
  forall m n k j i, P m n k j i ->
    par_for ml mu kl ku jl ju il iu body u m n k j i = u m n k j i.
Proof.
  intros Hbody m n k j i HP. unfold par_for.
  generalize (cells ml mu kl ku jl ju il iu) u.
  induction l as [|[[[cm ck] cj] ci] l IH]; intros v; cbn [fold_left].
  - reflexivity.
  - rewrite IH. now apply Hbody.
Qed.
End Arrays.

(** Evaluating an entry of a kernel's result at the kernel's own cell. *)
Ltac at_own_cell :=
  cbv zeta; rewrite ?upd_cell;
  cbn [Z.eqb Pos.eqb IDN IM1 IM2 IM3 IEN].

(** ** The gravity kernels *)

Section Gravity.
Context {Real : Type} `{RealOps Real} `{PowOp Real}.
Local Open Scope real_scope.

Lemma rad_AddBHGrav_kernel_writes (pbh : RadBondi.pgen_bh Real) bdt indcs size :
  writes_own_cell (RadBondi.AddBHGrav_kernel pbh bdt indcs size).
Proof.
  intros m k j i u m' n' k' j' i' Hne. unfold RadBondi.AddBHGrav_kernel.
  cbv zeta. now rewrite !upd_other_cell by exact Hne.
Qed.

Lemma rad_AddBHGrav_kernel_reads (pbh : RadBondi.pgen_bh Real) bdt indcs size :
  reads_own_cell (RadBondi.AddBHGrav_kernel pbh bdt indcs size).
Proof.
  intros m k j i u v Huv n. unfold RadBondi.AddBHGrav_kernel.
  at_own_cell. now rewrite !Huv.
Qed.

Lemma bondi_AddBHGrav_kernel_writes (pbh : Bondi.pgen_bh Real) bdt indcs size :
  writes_own_cell (Bondi.AddBHGrav_kernel pbh bdt indcs size).
Proof.
  intros m k j i u m' n' k' j' i' Hne. unfold Bondi.AddBHGrav_kernel.
  cbv zeta. now rewrite !upd_other_cell by exact Hne.
Qed.

Lemma bondi_AddBHGrav_kernel_reads (pbh : Bondi.pgen_bh Real) bdt indcs size :
  reads_own_cell (Bondi.AddBHGrav_kernel pbh bdt indcs size).
Proof.
  intros m k j i u v Huv n. unfold Bondi.AddBHGrav_kernel.
  at_own_cell. now rewrite !Huv.
Qed.

(** On a cell of the pack, [AddBHGrav] is its kernel applied to the array
    the operator was called with. *)
Lemma rad_AddBHGrav_in_pack (pbh : RadBondi.pgen_bh Real) pm bdt u w m n k j i :
  in_pack pm m k j i ->
  RadBondi.AddBHGrav pbh pm bdt u w m n k j i
  = RadBondi.AddBHGrav_kernel pbh bdt (mb_indcs pm) (mb_size pm) m k j i u m n k j i.
Proof.
  intros Hin. unfold RadBondi.AddBHGrav. cbv zeta.
  apply par_for_inside;
    [apply rad_AddBHGrav_kernel_writes | apply rad_AddBHGrav_kernel_reads | exact Hin].
Qed.

Lemma bondi_AddBHGrav_in_pack (pbh : Bondi.pgen_bh Real) pm bdt u w m n k j i :
  in_pack pm m k j i ->
  Bondi.AddBHGrav pbh pm bdt u w m n k j i
  = Bondi.AddBHGrav_kernel pbh bdt (mb_indcs pm) (mb_size pm) m k j i u m n k j i.
Proof.
  intros Hin. unfold Bondi.AddBHGrav. cbv zeta.
  apply par_for_inside;
    [apply bondi_AddBHGrav_kernel_writes | apply bondi_AddBHGrav_kernel_reads | exact Hin].
Qed.

(** The update of one cell by the [rad_bondi] kernel: the momentum source is
    scaled by the cell's conserved density, and the energy source uses the
    momenta already updated. *)
Lemma rad_gravity_cell
    (pr : RadBondi.pgen_bh Real) (pm : Mesh Real) (bdt : Real)
    (u w : DvceArray5D Real) (m k j i : Z) :
  in_pack pm m k j i ->
  let x1 := cell_x1 pm m i in
  let x2 := cell_x2 pm m j in
  let x3 := cell_x3 pm m k in
  let a := grav_accel (RadBondi.CONST_G pr) (RadBondi.M_bh pr) (RadBondi.epsilon pr)
                      (cell_rad pm m k j i) in
  let rho := u m IDN k j i in
  let u' := RadBondi.AddBHGrav pr pm bdt u w in
  u' m IM1 k j i = u m IM1 k j i - (rho * a * bdt) * x1 /\
  u' m IM2 k j i = u m IM2 k j i - (rho * a * bdt) * x2 /\
  u' m IM3 k j i = u m IM3 k j i - (rho * a * bdt) * x3 /\
  u' m IEN k j i = u m IEN k j i
                   - (u' m IM1 k j i * x1 + u' m IM2 k j i * x2 + u' m IM3 k j i * x3)
                     * a * bdt.
Proof.
  intros Hin. cbv zeta.
  rewrite !(rad_AddBHGrav_in_pack pr pm bdt u w m _ k j i Hin).
  unfold RadBondi.AddBHGrav_kernel, grav_accel, cell_rad, cell_x1, cell_x2, cell_x3.
  at_own_cell. repeat split; reflexivity.
Qed.

(** The same for the [bondi] kernel, whose momentum source is scaled by the
    ambient density. *)
Lemma bondi_gravity_cell
    (pb : Bondi.pgen_bh Real) (pm : Mesh Real) (bdt : Real)
    (u w : DvceArray5D Real) (m k j i : Z) :
  in_pack pm m k j i ->
  let x1 := cell_x1 pm m i in
  let x2 := cell_x2 pm m j in
  let x3 := cell_x3 pm m k in
  let a := grav_accel (Bondi.CONST_G pb) (Bondi.M_bh pb) (Bondi.epsilon pb)
                      (cell_rad pm m k j i) in
  let rho := Bondi.d_amb pb in
  let u' := Bondi.AddBHGrav pb pm bdt u w in
  u' m IM1 k j i = u m IM1 k j i - (rho * a * bdt) * x1 /\
  u' m IM2 k j i = u m IM2 k j i - (rho * a * bdt) * x2 /\
  u' m IM3 k j i = u m IM3 k j i - (rho * a * bdt) * x3 /\
  u' m IEN k j i = u m IEN k j i
                   - (u' m IM1 k j i * x1 + u' m IM2 k j i * x2 + u' m IM3 k j i * x3)
                     * a * bdt.
Proof.
  intros Hin. cbv zeta.
  rewrite !(bondi_AddBHGrav_in_pack pb pm bdt u w m _ k j i Hin).
  unfold Bondi.AddBHGrav_kernel, grav_accel, cell_rad, cell_x1, cell_x2, cell_x3.
  at_own_cell. repeat split; reflexivity.
Qed.

(** C1. On every cell of the pack, [AddBHGrav] decrements each momentum
    component by [rho * a(r) * bdt * x_n], with [rho] the cell's conserved
    density in [rad_bondi] and the ambient density [d_amb] in [bondi], and
    decrements the energy by [(p . x) * a(r) * bdt] with [p] the momentum
    after the update. *)
Theorem AddBHGrav_momentum_then_energy
    (pr : RadBondi.pgen_bh Real) (pb : Bondi.pgen_bh Real) (pm : Mesh Real) (bdt : Real)
    (u w : DvceArray5D Real) (m k j i : Z) :
  in_pack pm m k j i ->
  let x1 := cell_x1 pm m i in
  let x2 := cell_x2 pm m j in
  let x3 := cell_x3 pm m k in
  let r := cell_rad pm m k j i in
  (let a := grav_accel (RadBondi.CONST_G pr) (RadBondi.M_bh pr) (RadBondi.epsilon pr) r in
   let rho := u m IDN k j i in
   let u' := RadBondi.AddBHGrav pr pm bdt u w in
   u' m IM1 k j i = u m IM1 k j i - (rho * a * bdt) * x1 /\
   u' m IM2 k j i = u m IM2 k j i - (rho * a * bdt) * x2 /\
   u' m IM3 k j i = u m IM3 k j i - (rho * a * bdt) * x3 /\
   u' m IEN k j i = u m IEN k j i
                    - (u' m IM1 k j i * x1 + u' m IM2 k j i * x2 + u' m IM3 k j i * x3)
                      * a * bdt) /\
  (let a := grav_accel (Bondi.CONST_G pb) (Bondi.M_bh pb) (Bondi.epsilon pb) r in
   let rho := Bondi.d_amb pb in
   let u' := Bondi.AddBHGrav pb pm bdt u w in
   u' m IM1 k j i = u m IM1 k j i - (rho * a * bdt) * x1 /\
   u' m IM2 k j i = u m IM2 k j i - (rho * a * bdt) * x2 /\
   u' m IM3 k j i = u m IM3 k j i - (rho * a * bdt) * x3 /\
   u' m IEN k j i = u m IEN k j i
                    - (u' m IM1 k j i * x1 + u' m IM2 k j i * x2 + u' m IM3 k j i * x3)
                      * a * bdt).
Proof.
  intros Hin. cbv zeta. split.
  - rewrite !(rad_AddBHGrav_in_pack pr pm bdt u w m _ k j i Hin).
    unfold RadBondi.AddBHGrav_kernel, grav_accel, cell_rad, cell_x1, cell_x2, cell_x3.
    at_own_cell. repeat split; reflexivity.
  - rewrite !(bondi_AddBHGrav_in_pack pb pm bdt u w m _ k j i Hin).
    unfold Bondi.AddBHGrav_kernel, grav_accel, cell_rad, cell_x1, cell_x2, cell_x3.
    at_own_cell. repeat split; reflexivity.
Qed.

(** C10. [AddBHGrav] changes no entry other than the three momenta and the
    energy: the density and every passive scalar of every cell are left as
    they were, in both variants. *)
Theorem AddBHGrav_keeps_density_and_scalars
    (pr : RadBondi.pgen_bh Real) (pb : Bondi.pgen_bh Real) (pm : Mesh Real) (bdt : Real)
    (u w : DvceArray5D Real) (m n k j i : Z) :
  n <> IM1 -> n <> IM2 -> n <> IM3 -> n <> IEN ->
  RadBondi.AddBHGrav pr pm bdt u w m n k j i = u m n k j i /\
  Bondi.AddBHGrav pb pm bdt u w m n k j i = u m n k j i.
Proof.
  intros H1 H2 H3 H4. split.
  - unfold RadBondi.AddBHGrav. cbv zeta.
    apply (par_for_preserves
             (fun _ n _ _ _ => n <> IM1 /\ n <> IM2 /\ n <> IM3 /\ n <> IEN));
      [|tauto].
    intros cm ck cj ci v m0 n0 k0 j0 i0 (N1 & N2 & N3 & N4).
    unfold RadBondi.AddBHGrav_kernel. cbv zeta.
    now rewrite !upd_other_var by assumption.
  - unfold Bondi.AddBHGrav. cbv zeta.
    apply (par_for_preserves
             (fun _ n _ _ _ => n <> IM1 /\ n <> IM2 /\ n <> IM3 /\ n <> IEN));
      [|tauto].
    intros cm ck cj ci v m0 n0 k0 j0 i0 (N1 & N2 & N3 & N4).
    unfold Bondi.AddBHGrav_kernel. cbv zeta.
    now rewrite !upd_other_var by assumption.
Qed.

(** Outside the index ranges of the pack (ghost cells, other packs) the two
    operators write nothing. *)
Lemma AddBHGrav_outside_pack
    (pr : RadBondi.pgen_bh Real) (pb : Bondi.pgen_bh Real) (pm : Mesh Real) (bdt : Real)
    (u w : DvceArray5D Real) (m n k j i : Z) :
  ~ in_pack pm m k j i ->
  RadBondi.AddBHGrav pr pm bdt u w m n k j i = u m n k j i /\
  Bondi.AddBHGrav pb pm bdt u w m n k j i = u m n k j i.
Proof.
  intros Hout. split.
  - unfold RadBondi.AddBHGrav. cbv zeta.
    apply par_for_outside;
      [apply rad_AddBHGrav_kernel_writes | apply rad_AddBHGrav_kernel_reads | exact Hout].
  - unfold Bondi.AddBHGrav. cbv zeta.
    apply par_for_outside;
      [apply bondi_AddBHGrav_kernel_writes | apply bondi_AddBHGrav_kernel_reads
      | exact Hout].
Qed.
End Gravity.

Lemma AddBHGrav_momentum_then_energy_witness :
  in_pack one_cell_mesh 0 0 0 0 /\
  RadBondi.AddBHGrav unit_rad_bh one_cell_mesh 0.01%R rest_gas rest_gas 0 IM1 0 0 0
  = (rest_gas 0%Z IM1 0%Z 0%Z 0%Z
     - (rest_gas 0%Z IDN 0%Z 0%Z 0%Z
        * grav_accel 1 1 0.1 (cell_rad one_cell_mesh 0 0 0 0) * 0.01)
       * cell_x1 one_cell_mesh 0 0)%R.
Proof.
  assert (Hin : in_pack one_cell_mesh 0 0 0 0) by (unfold in_pack; simpl; lia).
  split; [exact Hin|].
  exact (proj1 (proj1 (AddBHGrav_momentum_then_energy
                         unit_rad_bh unit_bh one_cell_mesh 0.01%R
                         rest_gas rest_gas 0 0 0 0 Hin))).
Defined.

Lemma AddBHGrav_keeps_density_and_scalars_witness :
  RadBondi.AddBHGrav unit_rad_bh one_cell_mesh 0.01%R rest_gas rest_gas 0 IDN 0 0 0
  = rest_gas 0 IDN 0 0 0 /\
  Bondi.AddBHGrav unit_bh one_cell_mesh 0.01%R rest_gas rest_gas 0 5 0 0 0
  = rest_gas 0 5 0 0 0.
Proof.
  split.
  - apply (AddBHGrav_keeps_density_and_scalars
             unit_rad_bh unit_bh one_cell_mesh 0.01%R rest_gas rest_gas 0 IDN 0 0 0);
      unfold IDN, IM1, IM2, IM3, IEN; lia.
  - apply (AddBHGrav_keeps_density_and_scalars
             unit_rad_bh unit_bh one_cell_mesh 0.01%R rest_gas rest_gas 0 5 0 0 0);
      unfold IDN, IM1, IM2, IM3, IEN; lia.
Defined.

(** ** The gravity regression value, over the reals *)

Section GravityRegression.
Local Open Scope R_scope.

Lemma Rpower_1_5 (x : R) : 0 < x -> Rpower x 1.5 = x * sqrt x.
Proof.
  intros Hx. replace 1.5 with (1 + / 2) by lra.
  rewrite Rpower_plus, Rpower_1, Rpower_sqrt by assumption. reflexivity.
Qed.

Lemma one_cell_x1 : cell_x1 one_cell_mesh 0 0 = 1.
Proof. unfold cell_x1, CellCenterX. simpl. lra. Qed.

Lemma one_cell_x2 : cell_x2 one_cell_mesh 0 0 = 0.
Proof. unfold cell_x2, CellCenterX. simpl. lra. Qed.

Lemma one_cell_x3 : cell_x3 one_cell_mesh 0 0 = 0.
Proof. unfold cell_x3, CellCenterX. simpl. lra. Qed.

Lemma one_cell_rad : cell_rad one_cell_mesh 0 0 0 0 = 1.
Proof.
  unfold cell_rad. rewrite one_cell_x1, one_cell_x2, one_cell_x3.
  unfold SQR. simpl. replace (1 * 1 + 0 * 0 + 0 * 0) with 1 by lra.
  apply sqrt_1.
Qed.

Lemma one_cell_in_pack : in_pack one_cell_mesh 0 0 0 0.
Proof. unfold in_pack. simpl. lia. Qed.

(** [a(1) = 1 / 1.01^(3/2)], between 0.98518 and 0.98519. *)
Lemma unit_accel_value : grav_accel 1 1 0.1 1 = 1 / (1.01 * sqrt 1.01).
Proof.
  unfold grav_accel, SQR. simpl.
  replace (1 * 1 + 0.1 * 0.1) with 1.01 by lra.
  rewrite Rpower_1_5 by lra. now rewrite Rmult_1_r.
Qed.

Lemma unit_accel_bounds : 0.98518 < grav_accel 1 1 0.1 1 < 0.98519.
Proof.
  rewrite unit_accel_value.
  assert (Hs : sqrt 1.01 * sqrt 1.01 = 1.01) by (apply sqrt_sqrt; lra).
  assert (Hs0 : 0 <= sqrt 1.01) by apply sqrt_pos.
  set (s := sqrt 1.01) in *.
  assert (1.004987 < s < 1.004988) by nra.
  split.
  - apply Rmult_lt_reg_r with (1.01 * s); [nra|].
    unfold Rdiv. rewrite Rmult_assoc, Rinv_l by nra. nra.
  - apply Rmult_lt_reg_r with (1.01 * s); [nra|].
    unfold Rdiv. rewrite Rmult_assoc, Rinv_l by nra. nra.
Qed.

(** The first momentum of the unit cell after one application of the
    [rad_bondi] kernel to the gas at rest. *)
Lemma rest_gas_first_momentum :
  RadBondi.AddBHGrav unit_rad_bh one_cell_mesh 0.01 rest_gas rest_gas
    0%Z IM1 0%Z 0%Z 0%Z
  = - (grav_accel 1 1 0.1 1 * 0.01).
Proof.
  destruct (rad_gravity_cell unit_rad_bh one_cell_mesh 0.01 rest_gas rest_gas
              0%Z 0%Z 0%Z 0%Z one_cell_in_pack) as (R1 & _).
  cbv zeta in R1. rewrite one_cell_x1, one_cell_rad in R1.
  rewrite R1. unfold rest_gas. simpl. lra.
Qed.

(** C4, as the code has it.  On the cell at [(1,0,0)] with [G = M = 1],
    [eps = 0.1], [bdt = 0.01], unit density and zero momentum, one
    application of [AddBHGrav] (either variant) changes the first momentum
    by exactly [- a * 0.01] with [a = 1 / 1.01^(3/2)], which is [-9.852e-3]
    to four digits; the other two momenta stay zero and the energy changes
    by exactly [- (p1' * 1) * a * 0.01] with [p1'] the new first momentum. *)
Theorem gravity_regression_value (u w : DvceArray5D R) :
  u 0%Z IDN 0%Z 0%Z 0%Z = 1 ->
  u 0%Z IM1 0%Z 0%Z 0%Z = 0 ->
  u 0%Z IM2 0%Z 0%Z 0%Z = 0 ->
  u 0%Z IM3 0%Z 0%Z 0%Z = 0 ->
  let a := 1 / Rpower 1.01 1.5 in
  let ur := RadBondi.AddBHGrav unit_rad_bh one_cell_mesh 0.01 u w in
  let ub := Bondi.AddBHGrav unit_bh one_cell_mesh 0.01 u w in
  (ur 0%Z IM1 0%Z 0%Z 0%Z = - (a * 0.01) /\
   ur 0%Z IM2 0%Z 0%Z 0%Z = 0 /\
   ur 0%Z IM3 0%Z 0%Z 0%Z = 0 /\
   ur 0%Z IEN 0%Z 0%Z 0%Z
   = u 0%Z IEN 0%Z 0%Z 0%Z - (ur 0%Z IM1 0%Z 0%Z 0%Z * 1) * a * 0.01 /\
   Rabs (ur 0%Z IM1 0%Z 0%Z 0%Z - u 0%Z IM1 0%Z 0%Z 0%Z - (- 9.852e-3)) < 5e-7) /\
  (ub 0%Z IM1 0%Z 0%Z 0%Z = - (a * 0.01) /\
   ub 0%Z IM2 0%Z 0%Z 0%Z = 0 /\
   ub 0%Z IM3 0%Z 0%Z 0%Z = 0 /\
   ub 0%Z IEN 0%Z 0%Z 0%Z
   = u 0%Z IEN 0%Z 0%Z 0%Z - (ub 0%Z IM1 0%Z 0%Z 0%Z * 1) * a * 0.01 /\
   Rabs (ub 0%Z IM1 0%Z 0%Z 0%Z - u 0%Z IM1 0%Z 0%Z 0%Z - (- 9.852e-3)) < 5e-7).
Proof.
  intros Hd H1 H2 H3. cbv zeta.
  destruct (rad_gravity_cell unit_rad_bh one_cell_mesh 0.01 u w 0%Z 0%Z 0%Z 0%Z
              one_cell_in_pack) as (R1 & R2 & R3 & R4).
  destruct (bondi_gravity_cell unit_bh one_cell_mesh 0.01 u w 0%Z 0%Z 0%Z 0%Z
              one_cell_in_pack) as (B1 & B2 & B3 & B4).
  cbv zeta in *.
  rewrite one_cell_x1, one_cell_x2, one_cell_x3, one_cell_rad in *.
  simpl RadBondi.CONST_G in *. simpl RadBondi.M_bh in *.
  simpl RadBondi.epsilon in *. simpl Bondi.CONST_G in *.
  simpl Bondi.M_bh in *. simpl Bondi.epsilon in *. simpl Bondi.d_amb in *.
  pose proof unit_accel_bounds as Hb.
  assert (Ha : grav_accel 1 1 0.1 1 = 1 / Rpower 1.01 1.5).
  { rewrite unit_accel_value, Rpower_1_5 by lra. reflexivity. }
  rewrite <- Ha. clear Ha.
  set (a := grav_accel 1 1 0.1 1) in *.
  simpl in R1, R2, R3, R4, B1, B2, B3, B4.
  rewrite Hd, H1 in R1. rewrite Hd, H2 in R2. rewrite Hd, H3 in R3.
  rewrite H1 in B1. rewrite H2 in B2. rewrite H3 in B3.
  assert (R1' : RadBondi.AddBHGrav unit_rad_bh one_cell_mesh 0.01 u w
                  0%Z IM1 0%Z 0%Z 0%Z = - (a * 0.01)) by (rewrite R1; lra).
  assert (R2' : RadBondi.AddBHGrav unit_rad_bh one_cell_mesh 0.01 u w
                  0%Z IM2 0%Z 0%Z 0%Z = 0) by (rewrite R2; lra).
  assert (R3' : RadBondi.AddBHGrav unit_rad_bh one_cell_mesh 0.01 u w
                  0%Z IM3 0%Z 0%Z 0%Z = 0) by (rewrite R3; lra).
  assert (B1' : Bondi.AddBHGrav unit_bh one_cell_mesh 0.01 u w
                  0%Z IM1 0%Z 0%Z 0%Z = - (a * 0.01)) by (rewrite B1; lra).
  assert (B2' : Bondi.AddBHGrav unit_bh one_cell_mesh 0.01 u w
                  0%Z IM2 0%Z 0%Z 0%Z = 0) by (rewrite B2; lra).
  assert (B3' : Bondi.AddBHGrav unit_bh one_cell_mesh 0.01 u w
                  0%Z IM3 0%Z 0%Z 0%Z = 0) by (rewrite B3; lra).
  split.
  - repeat split; try assumption.
    + rewrite R4, R2', R3'. lra.
    + rewrite R1', H1. apply Rabs_def1; lra.
  - repeat split; try assumption.
    + rewrite B4, B2', B3'. lra.
    + rewrite B1', H1. apply Rabs_def1; lra.
Qed.

Lemma gravity_regression_value_witness :
  Rabs (RadBondi.AddBHGrav unit_rad_bh one_cell_mesh 0.01 rest_gas rest_gas
          0%Z IM1 0%Z 0%Z 0%Z
        - rest_gas 0%Z IM1 0%Z 0%Z 0%Z - (- 9.852e-3)) < 5e-7.
Proof.
  refine (proj2 (proj2 (proj2 (proj2 (proj1
    (gravity_regression_value rest_gas rest_gas _ _ _ _))))));
    reflexivity.
Defined.

(** C4, as stated, fails: on that input the first momentum changes by less
    than [-9.85e-3], more than [4.8e-5] away from the quoted [-9.803e-3]. *)
Lemma gravity_regression_value_off :
  let dp1 := RadBondi.AddBHGrav unit_rad_bh one_cell_mesh 0.01 rest_gas rest_gas
               0%Z IM1 0%Z 0%Z 0%Z - rest_gas 0%Z IM1 0%Z 0%Z 0%Z in
  4.8e-5 < Rabs (dp1 - (- 9.803e-3)).
Proof.
  cbv zeta. rewrite rest_gas_first_momentum.
  pose proof unit_accel_bounds as Hb.
  change (rest_gas 0%Z IM1 0%Z 0%Z 0%Z) with 0.
  rewrite <- Rabs_Ropp. apply Rlt_le_trans with (2 := Rle_abs _). lra.
Qed.

(** The quoted value is what the exponent 2 in place of 3/2 gives:
    [0.01 / 1.01^2] is [9.803e-3] to four digits. *)
Lemma quoted_value_is_inverse_square :
  Rabs (- (0.01 / 1.01 ^ 2) - (- 9.803e-3)) < 5e-8.
Proof.
  assert (Hx : 0.01 / 1.01 ^ 2 * 1.0201 = 0.01).
  { replace 1.0201 with (1.01 ^ 2) by lra.
    unfold Rdiv. rewrite Rmult_assoc, Rinv_l; lra. }
  set (x := 0.01 / 1.01 ^ 2) in *.
  apply Rabs_def1; lra.
Qed.

End GravityRegression.

(** ** Setup: what a normal return of [UserProblem] leaves behind *)

(** Splits a setup that returned normally along its parameter reads. *)
Ltac setup_returned H :=
  repeat match type of H with
         | context [GetReal ?pin ?b ?n] =>
             let Hget := fresh "Hget" in
             destruct (GetReal pin b n) eqn:Hget; cbn [bind] in H;
             [|discriminate H]
         | context [GetOrAddReal ?pin ?b ?n ?d] =>
             let Hget := fresh "Hget" in
             destruct (GetOrAddReal pin b n d) eqn:Hget; cbn [bind] in H;
             [|discriminate H]
         end.

Section Setup.
Context {Real : Type} `{RealOps Real} `{PowOp Real}.
Local Open Scope real_scope.

Lemma rad_UserProblem_Ok (pin : ParameterInput Real) (restart : bool)
    (pg pg' : ProblemGenerator Real (RadBondi.pgen_bh Real)) :
  RadBondi.UserProblem pin restart pg = Ok pg' ->
  user_srcs_func pg' = Some RadBondi.AddUserSrcs /\
  GetReal pin "hydro" "gamma" = Ok (RadBondi.gamma_gas (params pg')) /\
  pmy_mesh_ pg' =
    (if restart then pmy_mesh_ pg
     else match phydro (pmy_mesh_ pg) with
          | Some hyd =>
              let pm := pmy_mesh_ pg in
              let indcs := mb_indcs pm in
              set_phydro pm (set_u0 hyd
                (par_for 0 (nmb_thispack pm - 1) (ks indcs) (ke indcs)
                   (js indcs) (je indcs) (is_ indcs) (ie indcs)
                   (RadBondi.UserProblem_kernel (params pg')
                      (RadBondi.gamma_gas (params pg') - of_int 1)
                      indcs (mb_size pm))
                   (u0 hyd)))
          | None => pmy_mesh_ pg
          end).
Proof.
  unfold RadBondi.UserProblem. cbv zeta. intros Hret.
  setup_returned Hret.
  destruct restart; [|destruct (phydro (pmy_mesh_ pg))];
    inversion Hret; subst; cbn; auto.
Qed.

Lemma bondi_UserProblem_Ok (pin : ParameterInput Real) (restart : bool)
    (pg pg' : ProblemGenerator Real (Bondi.pgen_bh Real)) :
  Bondi.UserProblem pin restart pg = Ok pg' ->
  user_srcs_func pg' = Some Bondi.AddUserSrcs /\
  GetReal pin "hydro" "gamma" = Ok (Bondi.gamma (params pg')) /\
  pmy_mesh_ pg' =
    (if restart then pmy_mesh_ pg
     else match phydro (pmy_mesh_ pg) with
          | Some hyd =>
              let pm := pmy_mesh_ pg in
              let indcs := mb_indcs pm in
              set_phydro pm (set_u0 hyd
                (par_for 0 (nmb_thispack pm - 1) (ks indcs) (ke indcs)
                   (js indcs) (je indcs) (is_ indcs) (ie indcs)
                   (Bondi.UserProblem_kernel (params pg')
                      (Bondi.gamma (params pg') - of_int 1)
                      indcs (mb_size pm))
                   (u0 hyd)))
          | None => pmy_mesh_ pg
          end).
Proof.
  unfold Bondi.UserProblem. cbv zeta. intros Hret.
  setup_returned Hret.
  destruct restart; [|destruct (phydro (pmy_mesh_ pg))];
    inversion Hret; subst; cbn; auto.
Qed.

Lemma jet_UserProblem_Ok (pin : ParameterInput Real) (restart : bool)
    (pg pg' : ProblemGenerator Real (CylindricalJet.pgen_jet_amb Real)) :
  CylindricalJet.UserProblem pin restart pg = Ok pg' ->
  user_srcs_func pg' = Some CylindricalJet.AddUserSrcs /\
  GetReal pin "hydro" "gamma" = Ok (CylindricalJet.gamma (params pg')) /\
  CylindricalJet.rho_jet (params pg')
  = (of_int 2 * CylindricalJet.l_jet (params pg'))
    / (CylindricalJet.v_jet (params pg') * CylindricalJet.v_jet (params pg')
       * CylindricalJet.v_jet (params pg')
       * (M_PI * CylindricalJet.r_jet (params pg') * CylindricalJet.r_jet (params pg'))) /\
  pmy_mesh_ pg' =
    (if restart then pmy_mesh_ pg
     else match phydro (pmy_mesh_ pg) with
          | Some hyd =>
              let pm := pmy_mesh_ pg in
              let indcs := mb_indcs pm in
              set_phydro pm (set_u0 hyd
                (par_for 0 (nmb_thispack pm - 1) (ks indcs) (ke indcs)
                   (js indcs) (je indcs) (is_ indcs) (ie indcs)
                   (CylindricalJet.UserProblem_kernel (params pg')
                      (CylindricalJet.gamma (params pg') - of_int 1)
                      (nhydro hyd) (nscalars hyd) indcs (mb_size pm))
                   (u0 hyd)))
          | None => pmy_mesh_ pg
          end).
Proof.
  unfold CylindricalJet.UserProblem. cbv zeta. intros Hret.
  setup_returned Hret.
  destruct restart; [|destruct (phydro (pmy_mesh_ pg))];
    inversion Hret; subst; cbn; auto.
Qed.

(** C9. A setup called with the restart flag set and returning normally
    hands back the mesh it was given, hydro module and conserved array
    included: no entry of [u0] is written.  This holds for the three
    problem generators. *)
Theorem restart_leaves_state
    (pinj : ParameterInput Real)
    (pgj pgj' : ProblemGenerator Real (CylindricalJet.pgen_jet_amb Real))
    (pinr : ParameterInput Real)
    (pgr pgr' : ProblemGenerator Real (RadBondi.pgen_bh Real))
    (pinb : ParameterInput Real)
    (pgb pgb' : ProblemGenerator Real (Bondi.pgen_bh Real)) :
  (CylindricalJet.UserProblem pinj true pgj = Ok pgj' ->
   pmy_mesh_ pgj' = pmy_mesh_ pgj /\
   forall hyd, phydro (pmy_mesh_ pgj) = Some hyd ->
     exists hyd', phydro (pmy_mesh_ pgj') = Some hyd' /\
       forall m n k j i, u0 hyd' m n k j i = u0 hyd m n k j i) /\
  (RadBondi.UserProblem pinr true pgr = Ok pgr' ->
   pmy_mesh_ pgr' = pmy_mesh_ pgr /\
   forall hyd, phydro (pmy_mesh_ pgr) = Some hyd ->
     exists hyd', phydro (pmy_mesh_ pgr') = Some hyd' /\
       forall m n k j i, u0 hyd' m n k j i = u0 hyd m n k j i) /\
  (Bondi.UserProblem pinb true pgb = Ok pgb' ->
   pmy_mesh_ pgb' = pmy_mesh_ pgb /\
   forall hyd, phydro (pmy_mesh_ pgb) = Some hyd ->
     exists hyd', phydro (pmy_mesh_ pgb') = Some hyd' /\
       forall m n k j i, u0 hyd' m n k j i = u0 hyd m n k j i).
Proof.
  split; [|split]; intros Hret.
  - apply jet_UserProblem_Ok in Hret as (_ & _ & _ & Hmesh). cbn in Hmesh.
    split; [exact Hmesh|]. intros hyd Hhyd. exists hyd. rewrite Hmesh. auto.
  - apply rad_UserProblem_Ok in Hret as (_ & _ & Hmesh). cbn in Hmesh.
    split; [exact Hmesh|]. intros hyd Hhyd. exists hyd. rewrite Hmesh. auto.
  - apply bondi_UserProblem_Ok in Hret as (_ & _ & Hmesh). cbn in Hmesh.
    split; [exact Hmesh|]. intros hyd Hhyd. exists hyd. rewrite Hmesh. auto.
Qed.

(** A setup returns normally as soon as the input holds every key. *)
Lemma rad_UserProblem_returns (pin : ParameterInput Real) (restart : bool)
    (pg : ProblemGenerator Real (RadBondi.pgen_bh Real)) :
  (forall block name, exists v, pin block name = Some v) ->
  exists pg', RadBondi.UserProblem pin restart pg = Ok pg'.
Proof.
  intros Hall. unfold RadBondi.UserProblem, GetReal. cbv zeta.
  repeat match goal with
         | |- context [pin ?b ?n] =>
             let v := fresh "v" in
             let Hv := fresh "Hv" in
             destruct (Hall b n) as [v Hv]; rewrite Hv; cbn [bind]
         end.
  destruct restart; [|destruct (phydro (pmy_mesh_ pg))]; eexists; reflexivity.
Qed.

Lemma jet_UserProblem_returns (pin : ParameterInput Real) (restart : bool)
    (pg : ProblemGenerator Real (CylindricalJet.pgen_jet_amb Real)) :
  (forall block name, exists v, pin block name = Some v) ->
  exists pg', CylindricalJet.UserProblem pin restart pg = Ok pg'.
Proof.
  intros Hall. unfold CylindricalJet.UserProblem, GetReal, GetOrAddReal. cbv zeta.
  repeat match goal with
         | |- context [pin ?b ?n] =>
             let v := fresh "v" in
             let Hv := fresh "Hv" in
             destruct (Hall b n) as [v Hv]; rewrite Hv; cbn [bind]
         end.
  destruct restart; [|destruct (phydro (pmy_mesh_ pg))]; eexists; reflexivity.
Qed.
End Setup.

(** ** The user source function of [rad_bondi] and the cooling kernel *)

Section RadSources.
Context {Real : Type} `{RealOps Real} `{PowOp Real}.
Variable ISMCoolFn : Real -> Real.
Local Open Scope real_scope.

Lemma rad_cooling_kernel_writes (pbh : RadBondi.pgen_bh Real)
    bdt gm1 rho_cgs v_cgs temp_unit cooling_rate_unit indcs size w :
  writes_own_cell (RadBondi.AddTabularCooling_kernel ISMCoolFn pbh bdt gm1 rho_cgs
                     v_cgs temp_unit cooling_rate_unit indcs size w).
Proof.
  intros m k j i u m' n' k' j' i' Hne. unfold RadBondi.AddTabularCooling_kernel.
  cbv zeta. now rewrite upd_other_cell by exact Hne.
Qed.

Lemma rad_cooling_kernel_reads (pbh : RadBondi.pgen_bh Real)
    bdt gm1 rho_cgs v_cgs temp_unit cooling_rate_unit indcs size w :
  reads_own_cell (RadBondi.AddTabularCooling_kernel ISMCoolFn pbh bdt gm1 rho_cgs
                    v_cgs temp_unit cooling_rate_unit indcs size w).
Proof.
  intros m k j i u v Huv n. unfold RadBondi.AddTabularCooling_kernel.
  at_own_cell. now rewrite !Huv.
Qed.

(** On a cell of the pack, [AddTabularCooling] lowers the energy by
    [cooling_rate_code * bdt], computed from [w0] and the parameters as the
    kernel does; it writes nothing else. *)
Lemma rad_AddTabularCooling_energy (pbh : RadBondi.pgen_bh Real) pm bdt u w m k j i :
  in_pack pm m k j i ->
  let gm1 := RadBondi.gamma_gas pbh - of_int 1 in
  let rho_cgs := RadBondi.mass_cgs pbh / pow (RadBondi.length_cgs pbh) lit_3_0 in
  let v_cgs := RadBondi.length_cgs pbh / RadBondi.time_cgs pbh in
  let temp_unit :=
    RadBondi.CONST_mu pbh * RadBondi.CONST_mp pbh / RadBondi.CONST_kB_cgs pbh in
  let cooling_rate_unit :=
    RadBondi.mass_cgs pbh
    / (RadBondi.length_cgs pbh * pow (RadBondi.time_cgs pbh) lit_3_0) in
  let dens_cgs := w m IDN k j i * rho_cgs in
  let pres_cgs := w m IEN k j i * gm1 * rho_cgs * SQR v_cgs in
  let temp_cgs := (pres_cgs / dens_cgs) * temp_unit in
  let n_cgs := dens_cgs / (RadBondi.CONST_mu pbh * RadBondi.CONST_mp pbh) in
  RadBondi.AddTabularCooling ISMCoolFn pbh pm bdt u w m IEN k j i
  = u m IEN k j i - (SQR n_cgs * ISMCoolFn temp_cgs) / cooling_rate_unit * bdt.
Proof.
  intros Hin. cbv zeta. unfold RadBondi.AddTabularCooling. cbv zeta.
  rewrite par_for_inside;
    [| apply rad_cooling_kernel_writes | apply rad_cooling_kernel_reads | exact Hin].
  unfold RadBondi.AddTabularCooling_kernel. at_own_cell. reflexivity.
Qed.

Lemma rad_AddTabularCooling_others (pbh : RadBondi.pgen_bh Real) pm bdt u w m n k j i :
  n <> IEN ->
  RadBondi.AddTabularCooling ISMCoolFn pbh pm bdt u w m n k j i = u m n k j i.
Proof.
  intros Hn. unfold RadBondi.AddTabularCooling. cbv zeta.
  apply (par_for_preserves (fun _ n _ _ _ => n <> IEN)); [|exact Hn].
  intros cm ck cj ci v m0 n0 k0 j0 i0 Hn0.
  unfold RadBondi.AddTabularCooling_kernel. cbv zeta.
  now rewrite upd_other_var by assumption.
Qed.

(** C6. The user source function of [rad_bondi] is [AddBHGrav] and nothing
    else: on a mesh with a hydro module it returns the mesh with [u0]
    replaced by the result of [AddBHGrav] (and has no result without one),
    whatever the substep and the state; it is the function a setup
    registers.  The cooling function [ISMCoolFn] is not among what it
    depends on. *)
Theorem rad_user_sources_are_gravity_alone
    (pbh : RadBondi.pgen_bh Real) (pm : Mesh Real) (bdt : Real) :
  RadBondi.AddUserSrcs pbh pm bdt
  = match phydro pm with
    | Some hyd =>
        Some (set_phydro pm
                (set_u0 hyd (RadBondi.AddBHGrav pbh pm bdt (u0 hyd) (w0 hyd))))
    | None => None
    end /\
  (forall hyd pm', phydro pm = Some hyd ->
     RadBondi.AddUserSrcs pbh pm bdt = Some pm' ->
     exists hyd', phydro pm' = Some hyd' /\ w0 hyd' = w0 hyd /\
       forall m n k j i,
         u0 hyd' m n k j i = RadBondi.AddBHGrav pbh pm bdt (u0 hyd) (w0 hyd) m n k j i) /\
  (forall pin restart pg pg',
     RadBondi.UserProblem pin restart pg = Ok pg' ->
     user_srcs_func pg' = Some RadBondi.AddUserSrcs).
Proof.
  split; [reflexivity|]. split.
  - intros hyd pm' Hhyd Hsrc. unfold RadBondi.AddUserSrcs in Hsrc.
    rewrite Hhyd in Hsrc. cbv zeta in Hsrc. inversion Hsrc; subst.
    eexists. cbn. repeat split.
  - intros pin restart pg pg' Hret.
    now apply rad_UserProblem_Ok in Hret as (Hf & _).
Qed.
End RadSources.

(** ** The kernels of [cylindrical_jet_2] *)

Section Jets.
Context {Real : Type} `{RealOps Real}.
Local Open Scope real_scope.

Lemma set_scalars_other_cell nfluid nscalars (scal : Real) m k j i u m' n' k' j' i' :
  (m', k', j', i') <> (m, k, j, i) ->
  CylindricalJet.set_scalars nfluid nscalars scal m k j i u m' n' k' j' i'
  = u m' n' k' j' i'.
Proof.
  intros Hne. unfold CylindricalJet.set_scalars.
  generalize (zrange nfluid (nfluid + nscalars - 1)) u.
  induction l as [|a l IH]; intros v; cbn [fold_left]; [reflexivity|].
  rewrite IH. now apply upd_other_cell.
Qed.

Lemma set_scalars_cell nfluid nscalars (scal : Real) m k j i u n :
  CylindricalJet.set_scalars nfluid nscalars scal m k j i u m n k j i
  = if (nfluid <=? n)%Z && (n <? nfluid + nscalars)%Z then scal else u m n k j i.
Proof.
  unfold CylindricalJet.set_scalars.
  assert (Hfold : forall l v,
    fold_left (fun u0 n0 => upd u0 m n0 k j i scal) l v m n k j i
    = if existsb (Z.eqb n) l then scal else v m n k j i).
  { induction l as [|a l IH]; intros v; cbn [fold_left existsb]; [reflexivity|].
    rewrite IH, upd_cell. rewrite (Z.eqb_sym n a).
    destruct (a =? n)%Z, (existsb (Z.eqb n) l); reflexivity. }
  rewrite Hfold.
  destruct (existsb (Z.eqb n) (zrange nfluid (nfluid + nscalars - 1))) eqn:E.
  - apply existsb_exists in E as [x [Hx Hnx]]. apply Z.eqb_eq in Hnx. subst x.
    apply In_zrange in Hx.
    replace ((nfluid <=? n)%Z && (n <? nfluid + nscalars)%Z) with true; [reflexivity|].
    symmetry. apply andb_true_iff. split; [apply Z.leb_le | apply Z.ltb_lt]; lia.
  - destruct ((nfluid <=? n)%Z && (n <? nfluid + nscalars)%Z) eqn:E'; [|reflexivity].
    apply andb_true_iff in E' as [E1 E2].
    apply Z.leb_le in E1. apply Z.ltb_lt in E2.
    assert (Hin : In n (zrange nfluid (nfluid + nscalars - 1)))
      by (apply In_zrange; lia).
    assert (Ht : existsb (Z.eqb n) (zrange nfluid (nfluid + nscalars - 1)) = true)
      by (apply existsb_exists; exists n; split; [exact Hin | apply Z.eqb_refl]).
    congruence.
Qed.

Lemma jet_AddJets_kernel_writes (pjet : CylindricalJet.pgen_jet_amb Real)
    gm1 nfluid nscalars indcs size :
  writes_own_cell (CylindricalJet.AddJets_kernel pjet gm1 nfluid nscalars indcs size).
Proof.
  intros m k j i u m' n' k' j' i' Hne. unfold CylindricalJet.AddJets_kernel.
  cbv zeta. destruct (CylindricalJet.InJet _ _ _ _ _); [|reflexivity].
  rewrite set_scalars_other_cell by exact Hne.
  now rewrite !upd_other_cell by exact Hne.
Qed.

Lemma jet_AddJets_kernel_reads (pjet : CylindricalJet.pgen_jet_amb Real)
    gm1 nfluid nscalars indcs size :
  reads_own_cell (CylindricalJet.AddJets_kernel pjet gm1 nfluid nscalars indcs size).
Proof.
  intros m k j i u v Huv n. unfold CylindricalJet.AddJets_kernel.
  cbv zeta. destruct (CylindricalJet.InJet _ _ _ _ _); [|apply Huv].
  rewrite !set_scalars_cell. at_own_cell. now rewrite !Huv.
Qed.

Lemma jet_UserProblem_kernel_writes (pjet : CylindricalJet.pgen_jet_amb Real)
    gm1 nfluid nscalars indcs size :
  writes_own_cell (CylindricalJet.UserProblem_kernel pjet gm1 nfluid nscalars indcs size).
Proof.
  intros m k j i u m' n' k' j' i' Hne. unfold CylindricalJet.UserProblem_kernel.
  cbv zeta. destruct (CylindricalJet.InJet _ _ _ _ _);
    rewrite set_scalars_other_cell by exact Hne;
    now rewrite !upd_other_cell by exact Hne.
Qed.

Lemma jet_UserProblem_kernel_reads (pjet : CylindricalJet.pgen_jet_amb Real)
    gm1 nfluid nscalars indcs size :
  reads_own_cell (CylindricalJet.UserProblem_kernel pjet gm1 nfluid nscalars indcs size).
Proof.
  intros m k j i u v Huv n. unfold CylindricalJet.UserProblem_kernel.
  cbv zeta. destruct (CylindricalJet.InJet _ _ _ _ _);
    rewrite !set_scalars_cell; at_own_cell; rewrite ?Huv; reflexivity.
Qed.

(** What [AddJets] leaves in a cell of the pack that lies in the jet region:
    the injection density, the momentum [(rho_jet * v_jet, 0, 0)] when
    [rad > 0] holds and zero otherwise, provided the scalar slots start
    after the momenta. *)
Lemma jet_AddJets_inside (pjet : CylindricalJet.pgen_jet_amb Real) pm bdt hyd u w m k j i :
  in_pack pm m k j i ->
  (IM3 < nhydro hyd)%Z ->
  CylindricalJet.InJet (cell_x1 pm m i) (cell_x2 pm m j) (cell_x3 pm m k)
                       (CylindricalJet.r_jet pjet) (CylindricalJet.h_jet pjet) = true ->
  let u' := CylindricalJet.AddJets pjet pm bdt hyd u w in
  let p1 := if of_int 0 <? cell_rad pm m k j i
            then CylindricalJet.rho_jet pjet * CylindricalJet.v_jet pjet
            else lit_0_0 in
  u' m IDN k j i = CylindricalJet.rho_jet pjet /\
  u' m IM1 k j i = p1 /\
  u' m IM2 k j i = lit_0_0 /\
  u' m IM3 k j i = lit_0_0.
Proof.
  intros Hin Hnh Hjet. cbv zeta. unfold CylindricalJet.AddJets. cbv zeta.
  rewrite !par_for_inside;
    try (apply jet_AddJets_kernel_writes || apply jet_AddJets_kernel_reads || exact Hin).
  unfold CylindricalJet.AddJets_kernel. cbv zeta.
  unfold cell_x1, cell_x2, cell_x3 in Hjet. rewrite Hjet.
  rewrite !set_scalars_cell.
  unfold IDN, IM1, IM2, IM3 in *.
  repeat match goal with
         | |- context [(nhydro hyd <=? ?c)%Z] =>
             replace (nhydro hyd <=? c)%Z with false
               by (symmetry; apply Z.leb_gt; lia)
         end.
  cbn [andb]. rewrite !upd_cell. cbn [Z.eqb Pos.eqb IEN].
  unfold cell_rad, cell_x1, cell_x2, cell_x3. repeat split; reflexivity.
Qed.

(** Outside the jet region, and outside the pack, [AddJets] writes nothing. *)
Lemma jet_AddJets_outside (pjet : CylindricalJet.pgen_jet_amb Real) pm bdt hyd u w m n k j i :
  CylindricalJet.InJet (cell_x1 pm m i) (cell_x2 pm m j) (cell_x3 pm m k)
                       (CylindricalJet.r_jet pjet) (CylindricalJet.h_jet pjet) = false ->
  CylindricalJet.AddJets pjet pm bdt hyd u w m n k j i = u m n k j i.
Proof.
  intros Hjet. unfold CylindricalJet.AddJets. cbv zeta.
  apply (par_for_preserves
           (fun m _ k j i =>
              CylindricalJet.InJet (cell_x1 pm m i) (cell_x2 pm m j) (cell_x3 pm m k)
                (CylindricalJet.r_jet pjet) (CylindricalJet.h_jet pjet) = false));
    [|exact Hjet].
  intros cm ck cj ci v m0 n0 k0 j0 i0 Hout.
  destruct (Z.eq_dec m0 cm) as [->|Hm];
    [destruct (Z.eq_dec k0 ck) as [->|Hk];
     [destruct (Z.eq_dec j0 cj) as [->|Hj];
      [destruct (Z.eq_dec i0 ci) as [->|Hi]|]|]|];
    try (apply jet_AddJets_kernel_writes; intros E; inversion E; contradiction).
  unfold CylindricalJet.AddJets_kernel. cbv zeta.
  unfold cell_x1, cell_x2, cell_x3 in Hout. now rewrite Hout.
Qed.
End Jets.

(** ** The comparisons of the real instance *)

Section RealComparisons.
Local Open Scope R_scope.

Lemma rleb_R (x y : R) : rleb x y = true <-> x <= y.
Proof. simpl. destruct (Rle_dec x y); split; intros; try discriminate; tauto. Qed.

Lemma rltb_R (x y : R) : rltb x y = true <-> x < y.
Proof. simpl. destruct (Rlt_dec x y); split; intros; try discriminate; tauto. Qed.

Lemma rltb_R_false (x y : R) : rltb x y = false <-> y <= x.
Proof.
  simpl. destruct (Rlt_dec x y); split; intros; try discriminate; try reflexivity; lra.
Qed.

(** Truncation drops the sign with the fraction: the magnitude of the
    integer part is the floor of the magnitude. *)
Lemma Rtrunc_abs (x : R) : Z.abs (Rtrunc x) = Zfloor (Rabs x).
Proof.
  unfold Rtrunc. destruct (Rle_dec 0 x) as [Hx|Hx].
  - rewrite Rabs_pos_eq by exact Hx.
    apply Z.abs_eq. apply (Zfloor_lub 0). exact Hx.
  - rewrite Rabs_left by lra. unfold Zceil.
    assert (0 <= Zfloor (- x))%Z by (apply (Zfloor_lub 0); simpl; lra).
    lia.
Qed.

(** Within the range of [int], [abs] of the converted argument is the floor
    of the magnitude. *)
Lemma R_to_int_abs (x : R) :
  Rabs x < 2147483648 -> int_abs (to_int x) = Zfloor (Rabs x).
Proof.
  intros Hx. cbn [to_int R_ops]. unfold R_to_int. cbv zeta.
  pose proof (Rtrunc_abs x) as Habs.
  pose proof (Zfloor_bound (Rabs x)) as [Hlo _].
  assert (Hf : (Zfloor (Rabs x) < 2147483648)%Z)
    by (apply lt_IZR; lra).
  assert (Hr : in_int_range (Rtrunc x) = true).
  { unfold in_int_range, INT_MIN, INT_MAX.
    change (2 ^ 31)%Z with 2147483648%Z.
    apply andb_true_iff. split; apply Z.leb_le; lia. }
  rewrite Hr. unfold int_abs, INT_MIN. change (2 ^ 31)%Z with 2147483648%Z.
  destruct (Rtrunc x =? _)%Z eqn:E; [apply Z.eqb_eq in E; lia | exact Habs].
Qed.

(** What [InJet] tests, for [x1] within the range of [int]: the radial
    condition, and the integer part of [|x1|] against [h_jet]. *)
Lemma InJet_R (x1v x2v x3v r_jet h_jet : R) :
  Rabs x1v < 2147483648 ->
  (CylindricalJet.InJet x1v x2v x3v r_jet h_jet = true <->
   x2v * x2v + x3v * x3v <= r_jet * r_jet /\ IZR (Zfloor (Rabs x1v)) <= h_jet).
Proof.
  intros Hx. unfold CylindricalJet.InJet. cbv zeta.
  rewrite (R_to_int_abs x1v Hx).
  rewrite andb_true_iff, !rleb_R. reflexivity.
Qed.

(** C8. The code does not keep the claim: [InJet] does not test
    [|x1| <= h_jet].  Its unqualified [abs] is the integer one, so it
    compares [h_jet] with the integer part of [|x1|].  At [x1 = 2.5] and
    [h_jet = 2], on the radial boundary [3^2 + 4^2 = 5^2], it answers true
    although [|x1| > h_jet]. *)
Theorem InJet_truncates_x1 :
  CylindricalJet.InJet 2.5 3 4 5 2 = true /\
  3 * 3 + 4 * 4 <= 5 * 5 /\
  ~ Rabs 2.5 <= 2.
Proof.
  split; [|split].
  - apply InJet_R.
    + rewrite Rabs_pos_eq; lra.
    + split; [lra|]. rewrite Rabs_pos_eq by lra.
      rewrite (Zfloor_eq 2 2.5); simpl; lra.
  - lra.
  - rewrite Rabs_pos_eq; lra.
Qed.
End RealComparisons.

(** The same predicate in binary64: on the boundary on either side of the
    origin, just outside the radius, and beyond the half-length by less
    than one and by more. *)
Module Binary64Runs.
Import PrimFloat.

Example InJet_binary64 :
  CylindricalJet.InJet 2%float 3%float 4%float 5%float 2%float = true /\
  CylindricalJet.InJet (-2)%float 3%float 4%float 5%float 2%float = true /\
  CylindricalJet.InJet 0%float 3%float 4.5%float 5%float 2%float = false /\
  CylindricalJet.InJet 2.5%float 3%float 4%float 5%float 2%float = true /\
  CylindricalJet.InJet (-2.5)%float 3%float 4%float 5%float 2%float = true /\
  CylindricalJet.InJet 3%float 3%float 4%float 5%float 2%float = false.
Proof. repeat split; vm_compute; reflexivity. Qed.
End Binary64Runs.

(** ** Jet injection over the reals *)

Section JetInjection.
Local Open Scope R_scope.

(** C3, as the code has it.  On a cell of the pack inside the jet region,
    [AddJets] overwrites the momentum with [(rho_jet * v_jet, 0, 0)], along
    the first axis whatever the position of the cell, when the radius of
    the cell is positive, and with the zero vector when the radius is
    zero.  The scalar slots are taken to start after the momenta. *)
Theorem AddJets_axial_momentum
    (pjet : CylindricalJet.pgen_jet_amb R) (pm : Mesh R) (bdt : R)
    (hyd : Hydro R) (u w : DvceArray5D R) (m k j i : Z) :
  in_pack pm m k j i ->
  (IM3 < nhydro hyd)%Z ->
  CylindricalJet.InJet (cell_x1 pm m i) (cell_x2 pm m j) (cell_x3 pm m k)
                       (CylindricalJet.r_jet pjet) (CylindricalJet.h_jet pjet) = true ->
  let u' := CylindricalJet.AddJets pjet pm bdt hyd u w in
  (0 < cell_rad pm m k j i ->
   u' m IM1 k j i = CylindricalJet.rho_jet pjet * CylindricalJet.v_jet pjet /\
   u' m IM2 k j i = 0 /\ u' m IM3 k j i = 0) /\
  (cell_rad pm m k j i = 0 ->
   u' m IM1 k j i = 0 /\ u' m IM2 k j i = 0 /\ u' m IM3 k j i = 0).
Proof.
  intros Hin Hnh Hjet. cbv zeta.
  destruct (jet_AddJets_inside pjet pm bdt hyd u w m k j i Hin Hnh Hjet)
    as (_ & H1 & H2 & H3).
  cbv zeta in H1. rewrite H1, H2, H3. split.
  - intros Hpos. apply rltb_R in Hpos. change (of_int 0) with 0. rewrite Hpos.
    repeat split.
  - intros Hzero.
    replace (of_int 0 <? cell_rad pm m k j i)%real with false; [repeat split|].
    symmetry. apply rltb_R_false. change (of_int 0) with 0. lra.
Qed.

Lemma two_cell_in_pack : in_pack two_cell_mesh 0 0 0 0.
Proof. unfold in_pack. simpl. lia. Qed.

Lemma two_cell_x1 : cell_x1 two_cell_mesh 0 0 = - 0.5.
Proof. unfold cell_x1, CellCenterX. simpl. lra. Qed.

Lemma two_cell_x2 : cell_x2 two_cell_mesh 0 0 = 0.5.
Proof. unfold cell_x2, CellCenterX. simpl. lra. Qed.

Lemma two_cell_x3 : cell_x3 two_cell_mesh 0 0 = 0.
Proof. unfold cell_x3, CellCenterX. simpl. lra. Qed.

Lemma two_cell_rad_pos : 0 < cell_rad two_cell_mesh 0 0 0 0.
Proof.
  unfold cell_rad. rewrite two_cell_x1, two_cell_x2, two_cell_x3.
  apply sqrt_lt_R0. unfold SQR. simpl. lra.
Qed.

Lemma two_cell_in_jet :
  CylindricalJet.InJet (cell_x1 two_cell_mesh 0 0) (cell_x2 two_cell_mesh 0 0)
    (cell_x3 two_cell_mesh 0 0)
    (CylindricalJet.r_jet unit_jet) (CylindricalJet.h_jet unit_jet) = true.
Proof.
  rewrite two_cell_x1, two_cell_x2, two_cell_x3.
  apply InJet_R; [rewrite Rabs_left; lra|]. simpl.
  split; [lra|]. rewrite Rabs_left by lra.
  rewrite (Zfloor_eq 0 (- - 0.5)); simpl; lra.
Qed.

Lemma AddJets_axial_momentum_witness :
  CylindricalJet.AddJets unit_jet two_cell_mesh 0.01 rest_hydro rest_gas rest_gas
    0%Z IM2 0%Z 0%Z 0%Z = 0.
Proof.
  refine (proj1 (proj2 (proj1
    (AddJets_axial_momentum unit_jet two_cell_mesh 0.01 rest_hydro rest_gas rest_gas
       0 0 0 0 two_cell_in_pack _ two_cell_in_jet) two_cell_rad_pos))).
  unfold IM3. simpl. lia.
Defined.

(** C3, as stated, fails.  The cell at [(-0.5, 0.5, 0)] lies in the jet
    region and has a positive radius, but the momentum [AddJets] leaves
    there is no positive multiple of the position: it is [(2/PI, 0, 0)],
    with no component along [x2] and a first component that points towards
    the plane [x1 = 0], not away from the origin. *)
Lemma AddJets_momentum_not_radial :
  let u' := CylindricalJet.AddJets unit_jet two_cell_mesh 0.01
              rest_hydro rest_gas rest_gas in
  let x1 := cell_x1 two_cell_mesh 0 0 in
  let x2 := cell_x2 two_cell_mesh 0 0 in
  let x3 := cell_x3 two_cell_mesh 0 0 in
  CylindricalJet.InJet x1 x2 x3 (CylindricalJet.r_jet unit_jet)
                       (CylindricalJet.h_jet unit_jet) = true /\
  0 < cell_rad two_cell_mesh 0 0 0 0 /\
  ~ (exists c : R, 0 < c /\
       u' 0%Z IM1 0%Z 0%Z 0%Z = c * x1 /\
       u' 0%Z IM2 0%Z 0%Z 0%Z = c * x2 /\
       u' 0%Z IM3 0%Z 0%Z 0%Z = c * x3) /\
  u' 0%Z IM1 0%Z 0%Z 0%Z * x1 + u' 0%Z IM2 0%Z 0%Z 0%Z * x2
  + u' 0%Z IM3 0%Z 0%Z 0%Z * x3 < 0.
Proof.
  cbv zeta.
  assert (Hnh : (IM3 < nhydro rest_hydro)%Z) by (unfold IM3; simpl; lia).
  destruct (jet_AddJets_inside unit_jet two_cell_mesh 0.01 rest_hydro rest_gas rest_gas
              0 0 0 0 two_cell_in_pack Hnh two_cell_in_jet) as (_ & H1 & H2 & H3).
  cbv zeta in H1.
  pose proof two_cell_rad_pos as Hpos. apply rltb_R in Hpos.
  change (of_int 0) with 0 in H1. rewrite Hpos in H1.
  rewrite H1, H2, H3, two_cell_x1, two_cell_x2, two_cell_x3.
  split; [|split; [|split]].
  - rewrite <- two_cell_x1, <- two_cell_x2, <- two_cell_x3. exact two_cell_in_jet.
  - exact two_cell_rad_pos.
  - intros [c (Hc & _ & Hc2 & _)]. unfold lit_0_0 in Hc2. simpl in Hc2. lra.
  - unfold lit_0_0. simpl. pose proof PI_RGT_0 as Hpi.
    assert (Hrho : 0 < 2 * 1 / (1 * 1 * 1 * (PI * 1 * 1)))
      by (apply Rdiv_lt_0_compat; lra).
    nra.
Qed.
End JetInjection.

(** ** The initial state of [rad_bondi] *)

Section RadInitial.
Context {Real : Type} `{RealOps Real} `{PowOp Real}.
Local Open Scope real_scope.

Lemma rad_UserProblem_kernel_writes (pbh : RadBondi.pgen_bh Real) gm1 indcs size :
  writes_own_cell (RadBondi.UserProblem_kernel pbh gm1 indcs size).
Proof.
  intros m k j i u m' n' k' j' i' Hne. unfold RadBondi.UserProblem_kernel.
  cbv zeta. destruct (_ <? _); now rewrite !upd_other_cell by exact Hne.
Qed.

Lemma rad_UserProblem_kernel_reads (pbh : RadBondi.pgen_bh Real) gm1 indcs size :
  reads_own_cell (RadBondi.UserProblem_kernel pbh gm1 indcs size).
Proof.
  intros m k j i u v Huv n. unfold RadBondi.UserProblem_kernel.
  cbv zeta. destruct (_ <? _); at_own_cell; now rewrite ?Huv.
Qed.

(** What a setup without restart leaves in a cell of the pack: the density
    of the profile at the cell's radius, zero momentum, and the energy
    [pres / gm1 + 0.5 * (0^2 + 0^2 + 0^2) / dens] with [pres] the polytropic
    pressure inside the virial radius and [rho_cgm * cs_cgm^2] outside. *)
Lemma rad_initial_cell (pin : ParameterInput Real)
    (pg pg' : ProblemGenerator Real (RadBondi.pgen_bh Real)) (hyd : Hydro Real)
    (m k j i : Z) :
  RadBondi.UserProblem pin false pg = Ok pg' ->
  phydro (pmy_mesh_ pg) = Some hyd ->
  in_pack (pmy_mesh_ pg) m k j i ->
  exists hyd',
    phydro (pmy_mesh_ pg') = Some hyd' /\
    let pbh := params pg' in
    let rad := cell_rad (pmy_mesh_ pg) m k j i in
    let gm1 := RadBondi.gamma_gas pbh - of_int 1 in
    let dens := rad_initial_density pbh rad in
    let pres := if rad <? RadBondi.r_vir pbh
                then RadBondi.CONST_K pbh * pow dens (RadBondi.gamma_gas pbh)
                else RadBondi.rho_cgm pbh * SQR (RadBondi.cs_cgm pbh) in
    u0 hyd' m IDN k j i = dens /\
    u0 hyd' m IM1 k j i = lit_0_0 /\
    u0 hyd' m IM2 k j i = lit_0_0 /\
    u0 hyd' m IM3 k j i = lit_0_0 /\
    u0 hyd' m IEN k j i
    = pres / gm1 + lit_0_5 * (SQR lit_0_0 + SQR lit_0_0 + SQR lit_0_0) / dens.
Proof.
  intros Hret Hhyd Hin.
  apply rad_UserProblem_Ok in Hret as (_ & _ & Hmesh).
  rewrite Hhyd in Hmesh. cbv zeta in Hmesh.
  eexists. split; [rewrite Hmesh; reflexivity|].
  cbv zeta. cbn [u0 set_u0].
  rewrite !par_for_inside;
    try (apply rad_UserProblem_kernel_writes
         || apply rad_UserProblem_kernel_reads || exact Hin).
  unfold RadBondi.UserProblem_kernel, rad_initial_density, cell_rad,
    cell_x1, cell_x2, cell_x3.
  cbv zeta. destruct (_ <? _); at_own_cell; repeat split; reflexivity.
Qed.
End RadInitial.

(** ** The [rad_bondi] profile and the cooling rate over the reals *)

(** Exposes the real operations behind the interface. *)
Ltac real_ops :=
  cbn [of_int lit_0_5 lit_1_5 M_PI radd rsub rmul rdiv rsqrt pow R_ops R_pow].

Section RadReal.
Local Open Scope R_scope.

Lemma Rpower_3 (x : R) : 0 < x -> Rpower x 3 = x ^ 3.
Proof.
  intros Hx. replace 3 with (INR 3) at 1 by (simpl; lra).
  now apply Rpower_pow.
Qed.

(** C7. On every cell of the pack and for positive unit factors,
    [AddTabularCooling] subtracts [(n_cgs^2 * Lambda(T_cgs) / cooling_rate_unit) * bdt]
    from the energy, with [n_cgs], [T_cgs] and [cooling_rate_unit] the
    expressions below in the primitive density and energy of the cell, the
    unit factors and [gamma - 1]; no other entry of the cell is written and
    the amount subtracted is the same whatever the conserved array. *)
Theorem cooling_energy_decrement
    (ISMCoolFn : R -> R) (pbh : RadBondi.pgen_bh R) (pm : Mesh R) (bdt : R)
    (u w : DvceArray5D R) (m k j i : Z) :
  in_pack pm m k j i ->
  0 < RadBondi.length_cgs pbh ->
  0 < RadBondi.time_cgs pbh ->
  let mass_cgs := RadBondi.mass_cgs pbh in
  let length_cgs := RadBondi.length_cgs pbh in
  let time_cgs := RadBondi.time_cgs pbh in
  let mu := RadBondi.CONST_mu pbh in
  let m_p := RadBondi.CONST_mp pbh in
  let k_B := RadBondi.CONST_kB_cgs pbh in
  let rho_cgs := w m IDN k j i * mass_cgs / length_cgs ^ 3 in
  let n_cgs := rho_cgs / (mu * m_p) in
  let p_cgs := w m IEN k j i * (RadBondi.gamma_gas pbh - 1)
               * (mass_cgs / length_cgs ^ 3) * (length_cgs / time_cgs) ^ 2 in
  let T_cgs := (p_cgs / rho_cgs) * mu * m_p / k_B in
  let cooling_rate_unit := mass_cgs / (length_cgs * time_cgs ^ 3) in
  let u' := RadBondi.AddTabularCooling ISMCoolFn pbh pm bdt u w in
  u' m IEN k j i
  = u m IEN k j i - (n_cgs ^ 2 * ISMCoolFn T_cgs / cooling_rate_unit) * bdt /\
  (forall n, n <> IEN -> u' m n k j i = u m n k j i) /\
  (forall v, RadBondi.AddTabularCooling ISMCoolFn pbh pm bdt v w m IEN k j i
             - v m IEN k j i
             = u' m IEN k j i - u m IEN k j i).
Proof.
  intros Hin Hlen Htime. cbv zeta. split; [|split].
  - rewrite (rad_AddTabularCooling_energy ISMCoolFn pbh pm bdt u w m k j i Hin).
    unfold SQR, lit_3_0. real_ops. rewrite !Rpower_3 by assumption.
    replace (w m IDN k j i * RadBondi.mass_cgs pbh / RadBondi.length_cgs pbh ^ 3)
      with (w m IDN k j i * (RadBondi.mass_cgs pbh / RadBondi.length_cgs pbh ^ 3))
      by (unfold Rdiv; ring).
    match goal with
    | |- _ - _ * ISMCoolFn ?a / _ * _ = _ - _ * ISMCoolFn ?b / _ * _ =>
        replace b with a by (unfold Rdiv; ring)
    end.
    unfold Rdiv. ring.
  - intros n Hn. apply rad_AddTabularCooling_others. exact Hn.
  - intros v.
    rewrite !(rad_AddTabularCooling_energy ISMCoolFn pbh pm bdt _ w m k j i Hin).
    real_ops. ring.
Qed.

Lemma cooling_energy_decrement_witness :
  RadBondi.AddTabularCooling (fun T => 1) unit_rad_bh one_cell_mesh 0.01
    rest_gas rest_gas 0%Z IDN 0%Z 0%Z 0%Z = rest_gas 0%Z IDN 0%Z 0%Z 0%Z.
Proof.
  refine (proj1 (proj2 (cooling_energy_decrement (fun T => 1) unit_rad_bh
                          one_cell_mesh 0.01 rest_gas rest_gas 0 0 0 0
                          one_cell_in_pack _ _)) IDN _).
  - simpl. lra.
  - simpl. lra.
  - unfold IDN, IEN. lia.
Defined.

(** Had the user source function called the cooling kernel, it would show:
    with a constant cooling function the energy of the unit cell drops. *)
Lemma cooling_would_change_energy :
  RadBondi.AddTabularCooling (fun T => 1) unit_rad_bh one_cell_mesh 0.01
    rest_gas rest_gas 0%Z IEN 0%Z 0%Z 0%Z = - 0.01.
Proof.
  rewrite (rad_AddTabularCooling_energy (fun T => 1) unit_rad_bh one_cell_mesh 0.01
             rest_gas rest_gas 0 0 0 0 one_cell_in_pack).
  unfold SQR, lit_3_0, rest_gas. real_ops. simpl. rewrite !Rpower_3 by lra.
  replace (1 ^ 3) with 1 by ring. replace (1 * 1) with 1 by ring.
  unfold Rdiv. rewrite !Rinv_1. lra.
Qed.
End RadReal.

Section RadProfile.
Local Open Scope R_scope.

(** [Rho_bondi] over the reals, for any power function: the signs of the
    potential and of its coefficient cancel. *)
Lemma Rho_bondi_R (P : PowOp R) (r eps G M K gam rho_vir r_vir : R) :
  RadBondi.Rho_bondi r eps G M K gam rho_vir r_vir
  = rho_vir
    + pow ((gam - 1) / (K * gam) * (G * M) / sqrt (r * r + eps * eps))
          (1 / (gam - 1))
    - pow ((gam - 1) / (K * gam) * (G * M) / sqrt (r_vir * r_vir + eps * eps))
          (1 / (gam - 1)).
Proof.
  unfold RadBondi.Rho_bondi, RadBondi.Phi_Bondi, SQR, lit_1_0.
  cbn [of_int lit_0_5 lit_1_5 M_PI radd rsub rmul rdiv rsqrt R_ops].
  f_equal; [f_equal|]; f_equal; unfold Rdiv; ring.
Qed.

(** C2. After a setup without restart that returns normally, a cell of the
    pack whose radius [r] is below the virial radius holds the density
    [rho_vir + [-(gam-1)/(K gam) Phi(r)]^(1/(gam-1))
             - [-(gam-1)/(K gam) Phi(r_vir)]^(1/(gam-1))]
    with [Phi(x) = - G M / sqrt (x^2 + eps^2)], zero momentum and the
    energy [K rho^gam / (gam - 1)].  The power is any function standing for
    [std::pow]. *)
Theorem rad_initial_state_inside (P : PowOp R) (pin : ParameterInput R)
    (pg pg' : ProblemGenerator R (RadBondi.pgen_bh R)) (hyd : Hydro R)
    (m k j i : Z) :
  RadBondi.UserProblem pin false pg = Ok pg' ->
  phydro (pmy_mesh_ pg) = Some hyd ->
  in_pack (pmy_mesh_ pg) m k j i ->
  let pbh := params pg' in
  let G := RadBondi.CONST_G pbh in
  let M := RadBondi.M_bh pbh in
  let eps := RadBondi.epsilon pbh in
  let K := RadBondi.CONST_K pbh in
  let gam := RadBondi.gamma_gas pbh in
  let r_vir := RadBondi.r_vir pbh in
  let r := cell_rad (pmy_mesh_ pg) m k j i in
  r < r_vir ->
  let Phi := fun x => - (G * M) / sqrt (x ^ 2 + eps ^ 2) in
  let rho := RadBondi.rho_vir pbh
             + pow (- (gam - 1) / (K * gam) * Phi r) (1 / (gam - 1))
             - pow (- (gam - 1) / (K * gam) * Phi r_vir) (1 / (gam - 1)) in
  exists hyd',
    phydro (pmy_mesh_ pg') = Some hyd' /\
    u0 hyd' m IDN k j i = rho /\
    u0 hyd' m IM1 k j i = 0 /\
    u0 hyd' m IM2 k j i = 0 /\
    u0 hyd' m IM3 k j i = 0 /\
    u0 hyd' m IEN k j i = K * pow rho gam / (gam - 1).
Proof.
  intros Hret Hhyd Hin. cbv zeta. intros Hr.
  destruct (rad_initial_cell pin pg pg' hyd m k j i Hret Hhyd Hin)
    as (hyd' & Hhyd' & Hd & H1 & H2 & H3 & He).
  exists hyd'. split; [exact Hhyd'|].
  cbv zeta in He. unfold rad_initial_density in Hd, He.
  apply rltb_R in Hr. rewrite Hr in Hd, He.
  rewrite Rho_bondi_R in Hd, He.
  assert (Hrho :
    RadBondi.rho_vir (params pg')
    + pow ((RadBondi.gamma_gas (params pg') - 1)
           / (RadBondi.CONST_K (params pg') * RadBondi.gamma_gas (params pg'))
           * (RadBondi.CONST_G (params pg') * RadBondi.M_bh (params pg'))
           / sqrt (cell_rad (pmy_mesh_ pg) m k j i * cell_rad (pmy_mesh_ pg) m k j i
                   + RadBondi.epsilon (params pg') * RadBondi.epsilon (params pg')))
          (1 / (RadBondi.gamma_gas (params pg') - 1))
    - pow ((RadBondi.gamma_gas (params pg') - 1)
           / (RadBondi.CONST_K (params pg') * RadBondi.gamma_gas (params pg'))
           * (RadBondi.CONST_G (params pg') * RadBondi.M_bh (params pg'))
           / sqrt (RadBondi.r_vir (params pg') * RadBondi.r_vir (params pg')
                   + RadBondi.epsilon (params pg') * RadBondi.epsilon (params pg')))
          (1 / (RadBondi.gamma_gas (params pg') - 1))
    = RadBondi.rho_vir (params pg')
      + pow (- (RadBondi.gamma_gas (params pg') - 1)
             / (RadBondi.CONST_K (params pg') * RadBondi.gamma_gas (params pg'))
             * (- (RadBondi.CONST_G (params pg') * RadBondi.M_bh (params pg'))
                / sqrt (cell_rad (pmy_mesh_ pg) m k j i ^ 2
                        + RadBondi.epsilon (params pg') ^ 2)))
            (1 / (RadBondi.gamma_gas (params pg') - 1))
      - pow (- (RadBondi.gamma_gas (params pg') - 1)
             / (RadBondi.CONST_K (params pg') * RadBondi.gamma_gas (params pg'))
             * (- (RadBondi.CONST_G (params pg') * RadBondi.M_bh (params pg'))
                / sqrt (RadBondi.r_vir (params pg') ^ 2
                        + RadBondi.epsilon (params pg') ^ 2)))
            (1 / (RadBondi.gamma_gas (params pg') - 1))).
  { replace (cell_rad (pmy_mesh_ pg) m k j i ^ 2)
      with (cell_rad (pmy_mesh_ pg) m k j i * cell_rad (pmy_mesh_ pg) m k j i) by ring.
    replace (RadBondi.r_vir (params pg') ^ 2)
      with (RadBondi.r_vir (params pg') * RadBondi.r_vir (params pg')) by ring.
    replace (RadBondi.epsilon (params pg') ^ 2)
      with (RadBondi.epsilon (params pg') * RadBondi.epsilon (params pg')) by ring.
    f_equal; [f_equal|]; f_equal; unfold Rdiv; ring. }
  rewrite Hrho in Hd, He. rewrite Hd, H1, H2, H3, He.
  repeat split; try reflexivity.
  unfold SQR, lit_0_0.
  cbn [of_int lit_0_5 lit_1_5 M_PI radd rsub rmul rdiv rsqrt R_ops].
  unfold Rdiv. ring.
Qed.

Lemma rad_pg1_returned : RadBondi.UserProblem unit_pin false rad_pg0 = Ok rad_pg1.
Proof. reflexivity. Qed.

Lemma rad_initial_state_inside_witness :
  exists hyd', phydro (pmy_mesh_ rad_pg1) = Some hyd' /\ u0 hyd' 0%Z IM1 0%Z 0%Z 0%Z = 0.
Proof.
  assert (Hr : cell_rad (pmy_mesh_ rad_pg0) 0 0 0 0 < RadBondi.r_vir (params rad_pg1)).
  { change (cell_rad one_cell_mesh 0 0 0 0 < 2). rewrite one_cell_rad. lra. }
  destruct (rad_initial_state_inside R_pow unit_pin rad_pg0 rad_pg1 rest_hydro 0 0 0 0
              eq_refl eq_refl one_cell_in_pack Hr)
    as (hyd' & Hhyd' & _ & H1 & _).
  exists hyd'. split; assumption.
Defined.

(** *** Monotonicity and the cut at the virial radius *)

Lemma softened_radius_pos (eps r : R) :
  eps <> 0 \/ r <> 0 -> 0 < r * r + eps * eps.
Proof. intros [He|Hr]; nra. Qed.

(** The base of the power, [c / sqrt (r^2 + eps^2)], is positive and does
    not increase with [r >= 0]. *)
Lemma potential_term_anti (c eps r1 r2 : R) :
  0 < c -> 0 <= r1 -> r1 <= r2 -> 0 < r1 * r1 + eps * eps ->
  0 < c / sqrt (r2 * r2 + eps * eps) <= c / sqrt (r1 * r1 + eps * eps).
Proof.
  intros Hc H1 H12 Hpos.
  assert (Hpos2 : 0 < r2 * r2 + eps * eps) by nra.
  assert (Hs1 : 0 < sqrt (r1 * r1 + eps * eps)) by now apply sqrt_lt_R0.
  assert (Hs2 : 0 < sqrt (r2 * r2 + eps * eps)) by now apply sqrt_lt_R0.
  assert (Hs12 : sqrt (r1 * r1 + eps * eps) <= sqrt (r2 * r2 + eps * eps))
    by (apply sqrt_le_1; nra).
  split.
  - now apply Rdiv_lt_0_compat.
  - unfold Rdiv. apply Rmult_le_compat_l; [lra|].
    now apply Rinv_le_contravar.
Qed.

Lemma polytropic_coefficient_pos (G M K gam : R) :
  1 < gam -> 0 < K -> 0 < G * M -> 0 < (gam - 1) / (K * gam) * (G * M).
Proof.
  intros Hg HK HGM. apply Rmult_lt_0_compat; [|exact HGM].
  apply Rdiv_lt_0_compat; [lra | nra].
Qed.

Lemma Rho_bondi_anti (r1 r2 eps G M K gam rho_vir r_vir : R) :
  1 < gam -> 0 < K -> 0 < G * M ->
  0 <= r1 -> r1 <= r2 -> 0 < r1 * r1 + eps * eps ->
  RadBondi.Rho_bondi r2 eps G M K gam rho_vir r_vir
  <= RadBondi.Rho_bondi r1 eps G M K gam rho_vir r_vir.
Proof.
  intros Hg HK HGM H1 H12 Hpos. rewrite !Rho_bondi_R.
  cbn [pow R_pow].
  pose proof (polytropic_coefficient_pos G M K gam Hg HK HGM) as Hc.
  pose proof (potential_term_anti _ eps r1 r2 Hc H1 H12 Hpos) as [Hlo Hle].
  assert (Hexp : 0 <= 1 / (gam - 1)).
  { apply Rlt_le. apply Rdiv_lt_0_compat; lra. }
  pose proof (Rle_Rpower_l _ _ _ Hexp (conj Hlo Hle)) as Hpow.
  lra.
Qed.

Lemma Rho_bondi_at_r_vir (P : PowOp R) (eps G M K gam rho_vir r_vir : R) :
  RadBondi.Rho_bondi r_vir eps G M K gam rho_vir r_vir = rho_vir.
Proof. rewrite Rho_bondi_R. ring. Qed.

Lemma Rho_bondi_continuous (eps G M K gam rho_vir r_vir x0 : R) :
  1 < gam -> 0 < K -> 0 < G * M -> 0 < x0 * x0 + eps * eps ->
  continuity_pt (fun r => RadBondi.Rho_bondi r eps G M K gam rho_vir r_vir) x0.
Proof.
  intros Hg HK HGM Hpos.
  pose proof (polytropic_coefficient_pos G M K gam Hg HK HGM) as Hc.
  assert (Hs : 0 < sqrt (x0 * x0 + eps * eps)) by now apply sqrt_lt_R0.
  apply (continuity_pt_locally_ext
           (fun r => rho_vir
                     + Rpower ((gam - 1) / (K * gam) * (G * M)
                               / sqrt (r * r + eps * eps)) (1 / (gam - 1))
                     - Rpower ((gam - 1) / (K * gam) * (G * M)
                               / sqrt (r_vir * r_vir + eps * eps)) (1 / (gam - 1)))
           _ 1 x0 Rlt_0_1).
  - intros y _. now rewrite Rho_bondi_R.
  - apply derivable_continuous_pt. unfold Rpower. reg.
    + lra.
    + exists (/ ((gam - 1) / (K * gam) * (G * M) / sqrt (x0 * x0 + eps * eps))).
      apply derivable_pt_lim_ln. now apply Rdiv_lt_0_compat.
Qed.

(** A function that follows a continuous [f] to the left of [x0] and is
    constant from [x0] on jumps at [x0] unless the constant is [f x0]. *)
Lemma cut_not_continuous (f : R -> R) (c x0 : R) :
  continuity_pt f x0 -> f x0 <> c ->
  ~ continuity_pt (fun x => if Rlt_dec x x0 then f x else c) x0.
Proof.
  intros Hf Hne Hcut.
  set (e := Rabs (f x0 - c) / 2).
  assert (He : 0 < e).
  { unfold e. apply Rdiv_lt_0_compat; [|lra]. apply Rabs_pos_lt. lra. }
  destruct (Hf e He) as (a1 & Ha1 & Hf1).
  destruct (Hcut e He) as (a2 & Ha2 & Hc2).
  set (x := x0 - Rmin a1 a2 / 2).
  assert (Hmin : 0 < Rmin a1 a2) by (apply Rmin_pos; lra).
  assert (Hmin1 : Rmin a1 a2 <= a1) by apply Rmin_l.
  assert (Hmin2 : Rmin a1 a2 <= a2) by apply Rmin_r.
  assert (Hx : x < x0) by (unfold x; lra).
  assert (Hdist : forall a, Rmin a1 a2 <= a -> Rdist x x0 < a).
  { intros a Ha. unfold Rdist, x. rewrite Rabs_left; lra. }
  assert (HD : D_x no_cond x0 x) by (split; [exact I | lra]).
  specialize (Hf1 x (conj HD (Hdist a1 Hmin1))).
  specialize (Hc2 x (conj HD (Hdist a2 Hmin2))).
  cbn [dist R_met Base] in Hf1, Hc2. unfold Rdist in Hf1, Hc2.
  destruct (Rlt_dec x x0) as [_|]; [|contradiction].
  destruct (Rlt_dec x0 x0) as [Habs|_]; [lra|].
  assert (Htri : Rabs (f x0 - c) <= Rabs (f x - f x0) + Rabs (f x - c)).
  { replace (f x0 - c) with (- (f x - f x0) + (f x - c)) by ring.
    eapply Rle_trans; [apply Rabs_triang|]. rewrite Rabs_Ropp. lra. }
  unfold e in *. lra.
Qed.

(** C5. For [gamma > 1], [K > 0] and [G M > 0], the density the setup of
    [rad_bondi] writes, as a function of the radius, does not increase with
    the radius inside the virial radius (wherever [r^2 + eps^2] is not
    zero), is the ambient density [rho_cgm] at and beyond the virial radius,
    and is cut there: it is not continuous at [r_vir] unless [rho_vir] and
    [rho_cgm] coincide.  Every cell of the pack receives the value of this
    function at its radius. *)
Theorem rad_density_profile (pbh : RadBondi.pgen_bh R) :
  1 < RadBondi.gamma_gas pbh ->
  0 < RadBondi.CONST_K pbh ->
  0 < RadBondi.CONST_G pbh * RadBondi.M_bh pbh ->
  (forall r1 r2,
     0 <= r1 -> r1 <= r2 -> r2 < RadBondi.r_vir pbh ->
     RadBondi.epsilon pbh <> 0 \/ 0 < r1 ->
     rad_initial_density pbh r2 <= rad_initial_density pbh r1) /\
  (forall r, RadBondi.r_vir pbh <= r ->
     rad_initial_density pbh r = RadBondi.rho_cgm pbh) /\
  (RadBondi.epsilon pbh <> 0 \/ RadBondi.r_vir pbh <> 0 ->
   RadBondi.rho_vir pbh <> RadBondi.rho_cgm pbh ->
   ~ continuity_pt (rad_initial_density pbh) (RadBondi.r_vir pbh)) /\
  (forall pin pg pg' hyd m k j i,
     RadBondi.UserProblem pin false pg = Ok pg' ->
     params pg' = pbh ->
     phydro (pmy_mesh_ pg) = Some hyd ->
     in_pack (pmy_mesh_ pg) m k j i ->
     exists hyd',
       phydro (pmy_mesh_ pg') = Some hyd' /\
       u0 hyd' m IDN k j i
       = rad_initial_density pbh (cell_rad (pmy_mesh_ pg) m k j i)).
Proof.
  intros Hg HK HGM. split; [|split; [|split]].
  - intros r1 r2 H1 H12 H2 Hsoft. unfold rad_initial_density.
    assert (Hr1 : (r1 <? RadBondi.r_vir pbh)%real = true) by (apply rltb_R; lra).
    assert (Hr2 : (r2 <? RadBondi.r_vir pbh)%real = true) by (apply rltb_R; lra).
    rewrite Hr1, Hr2. apply Rho_bondi_anti; try assumption.
    apply softened_radius_pos. destruct Hsoft; [now left | right; lra].
  - intros r Hr. unfold rad_initial_density.
    replace (r <? RadBondi.r_vir pbh)%real with false; [reflexivity|].
    symmetry. now apply rltb_R_false.
  - intros Hsoft Hne Hcont.
    apply (cut_not_continuous
             (fun r => RadBondi.Rho_bondi r (RadBondi.epsilon pbh) (RadBondi.CONST_G pbh)
                         (RadBondi.M_bh pbh) (RadBondi.CONST_K pbh)
                         (RadBondi.gamma_gas pbh) (RadBondi.rho_vir pbh)
                         (RadBondi.r_vir pbh))
             (RadBondi.rho_cgm pbh) (RadBondi.r_vir pbh)).
    + apply Rho_bondi_continuous; try assumption.
      now apply softened_radius_pos.
    + now rewrite Rho_bondi_at_r_vir.
    + apply (continuity_pt_locally_ext (rad_initial_density pbh) _ 1 _ Rlt_0_1);
        [|exact Hcont].
      intros y _. unfold rad_initial_density. cbn [rltb R_ops].
      destruct (Rlt_dec y (RadBondi.r_vir pbh)); reflexivity.
  - intros pin pg pg' hyd m k j i Hret Hpar Hhyd Hin.
    destruct (rad_initial_cell pin pg pg' hyd m k j i Hret Hhyd Hin)
      as (hyd' & Hhyd' & Hd & _).
    exists hyd'. split; [exact Hhyd'|]. cbv zeta in Hd. now rewrite Hpar in Hd.
Qed.

Lemma rad_density_profile_witness :
  rad_initial_density unit_rad_bh 1.5 <= rad_initial_density unit_rad_bh 1 /\
  rad_initial_density unit_rad_bh 2 = 0.5 /\
  ~ continuity_pt (rad_initial_density unit_rad_bh) 2.
Proof.
  assert (Hg : 1 < RadBondi.gamma_gas unit_rad_bh) by (simpl; lra).
  assert (HK : 0 < RadBondi.CONST_K unit_rad_bh) by (simpl; lra).
  assert (HGM : 0 < RadBondi.CONST_G unit_rad_bh * RadBondi.M_bh unit_rad_bh)
    by (simpl; lra).
  destruct (rad_density_profile unit_rad_bh Hg HK HGM) as (Hmono & Hout & Hcut & _).
  split; [|split].
  - apply Hmono; simpl; lra.
  - apply (Hout 2). simpl. lra.
  - apply Hcut; simpl; lra.
Defined.
End RadProfile.

(** ** Witnesses of the setup facts *)

Lemma restart_leaves_state_witness :
  pmy_mesh_ jet_pg_restarted = pmy_mesh_ jet_pg0 /\
  pmy_mesh_ rad_pg_restarted = pmy_mesh_ rad_pg0 /\
  pmy_mesh_ bondi_pg_restarted = pmy_mesh_ bondi_pg0.
Proof.
  destruct (restart_leaves_state unit_pin jet_pg0 jet_pg_restarted
              unit_pin rad_pg0 rad_pg_restarted
              unit_pin bondi_pg0 bondi_pg_restarted) as (Hj & Hr & Hb).
  split; [|split].
  - apply Hj. reflexivity.
  - apply Hr. reflexivity.
  - apply Hb. reflexivity.
Defined.

Lemma rad_user_sources_are_gravity_alone_witness :
  user_srcs_func rad_pg1 = Some RadBondi.AddUserSrcs.
Proof.
  apply (proj2 (proj2 (rad_user_sources_are_gravity_alone
                         unit_rad_bh one_cell_mesh 0.01%R))
           unit_pin false rad_pg0 rad_pg1).
  reflexivity.
Defined.

(** ** The jet kernels run in binary64 *)

Module Binary64JetRuns.
Import PrimFloat.
Import Binary64Fixtures.
Local Open Scope Z_scope.

(** The first cell of the block sits at [(-0.5, 0.5, 0)], inside the jet
    region. *)
Example first_cell_position :
  cell_x1 two_cell_mesh64 0 0 = (-0.5)%float /\
  cell_x2 two_cell_mesh64 0 0 = 0.5%float /\
  cell_x3 two_cell_mesh64 0 0 = 0%float /\
  CylindricalJet.InJet (cell_x1 two_cell_mesh64 0 0) (cell_x2 two_cell_mesh64 0 0)
    (cell_x3 two_cell_mesh64 0 0) 1%float 1%float = true.
Proof. repeat split; vm_compute; reflexivity. Qed.

(** The setup derives [rho_jet = 2 / pi] and fills the cell with the jet
    state: momentum along the first axis only, and the scalar slot set. *)
Example setup_fills_first_cell :
  CylindricalJet.rho_jet (params jet_pg64_set_up) = 0x1.45f306dc9c883p-1%float /\
  conserved64 (pmy_mesh_ jet_pg64_set_up) 0 IDN 0 0 0 = 0x1.45f306dc9c883p-1%float /\
  conserved64 (pmy_mesh_ jet_pg64_set_up) 0 IM1 0 0 0 = 0x1.45f306dc9c883p-1%float /\
  conserved64 (pmy_mesh_ jet_pg64_set_up) 0 IM2 0 0 0 = 0%float /\
  conserved64 (pmy_mesh_ jet_pg64_set_up) 0 IM3 0 0 0 = 0%float /\
  conserved64 (pmy_mesh_ jet_pg64_set_up) 0 5 0 0 0 = 1%float.
Proof. repeat split; vm_compute; reflexivity. Qed.

(** One call of the registered source function pins the same momentum
    again; its product with the position of the cell is negative. *)
Example injection_on_first_cell :
  conserved64 jet_mesh64_injected 0 IM1 0 0 0 = 0x1.45f306dc9c883p-1%float /\
  conserved64 jet_mesh64_injected 0 IM2 0 0 0 = 0%float /\
  conserved64 jet_mesh64_injected 0 IM3 0 0 0 = 0%float /\
  ltb (conserved64 jet_mesh64_injected 0%Z IM1 0%Z 0%Z 0%Z * cell_x1 two_cell_mesh64 0 0
       + conserved64 jet_mesh64_injected 0%Z IM2 0%Z 0%Z 0%Z * cell_x2 two_cell_mesh64 0 0
       + conserved64 jet_mesh64_injected 0%Z IM3 0%Z 0%Z 0%Z * cell_x3 two_cell_mesh64 0 0)%float
      0%float = true.
Proof. repeat split; vm_compute; reflexivity. Qed.
End Binary64JetRuns.

(* ================================================================== *)
(** * Part III: further properties of the three problem generators *)
(* ================================================================== *)

(** ** Setup: missing keys and the parameters read *)

(** Follows a setup along its parameter reads: a read of an absent key
    throws, a read of a present one goes on. *)
Ltac follow_reads pin :=
  repeat match goal with
         | |- context [pin ?b ?n] =>
             destruct (pin b n) eqn:?; cbn [bind find fst snd];
             [|reflexivity]
         end.

Section SetupKeys.
Context {Real : Type} `{RealOps Real} `{PowOp Real}.
Local Open Scope string_scope.

(** X1. The setup of [rad_bondi] throws on the first of its sixteen keys
    that the input lacks, in reading order and whatever the restart flag;
    when none is missing it returns, and the parameter struct holds the
    values stored under those keys, [gamma_gas] being ["hydro"/"gamma"]. *)
Theorem rad_setup_reads_or_throws (pin : ParameterInput Real) (restart : bool)
    (pg : ProblemGenerator Real (RadBondi.pgen_bh Real)) :
  match first_missing pin rad_required_keys with
  | Some (block, name) => RadBondi.UserProblem pin restart pg = Throw block name
  | None =>
      exists pg',
        RadBondi.UserProblem pin restart pg = Ok pg' /\
        pin "problem" "CONST_G" = Some (RadBondi.CONST_G (params pg')) /\
        pin "problem" "CONST_K" = Some (RadBondi.CONST_K (params pg')) /\
        pin "problem" "CONST_kB_cgs" = Some (RadBondi.CONST_kB_cgs (params pg')) /\
        pin "problem" "CONST_mp" = Some (RadBondi.CONST_mp (params pg')) /\
        pin "problem" "CONST_mu" = Some (RadBondi.CONST_mu (params pg')) /\
        pin "problem" "r_vir" = Some (RadBondi.r_vir (params pg')) /\
        pin "problem" "rho_vir" = Some (RadBondi.rho_vir (params pg')) /\
        pin "problem" "M_bh" = Some (RadBondi.M_bh (params pg')) /\
        pin "problem" "v_bh" = Some (RadBondi.v_bh (params pg')) /\
        pin "problem" "rho_cgm" = Some (RadBondi.rho_cgm (params pg')) /\
        pin "problem" "cs_cgm" = Some (RadBondi.cs_cgm (params pg')) /\
        pin "problem" "epsilon" = Some (RadBondi.epsilon (params pg')) /\
        pin "hydro" "gamma" = Some (RadBondi.gamma_gas (params pg')) /\
        pin "units" "length_cgs" = Some (RadBondi.length_cgs (params pg')) /\
        pin "units" "mass_cgs" = Some (RadBondi.mass_cgs (params pg')) /\
        pin "units" "time_cgs" = Some (RadBondi.time_cgs (params pg'))
  end.
Proof.
  unfold first_missing, rad_required_keys, RadBondi.UserProblem, GetReal.
  cbv zeta. cbn [find fst snd].
  follow_reads pin.
  destruct restart; [|destruct (phydro (pmy_mesh_ pg))];
    eexists; (split; [reflexivity|]); cbn [params RadBondi.CONST_G
      RadBondi.CONST_K RadBondi.CONST_kB_cgs RadBondi.CONST_mp RadBondi.CONST_mu
      RadBondi.r_vir RadBondi.rho_vir RadBondi.M_bh RadBondi.v_bh RadBondi.rho_cgm
      RadBondi.cs_cgm RadBondi.epsilon RadBondi.gamma_gas RadBondi.length_cgs
      RadBondi.mass_cgs RadBondi.time_cgs]; repeat split; assumption.
Qed.

(** X2. The setup of [bondi] throws on the first of its six keys that the
    input lacks, in reading order and whatever the restart flag; otherwise
    it returns with the parameter struct holding the stored values. *)
Theorem bondi_setup_reads_or_throws (pin : ParameterInput Real) (restart : bool)
    (pg : ProblemGenerator Real (Bondi.pgen_bh Real)) :
  match first_missing pin bondi_required_keys with
  | Some (block, name) => Bondi.UserProblem pin restart pg = Throw block name
  | None =>
      exists pg',
        Bondi.UserProblem pin restart pg = Ok pg' /\
        pin "problem" "cs_amb" = Some (Bondi.cs_amb (params pg')) /\
        pin "problem" "d_amb" = Some (Bondi.d_amb (params pg')) /\
        pin "problem" "M_bh" = Some (Bondi.M_bh (params pg')) /\
        pin "problem" "epsilon" = Some (Bondi.epsilon (params pg')) /\
        pin "hydro" "gamma" = Some (Bondi.gamma (params pg')) /\
        pin "problem" "CONST_G" = Some (Bondi.CONST_G (params pg'))
  end.
Proof.
  unfold first_missing, bondi_required_keys, Bondi.UserProblem, GetReal.
  cbv zeta. cbn [find fst snd].
  follow_reads pin.
  destruct restart; [|destruct (phydro (pmy_mesh_ pg))];
    eexists; (split; [reflexivity|]); cbn [params Bondi.cs_amb Bondi.d_amb
      Bondi.M_bh Bondi.epsilon Bondi.gamma Bondi.CONST_G];
    repeat split; assumption.
Qed.

(** X3. The setup of [cylindrical_jet_2] throws on the first of its six
    required keys that the input lacks; ["problem"/"d_amb"] is optional and
    defaults to 1.  When it returns, the parameter struct holds the stored
    values and the jet density [2 l_jet / (v_jet^3 (M_PI r_jet^2))] derived
    from them. *)
Theorem jet_setup_reads_or_throws (pin : ParameterInput Real) (restart : bool)
    (pg : ProblemGenerator Real (CylindricalJet.pgen_jet_amb Real)) :
  match first_missing pin jet_required_keys with
  | Some (block, name) => CylindricalJet.UserProblem pin restart pg = Throw block name
  | None =>
      exists pg',
        CylindricalJet.UserProblem pin restart pg = Ok pg' /\
        pin "hydro" "gamma" = Some (CylindricalJet.gamma (params pg')) /\
        pin "problem" "cs_amb" = Some (CylindricalJet.cs_amb (params pg')) /\
        CylindricalJet.d_amb (params pg')
        = match pin "problem" "d_amb" with
          | Some d => d
          | None => of_int 1
          end /\
        pin "problem" "l_jet" = Some (CylindricalJet.l_jet (params pg')) /\
        pin "problem" "r_jet" = Some (CylindricalJet.r_jet (params pg')) /\
        pin "problem" "h_jet" = Some (CylindricalJet.h_jet (params pg')) /\
        pin "problem" "v_jet" = Some (CylindricalJet.v_jet (params pg')) /\
        CylindricalJet.rho_jet (params pg')
        = (of_int 2 * CylindricalJet.l_jet (params pg')
           / (CylindricalJet.v_jet (params pg') * CylindricalJet.v_jet (params pg')
              * CylindricalJet.v_jet (params pg')
              * (M_PI * CylindricalJet.r_jet (params pg')
                 * CylindricalJet.r_jet (params pg'))))%real
  end.
Proof.
  unfold first_missing, jet_required_keys, CylindricalJet.UserProblem,
    GetReal, GetOrAddReal.
  cbv zeta. cbn [find fst snd].
  destruct (pin "problem" "d_amb") eqn:Hd;
    follow_reads pin;
    (destruct restart; [|destruct (phydro (pmy_mesh_ pg))]);
    eexists; (split; [reflexivity|]);
    cbn [params CylindricalJet.cs_amb CylindricalJet.d_amb CylindricalJet.rho_jet
         CylindricalJet.gamma CylindricalJet.r_jet CylindricalJet.h_jet
         CylindricalJet.l_jet CylindricalJet.v_jet];
    repeat split; assumption.
Qed.
End SetupKeys.

(** ** Setup: what is written and what is kept *)

Lemma range_dec (ml mu kl ku jl ju il iu m k j i : Z) :
  {ml <= m <= mu /\ kl <= k <= ku /\ jl <= j <= ju /\ il <= i <= iu}
  + {~ (ml <= m <= mu /\ kl <= k <= ku /\ jl <= j <= ju /\ il <= i <= iu)}.
Proof.
  destruct (Z_le_dec ml m), (Z_le_dec m mu), (Z_le_dec kl k), (Z_le_dec k ku),
    (Z_le_dec jl j), (Z_le_dec j ju), (Z_le_dec il i), (Z_le_dec i iu);
    try (left; lia); right; lia.
Qed.

Section LoopAlgebra.
Context {Real : Type}.
Implicit Types u v : DvceArray5D Real.

(** A loop whose body, run twice on a cell, leaves what one run leaves, is
    itself idempotent. *)
Lemma par_for_idempotent
    (body : Z -> Z -> Z -> Z -> DvceArray5D Real -> DvceArray5D Real)
    (ml mu kl ku jl ju il iu : Z) u :
  writes_own_cell body -> reads_own_cell body ->
  (forall m k j i v n,
      body m k j i (body m k j i v) m n k j i = body m k j i v m n k j i) ->
  forall m n k j i,
    par_for ml mu kl ku jl ju il iu body (par_for ml mu kl ku jl ju il iu body u)
            m n k j i
    = par_for ml mu kl ku jl ju il iu body u m n k j i.
Proof.
  intros Hw Hr Hidem m n k j i.
  destruct (range_dec ml mu kl ku jl ju il iu m k j i) as [Hin|Hout].
  - rewrite (par_for_inside body ml mu kl ku jl ju il iu _ m n k j i Hw Hr Hin).
    rewrite (par_for_inside body ml mu kl ku jl ju il iu u m n k j i Hw Hr Hin).
    rewrite <- (Hidem m k j i u n). apply Hr. intros n0.
    now apply par_for_inside.
  - now rewrite !(par_for_outside body ml mu kl ku jl ju il iu _ m n k j i Hw Hr Hout).
Qed.

(** Two loops whose bodies touch disjoint variables of a cell, each reading
    nothing the other writes, commute. *)
Lemma par_for_agree
    (body body' : Z -> Z -> Z -> Z -> DvceArray5D Real -> DvceArray5D Real)
    (ml mu kl ku jl ju il iu : Z) u u' :
  writes_own_cell body -> reads_own_cell body ->
  writes_own_cell body' -> reads_own_cell body' ->
  (forall m k j i n,
      (ml <= m <= mu /\ kl <= k <= ku /\ jl <= j <= ju /\ il <= i <= iu) ->
      body m k j i u m n k j i = body' m k j i u' m n k j i) ->
  (forall m n k j i,
      ~ (ml <= m <= mu /\ kl <= k <= ku /\ jl <= j <= ju /\ il <= i <= iu) ->
      u m n k j i = u' m n k j i) ->
  forall m n k j i,
    par_for ml mu kl ku jl ju il iu body u m n k j i
    = par_for ml mu kl ku jl ju il iu body' u' m n k j i.
Proof.
  intros Hw Hr Hw' Hr' Hin_eq Hout_eq m n k j i.
  destruct (range_dec ml mu kl ku jl ju il iu m k j i) as [Hin|Hout].
  - rewrite (par_for_inside body ml mu kl ku jl ju il iu u m n k j i Hw Hr Hin).
    rewrite (par_for_inside body' ml mu kl ku jl ju il iu u' m n k j i Hw' Hr' Hin).
    now apply Hin_eq.
  - rewrite (par_for_outside body ml mu kl ku jl ju il iu u m n k j i Hw Hr Hout).
    rewrite (par_for_outside body' ml mu kl ku jl ju il iu u' m n k j i Hw' Hr' Hout).
    now apply Hout_eq.
Qed.
End LoopAlgebra.

(** Evaluates an entry of a kernel's result at a variable known to differ
    from those the kernel writes. *)
Ltac at_other_slot :=
  cbv zeta; rewrite ?upd_cell;
  repeat match goal with
         | Hn : ?n <> ?c |- context [(?c =? ?n)%Z] =>
             replace (c =? n)%Z with false
               by (symmetry; apply Z.eqb_neq; congruence)
         end.

(** Splits on which of the five hydro variables an index is, if any. *)
Ltac hydro_slot n :=
  destruct (Z.eq_dec n IDN) as [->|?];
  [|destruct (Z.eq_dec n IM1) as [->|?];
    [|destruct (Z.eq_dec n IM2) as [->|?];
      [|destruct (Z.eq_dec n IM3) as [->|?];
        [|destruct (Z.eq_dec n IEN) as [->|?]]]]].

Section SetupKernels.
Context {Real : Type} `{RealOps Real} `{PowOp Real}.
Local Open Scope real_scope.

Lemma bondi_UserProblem_kernel_writes (pbh : Bondi.pgen_bh Real) gm1 indcs size :
  writes_own_cell (Bondi.UserProblem_kernel pbh gm1 indcs size).
Proof.
  intros m k j i u m' n' k' j' i' Hne. unfold Bondi.UserProblem_kernel.
  cbv zeta. now rewrite !upd_other_cell by exact Hne.
Qed.

Lemma bondi_UserProblem_kernel_reads (pbh : Bondi.pgen_bh Real) gm1 indcs size :
  reads_own_cell (Bondi.UserProblem_kernel pbh gm1 indcs size).
Proof.
  intros m k j i u v Huv n. unfold Bondi.UserProblem_kernel.
  at_own_cell. now rewrite ?Huv.
Qed.

Lemma rad_UserProblem_kernel_idem (pbh : RadBondi.pgen_bh Real) gm1 indcs size
    m k j i (u : DvceArray5D Real) n :
  RadBondi.UserProblem_kernel pbh gm1 indcs size m k j i
    (RadBondi.UserProblem_kernel pbh gm1 indcs size m k j i u) m n k j i
  = RadBondi.UserProblem_kernel pbh gm1 indcs size m k j i u m n k j i.
Proof.
  unfold RadBondi.UserProblem_kernel. cbv zeta.
  destruct (_ <? _); hydro_slot n; try (at_own_cell; reflexivity);
    at_other_slot; reflexivity.
Qed.

Lemma bondi_UserProblem_kernel_idem (pbh : Bondi.pgen_bh Real) gm1 indcs size
    m k j i (u : DvceArray5D Real) n :
  Bondi.UserProblem_kernel pbh gm1 indcs size m k j i
    (Bondi.UserProblem_kernel pbh gm1 indcs size m k j i u) m n k j i
  = Bondi.UserProblem_kernel pbh gm1 indcs size m k j i u m n k j i.
Proof.
  unfold Bondi.UserProblem_kernel. cbv zeta.
  hydro_slot n; try (at_own_cell; reflexivity);
    at_other_slot; reflexivity.
Qed.

Lemma jet_UserProblem_kernel_idem (pjet : CylindricalJet.pgen_jet_amb Real)
    gm1 nfluid nscalars indcs size m k j i (u : DvceArray5D Real) n :
  CylindricalJet.UserProblem_kernel pjet gm1 nfluid nscalars indcs size m k j i
    (CylindricalJet.UserProblem_kernel pjet gm1 nfluid nscalars indcs size m k j i u)
    m n k j i
  = CylindricalJet.UserProblem_kernel pjet gm1 nfluid nscalars indcs size m k j i u
      m n k j i.
Proof.
  unfold CylindricalJet.UserProblem_kernel. cbv zeta.
  destruct (CylindricalJet.InJet _ _ _ _ _); rewrite !set_scalars_cell;
    (destruct ((nfluid <=? n)%Z && (n <? nfluid + nscalars)%Z) eqn:Hsc;
     [reflexivity|]);
    hydro_slot n; try (at_own_cell; reflexivity);
    at_other_slot; rewrite ?set_scalars_cell, ?Hsc; at_other_slot; reflexivity.
Qed.

Lemma jet_AddJets_kernel_idem (pjet : CylindricalJet.pgen_jet_amb Real)
    gm1 nfluid nscalars indcs size m k j i (u : DvceArray5D Real) n :
  CylindricalJet.AddJets_kernel pjet gm1 nfluid nscalars indcs size m k j i
    (CylindricalJet.AddJets_kernel pjet gm1 nfluid nscalars indcs size m k j i u)
    m n k j i
  = CylindricalJet.AddJets_kernel pjet gm1 nfluid nscalars indcs size m k j i u
      m n k j i.
Proof.
  unfold CylindricalJet.AddJets_kernel. cbv zeta.
  destruct (CylindricalJet.InJet _ _ _ _ _); [|reflexivity].
  rewrite !set_scalars_cell.
  destruct ((nfluid <=? n)%Z && (n <? nfluid + nscalars)%Z) eqn:Hsc; [reflexivity|].
  hydro_slot n; try (at_own_cell; reflexivity);
    at_other_slot; rewrite ?set_scalars_cell, ?Hsc; at_other_slot; reflexivity.
Qed.

(** On a cell of the jet region the injection kernel writes what the setup
    kernel writes. *)
Lemma jet_kernels_agree (pjet : CylindricalJet.pgen_jet_amb Real)
    gm1 nfluid nscalars indcs size m k j i (u : DvceArray5D Real) n :
  CylindricalJet.InJet
    (CellCenterX (i - is_ indcs) (nx1 indcs) (x1min (size m)) (x1max (size m)))
    (CellCenterX (j - js indcs) (nx2 indcs) (x2min (size m)) (x2max (size m)))
    (CellCenterX (k - ks indcs) (nx3 indcs) (x3min (size m)) (x3max (size m)))
    (CylindricalJet.r_jet pjet) (CylindricalJet.h_jet pjet) = true ->
  CylindricalJet.AddJets_kernel pjet gm1 nfluid nscalars indcs size m k j i u m n k j i
  = CylindricalJet.UserProblem_kernel pjet gm1 nfluid nscalars indcs size m k j i u
      m n k j i.
Proof.
  intros Hjet.
  unfold CylindricalJet.AddJets_kernel, CylindricalJet.UserProblem_kernel.
  cbv zeta. rewrite Hjet. reflexivity.
Qed.
End SetupKernels.

Section SetupAlgebra.
Context {Real : Type} `{RealOps Real} `{PowOp Real}.
Local Open Scope real_scope.

(** A setup that returned once returns again on the same input, whatever
    the restart flag and the generator, with the same parameters. *)
Lemma rad_setup_again (pin : ParameterInput Real) (restart : bool)
    (pg pg' : ProblemGenerator Real (RadBondi.pgen_bh Real)) :
  RadBondi.UserProblem pin restart pg = Ok pg' ->
  forall restart2 pg2,
    exists pg2', RadBondi.UserProblem pin restart2 pg2 = Ok pg2' /\
                 params pg2' = params pg'.
Proof.
  intros Hret restart2 pg2.
  unfold RadBondi.UserProblem in *. cbv zeta in *.
  setup_returned Hret.
  cbn [bind].
  destruct restart; [|destruct (phydro (pmy_mesh_ pg))];
    inversion Hret; subst pg'; cbn [params];
    (destruct restart2; [|destruct (phydro (pmy_mesh_ pg2))]);
    eexists; split; reflexivity.
Qed.

Lemma bondi_setup_again (pin : ParameterInput Real) (restart : bool)
    (pg pg' : ProblemGenerator Real (Bondi.pgen_bh Real)) :
  Bondi.UserProblem pin restart pg = Ok pg' ->
  forall restart2 pg2,
    exists pg2', Bondi.UserProblem pin restart2 pg2 = Ok pg2' /\
                 params pg2' = params pg'.
Proof.
  intros Hret restart2 pg2.
  unfold Bondi.UserProblem in *. cbv zeta in *.
  setup_returned Hret.
  cbn [bind].
  destruct restart; [|destruct (phydro (pmy_mesh_ pg))];
    inversion Hret; subst pg'; cbn [params];
    (destruct restart2; [|destruct (phydro (pmy_mesh_ pg2))]);
    eexists; split; reflexivity.
Qed.

Lemma jet_setup_again (pin : ParameterInput Real) (restart : bool)
    (pg pg' : ProblemGenerator Real (CylindricalJet.pgen_jet_amb Real)) :
  CylindricalJet.UserProblem pin restart pg = Ok pg' ->
  forall restart2 pg2,
    exists pg2', CylindricalJet.UserProblem pin restart2 pg2 = Ok pg2' /\
                 params pg2' = params pg'.
Proof.
  intros Hret restart2 pg2.
  unfold CylindricalJet.UserProblem in *. cbv zeta in *.
  setup_returned Hret.
  cbn [bind].
  destruct restart; [|destruct (phydro (pmy_mesh_ pg))];
    inversion Hret; subst pg'; cbn [params];
    (destruct restart2; [|destruct (phydro (pmy_mesh_ pg2))]);
    eexists; split; reflexivity.
Qed.
End SetupAlgebra.

(** Peels the assignments of a kernel off an entry none of them writes. *)
Ltac peel_upd tac :=
  repeat (etransitivity; [apply upd_other_var; tac|]); try reflexivity.

Section SetupFrame.
Context {Real : Type} `{RealOps Real} `{PowOp Real}.
Local Open Scope real_scope.

Lemma set_scalars_other_var nfluid nscalars (scal : Real) m k j i u m' n' k' j' i' :
  ~ (nfluid <= n' < nfluid + nscalars)%Z ->
  CylindricalJet.set_scalars nfluid nscalars scal m k j i u m' n' k' j' i'
  = u m' n' k' j' i'.
Proof.
  intros Hn. unfold CylindricalJet.set_scalars.
  assert (Hl : forall a, In a (zrange nfluid (nfluid + nscalars - 1)) -> n' <> a).
  { intros a Ha E. subst a. apply In_zrange in Ha. lia. }
  revert Hl. generalize (zrange nfluid (nfluid + nscalars - 1)) u.
  induction l as [|a l IH]; intros v Hl; cbn [fold_left]; [reflexivity|].
  rewrite IH by (intros b Hb; apply Hl; now right).
  apply upd_other_var. apply Hl. now left.
Qed.

Lemma not_hydro_var (n : Z) :
  ~ (IDN <= n <= IEN)%Z ->
  n <> IDN /\ n <> IM1 /\ n <> IM2 /\ n <> IM3 /\ n <> IEN.
Proof. unfold IDN, IM1, IM2, IM3, IEN. lia. Qed.

Lemma rad_UserProblem_kernel_keeps (pbh : RadBondi.pgen_bh Real) gm1 indcs size
    cm ck cj ci (v : DvceArray5D Real) m n k j i :
  ~ (IDN <= n <= IEN)%Z ->
  RadBondi.UserProblem_kernel pbh gm1 indcs size cm ck cj ci v m n k j i
  = v m n k j i.
Proof.
  intros Hn. apply not_hydro_var in Hn as (N0 & N1 & N2 & N3 & N4).
  unfold RadBondi.UserProblem_kernel. cbv zeta.
  destruct (_ <? _); peel_upd assumption.
Qed.

Lemma bondi_UserProblem_kernel_keeps (pbh : Bondi.pgen_bh Real) gm1 indcs size
    cm ck cj ci (v : DvceArray5D Real) m n k j i :
  ~ (IDN <= n <= IEN)%Z ->
  Bondi.UserProblem_kernel pbh gm1 indcs size cm ck cj ci v m n k j i
  = v m n k j i.
Proof.
  intros Hn. apply not_hydro_var in Hn as (N0 & N1 & N2 & N3 & N4).
  unfold Bondi.UserProblem_kernel. cbv zeta. peel_upd assumption.
Qed.

Lemma jet_UserProblem_kernel_keeps (pjet : CylindricalJet.pgen_jet_amb Real)
    gm1 nfluid nscalars indcs size cm ck cj ci (v : DvceArray5D Real) m n k j i :
  ~ (IDN <= n <= IEN)%Z /\ ~ (nfluid <= n < nfluid + nscalars)%Z ->
  CylindricalJet.UserProblem_kernel pjet gm1 nfluid nscalars indcs size
    cm ck cj ci v m n k j i
  = v m n k j i.
Proof.
  intros [Hn Hs]. apply not_hydro_var in Hn as (N0 & N1 & N2 & N3 & N4).
  unfold CylindricalJet.UserProblem_kernel. cbv zeta.
  destruct (CylindricalJet.InJet _ _ _ _ _);
    rewrite set_scalars_other_var by exact Hs; peel_upd assumption.
Qed.

Lemma jet_AddJets_kernel_keeps (pjet : CylindricalJet.pgen_jet_amb Real)
    gm1 nfluid nscalars indcs size cm ck cj ci (v : DvceArray5D Real) m n k j i :
  ~ (IDN <= n <= IEN)%Z /\ ~ (nfluid <= n < nfluid + nscalars)%Z ->
  CylindricalJet.AddJets_kernel pjet gm1 nfluid nscalars indcs size
    cm ck cj ci v m n k j i
  = v m n k j i.
Proof.
  intros [Hn Hs]. apply not_hydro_var in Hn as (N0 & N1 & N2 & N3 & N4).
  unfold CylindricalJet.AddJets_kernel. cbv zeta.
  destruct (CylindricalJet.InJet _ _ _ _ _); [|reflexivity].
  rewrite set_scalars_other_var by exact Hs. peel_upd assumption.
Qed.

(** X4. A setup that returns keeps the geometry of the mesh; without a
    hydro module it touches no state, and with one it keeps the variable
    counts and the primitive array and writes, in the conserved array, only
    the five hydro variables (and, for the jet, the scalar slots) of the
    cells of the pack: entries of other cells and other variables are as
    they were. *)
Theorem setup_frame
    (pinr : ParameterInput Real) (rr : bool)
    (pgr pgr' : ProblemGenerator Real (RadBondi.pgen_bh Real))
    (pinb : ParameterInput Real) (rb : bool)
    (pgb pgb' : ProblemGenerator Real (Bondi.pgen_bh Real))
    (pinj : ParameterInput Real) (rj : bool)
    (pgj pgj' : ProblemGenerator Real (CylindricalJet.pgen_jet_amb Real)) :
  (RadBondi.UserProblem pinr rr pgr = Ok pgr' ->
   same_geometry (pmy_mesh_ pgr) (pmy_mesh_ pgr') /\
   match phydro (pmy_mesh_ pgr) with
   | None => phydro (pmy_mesh_ pgr') = None
   | Some hyd =>
       exists hyd', phydro (pmy_mesh_ pgr') = Some hyd' /\
         nhydro hyd' = nhydro hyd /\ nscalars hyd' = nscalars hyd /\
         same_array (w0 hyd) (w0 hyd') /\
         forall m n k j i,
           ~ in_pack (pmy_mesh_ pgr) m k j i \/ ~ (IDN <= n <= IEN)%Z ->
           u0 hyd' m n k j i = u0 hyd m n k j i
   end) /\
  (Bondi.UserProblem pinb rb pgb = Ok pgb' ->
   same_geometry (pmy_mesh_ pgb) (pmy_mesh_ pgb') /\
   match phydro (pmy_mesh_ pgb) with
   | None => phydro (pmy_mesh_ pgb') = None
   | Some hyd =>
       exists hyd', phydro (pmy_mesh_ pgb') = Some hyd' /\
         nhydro hyd' = nhydro hyd /\ nscalars hyd' = nscalars hyd /\
         same_array (w0 hyd) (w0 hyd') /\
         forall m n k j i,
           ~ in_pack (pmy_mesh_ pgb) m k j i \/ ~ (IDN <= n <= IEN)%Z ->
           u0 hyd' m n k j i = u0 hyd m n k j i
   end) /\
  (CylindricalJet.UserProblem pinj rj pgj = Ok pgj' ->
   same_geometry (pmy_mesh_ pgj) (pmy_mesh_ pgj') /\
   match phydro (pmy_mesh_ pgj) with
   | None => phydro (pmy_mesh_ pgj') = None
   | Some hyd =>
       exists hyd', phydro (pmy_mesh_ pgj') = Some hyd' /\
         nhydro hyd' = nhydro hyd /\ nscalars hyd' = nscalars hyd /\
         same_array (w0 hyd) (w0 hyd') /\
         forall m n k j i,
           ~ in_pack (pmy_mesh_ pgj) m k j i \/
           (~ (IDN <= n <= IEN)%Z /\
            ~ (nhydro hyd <= n < nhydro hyd + nscalars hyd)%Z) ->
           u0 hyd' m n k j i = u0 hyd m n k j i
   end).
Proof.
  split; [|split]; intros Hret.
  - apply rad_UserProblem_Ok in Hret as (_ & _ & Hmesh).
    destruct rr; [rewrite Hmesh; split; [repeat split|];
                  destruct (phydro (pmy_mesh_ pgr)) as [hyd|];
                  [exists hyd; repeat split|reflexivity]|].
    destruct (phydro (pmy_mesh_ pgr)) as [hyd|] eqn:Hhyd;
      cbv zeta in Hmesh; rewrite Hmesh;
      [|split; [repeat split | exact Hhyd]].
    split; [repeat split|].
    eexists. split; [reflexivity|]. cbn [nhydro nscalars w0 u0 set_u0].
    repeat split.
    intros m n k j i [Hout|Hn].
    + apply par_for_outside;
        [apply rad_UserProblem_kernel_writes | apply rad_UserProblem_kernel_reads
        | exact Hout].
    + apply (par_for_preserves (fun _ n _ _ _ => ~ (IDN <= n <= IEN)%Z)); [|exact Hn].
      intros. now apply rad_UserProblem_kernel_keeps.
  - apply bondi_UserProblem_Ok in Hret as (_ & _ & Hmesh).
    destruct rb; [rewrite Hmesh; split; [repeat split|];
                  destruct (phydro (pmy_mesh_ pgb)) as [hyd|];
                  [exists hyd; repeat split|reflexivity]|].
    destruct (phydro (pmy_mesh_ pgb)) as [hyd|] eqn:Hhyd;
      cbv zeta in Hmesh; rewrite Hmesh;
      [|split; [repeat split | exact Hhyd]].
    split; [repeat split|].
    eexists. split; [reflexivity|]. cbn [nhydro nscalars w0 u0 set_u0].
    repeat split.
    intros m n k j i [Hout|Hn].
    + apply par_for_outside;
        [apply bondi_UserProblem_kernel_writes | apply bondi_UserProblem_kernel_reads
        | exact Hout].
    + apply (par_for_preserves (fun _ n _ _ _ => ~ (IDN <= n <= IEN)%Z)); [|exact Hn].
      intros. now apply bondi_UserProblem_kernel_keeps.
  - apply jet_UserProblem_Ok in Hret as (_ & _ & _ & Hmesh).
    destruct rj; [rewrite Hmesh; split; [repeat split|];
                  destruct (phydro (pmy_mesh_ pgj)) as [hyd|];
                  [exists hyd; repeat split|reflexivity]|].
    destruct (phydro (pmy_mesh_ pgj)) as [hyd|] eqn:Hhyd;
      cbv zeta in Hmesh; rewrite Hmesh;
      [|split; [repeat split | exact Hhyd]].
    split; [repeat split|].
    eexists. split; [reflexivity|]. cbn [nhydro nscalars w0 u0 set_u0].
    repeat split.
    intros m n k j i [Hout|Hn].
    + apply par_for_outside;
        [apply jet_UserProblem_kernel_writes | apply jet_UserProblem_kernel_reads
        | exact Hout].
    + apply (par_for_preserves
               (fun _ n _ _ _ => ~ (IDN <= n <= IEN)%Z /\
                                 ~ (nhydro hyd <= n < nhydro hyd + nscalars hyd)%Z));
        [|exact Hn].
      intros. now apply jet_UserProblem_kernel_keeps.
Qed.
End SetupFrame.

Section SetupIdempotent.
Context {Real : Type} `{RealOps Real} `{PowOp Real}.
Local Open Scope real_scope.

(** X5. Setting up twice is setting up once: on the generator a setup
    without restart returned, a second setup from the same input returns
    too and leaves the same parameters, the same geometry and the same
    hydro state, every entry of the conserved array included. *)
Theorem setup_idempotent
    (pinr : ParameterInput Real)
    (pgr pgr1 : ProblemGenerator Real (RadBondi.pgen_bh Real))
    (pinb : ParameterInput Real)
    (pgb pgb1 : ProblemGenerator Real (Bondi.pgen_bh Real))
    (pinj : ParameterInput Real)
    (pgj pgj1 : ProblemGenerator Real (CylindricalJet.pgen_jet_amb Real)) :
  (RadBondi.UserProblem pinr false pgr = Ok pgr1 ->
   exists pgr2,
     RadBondi.UserProblem pinr false pgr1 = Ok pgr2 /\
     params pgr2 = params pgr1 /\
     same_geometry (pmy_mesh_ pgr1) (pmy_mesh_ pgr2) /\
     same_hydro (pmy_mesh_ pgr1) (pmy_mesh_ pgr2)) /\
  (Bondi.UserProblem pinb false pgb = Ok pgb1 ->
   exists pgb2,
     Bondi.UserProblem pinb false pgb1 = Ok pgb2 /\
     params pgb2 = params pgb1 /\
     same_geometry (pmy_mesh_ pgb1) (pmy_mesh_ pgb2) /\
     same_hydro (pmy_mesh_ pgb1) (pmy_mesh_ pgb2)) /\
  (CylindricalJet.UserProblem pinj false pgj = Ok pgj1 ->
   exists pgj2,
     CylindricalJet.UserProblem pinj false pgj1 = Ok pgj2 /\
     params pgj2 = params pgj1 /\
     same_geometry (pmy_mesh_ pgj1) (pmy_mesh_ pgj2) /\
     same_hydro (pmy_mesh_ pgj1) (pmy_mesh_ pgj2)).
Proof.
  split; [|split]; intros Hret.
  - destruct (rad_setup_again pinr false pgr pgr1 Hret false pgr1)
      as (pg2 & Hret2 & Hpar).
    exists pg2. split; [exact Hret2|]. split; [exact Hpar|].
    apply rad_UserProblem_Ok in Hret as (_ & _ & Hm1).
    apply rad_UserProblem_Ok in Hret2 as (_ & _ & Hm2).
    rewrite Hpar in Hm2. cbv zeta in Hm1, Hm2.
    destruct (phydro (pmy_mesh_ pgr)) as [hyd|] eqn:Hhyd.
    + rewrite Hm1 in Hm2 |- *.
      cbn [phydro set_phydro set_u0 u0 w0 nhydro nscalars nmb_thispack mb_indcs
           mb_size] in Hm2.
      rewrite Hm2. unfold same_geometry, same_hydro.
      cbn [phydro set_phydro set_u0 u0 w0 nhydro nscalars nmb_thispack mb_indcs
           mb_size].
      repeat split. intros m n k j i. symmetry.
      apply par_for_idempotent;
        [apply rad_UserProblem_kernel_writes | apply rad_UserProblem_kernel_reads
        | intros; apply rad_UserProblem_kernel_idem].
    + rewrite Hm1 in Hm2 |- *. rewrite Hhyd in Hm2. rewrite Hm2.
      unfold same_geometry, same_hydro. rewrite Hhyd. repeat split.
  - destruct (bondi_setup_again pinb false pgb pgb1 Hret false pgb1)
      as (pg2 & Hret2 & Hpar).
    exists pg2. split; [exact Hret2|]. split; [exact Hpar|].
    apply bondi_UserProblem_Ok in Hret as (_ & _ & Hm1).
    apply bondi_UserProblem_Ok in Hret2 as (_ & _ & Hm2).
    rewrite Hpar in Hm2. cbv zeta in Hm1, Hm2.
    destruct (phydro (pmy_mesh_ pgb)) as [hyd|] eqn:Hhyd.
    + rewrite Hm1 in Hm2 |- *.
      cbn [phydro set_phydro set_u0 u0 w0 nhydro nscalars nmb_thispack mb_indcs
           mb_size] in Hm2.
      rewrite Hm2. unfold same_geometry, same_hydro.
      cbn [phydro set_phydro set_u0 u0 w0 nhydro nscalars nmb_thispack mb_indcs
           mb_size].
      repeat split. intros m n k j i. symmetry.
      apply par_for_idempotent;
        [apply bondi_UserProblem_kernel_writes | apply bondi_UserProblem_kernel_reads
        | intros; apply bondi_UserProblem_kernel_idem].
    + rewrite Hm1 in Hm2 |- *. rewrite Hhyd in Hm2. rewrite Hm2.
      unfold same_geometry, same_hydro. rewrite Hhyd. repeat split.
  - destruct (jet_setup_again pinj false pgj pgj1 Hret false pgj1)
      as (pg2 & Hret2 & Hpar).
    exists pg2. split; [exact Hret2|]. split; [exact Hpar|].
    apply jet_UserProblem_Ok in Hret as (_ & _ & _ & Hm1).
    apply jet_UserProblem_Ok in Hret2 as (_ & _ & _ & Hm2).
    rewrite Hpar in Hm2. cbv zeta in Hm1, Hm2.
    destruct (phydro (pmy_mesh_ pgj)) as [hyd|] eqn:Hhyd.
    + rewrite Hm1 in Hm2 |- *.
      cbn [phydro set_phydro set_u0 u0 w0 nhydro nscalars nmb_thispack mb_indcs
           mb_size] in Hm2.
      rewrite Hm2. unfold same_geometry, same_hydro.
      cbn [phydro set_phydro set_u0 u0 w0 nhydro nscalars nmb_thispack mb_indcs
           mb_size].
      repeat split. intros m n k j i. symmetry.
      apply par_for_idempotent;
        [apply jet_UserProblem_kernel_writes | apply jet_UserProblem_kernel_reads
        | intros; apply jet_UserProblem_kernel_idem].
    + rewrite Hm1 in Hm2 |- *. rewrite Hhyd in Hm2. rewrite Hm2.
      unfold same_geometry, same_hydro. rewrite Hhyd. repeat split.
Qed.
End SetupIdempotent.

(** ** The initial states of [bondi] and [cylindrical_jet_2] *)

Section OtherInitial.
Context {Real : Type} `{RealOps Real} `{PowOp Real}.
Local Open Scope real_scope.

(** What the setup of [bondi] leaves in a cell of the pack. *)
Lemma bondi_initial_cell (pin : ParameterInput Real)
    (pg pg' : ProblemGenerator Real (Bondi.pgen_bh Real)) (hyd : Hydro Real)
    (m k j i : Z) :
  Bondi.UserProblem pin false pg = Ok pg' ->
  phydro (pmy_mesh_ pg) = Some hyd ->
  in_pack (pmy_mesh_ pg) m k j i ->
  exists hyd',
    phydro (pmy_mesh_ pg') = Some hyd' /\
    let pbh := params pg' in
    let gm1 := Bondi.gamma pbh - of_int 1 in
    let pres := Bondi.d_amb pbh * SQR (Bondi.cs_amb pbh) in
    u0 hyd' m IDN k j i = Bondi.d_amb pbh /\
    u0 hyd' m IM1 k j i = lit_0_0 /\
    u0 hyd' m IM2 k j i = lit_0_0 /\
    u0 hyd' m IM3 k j i = lit_0_0 /\
    u0 hyd' m IEN k j i
    = pres / gm1
      + lit_0_5 * (SQR lit_0_0 + SQR lit_0_0 + SQR lit_0_0) / Bondi.d_amb pbh.
Proof.
  intros Hret Hhyd Hin.
  apply bondi_UserProblem_Ok in Hret as (_ & _ & Hmesh).
  rewrite Hhyd in Hmesh. cbv zeta in Hmesh.
  eexists. split; [rewrite Hmesh; reflexivity|].
  cbv zeta. cbn [u0 set_u0].
  rewrite !par_for_inside;
    try (apply bondi_UserProblem_kernel_writes
         || apply bondi_UserProblem_kernel_reads || exact Hin).
  unfold Bondi.UserProblem_kernel. at_own_cell. repeat split; reflexivity.
Qed.

(** What the setup kernel of the jet leaves in its cell, the scalar slots
    starting after the energy. *)
Lemma jet_UserProblem_kernel_cell (pjet : CylindricalJet.pgen_jet_amb Real)
    gm1 nfluid nscalars (pm : Mesh Real) m k j i (u : DvceArray5D Real) :
  (IEN < nfluid)%Z ->
  let u' := CylindricalJet.UserProblem_kernel pjet gm1 nfluid nscalars
              (mb_indcs pm) (mb_size pm) m k j i u in
  let pres := CylindricalJet.d_amb pjet * SQR (CylindricalJet.cs_amb pjet) in
  let p1 := jet_p1_of pjet (cell_rad pm m k j i) in
  if CylindricalJet.InJet (cell_x1 pm m i) (cell_x2 pm m j) (cell_x3 pm m k)
       (CylindricalJet.r_jet pjet) (CylindricalJet.h_jet pjet)
  then
    u' m IDN k j i = CylindricalJet.rho_jet pjet /\
    u' m IM1 k j i = p1 /\
    u' m IM2 k j i = lit_0_0 /\
    u' m IM3 k j i = lit_0_0 /\
    u' m IEN k j i
    = pres / gm1
      + lit_0_5 * (SQR p1 + SQR lit_0_0 + SQR lit_0_0) / CylindricalJet.rho_jet pjet /\
    (forall n, (nfluid <= n < nfluid + nscalars)%Z -> u' m n k j i = lit_1_0)
  else
    u' m IDN k j i = CylindricalJet.d_amb pjet /\
    u' m IM1 k j i = lit_0_0 /\
    u' m IM2 k j i = lit_0_0 /\
    u' m IM3 k j i = lit_0_0 /\
    u' m IEN k j i
    = pres / gm1
      + lit_0_5 * (SQR lit_0_0 + SQR lit_0_0 + SQR lit_0_0) / CylindricalJet.d_amb pjet /\
    (forall n, (nfluid <= n < nfluid + nscalars)%Z -> u' m n k j i = lit_0_0).
Proof.
  intros Hnf. cbv zeta.
  unfold CylindricalJet.UserProblem_kernel, jet_p1_of, cell_rad, cell_x1, cell_x2,
    cell_x3. cbv zeta.
  assert (Hslot : forall c, (c <= IEN)%Z ->
            (nfluid <=? c)%Z && (c <? nfluid + nscalars)%Z = false).
  { intros c Hc. apply andb_false_iff. left. apply Z.leb_gt. lia. }
  assert (Hscal : forall n, (nfluid <= n < nfluid + nscalars)%Z ->
            (nfluid <=? n)%Z && (n <? nfluid + nscalars)%Z = true).
  { intros n Hn. apply andb_true_iff. split; [apply Z.leb_le | apply Z.ltb_lt]; lia. }
  destruct (CylindricalJet.InJet _ _ _ _ _); rewrite !set_scalars_cell;
    rewrite !Hslot by (unfold IDN, IM1, IM2, IM3, IEN; lia);
    at_own_cell; repeat split; try reflexivity;
    intros n Hn; rewrite set_scalars_cell, Hscal by exact Hn; reflexivity.
Qed.

(** The same for the injection kernel, which writes the cells of the jet
    region only. *)
Lemma jet_AddJets_kernel_cell (pjet : CylindricalJet.pgen_jet_amb Real)
    gm1 nfluid nscalars (pm : Mesh Real) m k j i (u : DvceArray5D Real) :
  (IEN < nfluid)%Z ->
  CylindricalJet.InJet (cell_x1 pm m i) (cell_x2 pm m j) (cell_x3 pm m k)
    (CylindricalJet.r_jet pjet) (CylindricalJet.h_jet pjet) = true ->
  let u' := CylindricalJet.AddJets_kernel pjet gm1 nfluid nscalars
              (mb_indcs pm) (mb_size pm) m k j i u in
  let pres := CylindricalJet.d_amb pjet * SQR (CylindricalJet.cs_amb pjet) in
  let p1 := jet_p1_of pjet (cell_rad pm m k j i) in
  u' m IDN k j i = CylindricalJet.rho_jet pjet /\
  u' m IM1 k j i = p1 /\
  u' m IM2 k j i = lit_0_0 /\
  u' m IM3 k j i = lit_0_0 /\
  u' m IEN k j i
  = pres / gm1
    + lit_0_5 * (SQR p1 + SQR lit_0_0 + SQR lit_0_0) / CylindricalJet.rho_jet pjet /\
  (forall n, (nfluid <= n < nfluid + nscalars)%Z -> u' m n k j i = lit_1_0).
Proof.
  intros Hnf Hjet. cbv zeta.
  pose proof (jet_UserProblem_kernel_cell pjet gm1 nfluid nscalars pm m k j i u Hnf)
    as Hcell.
  cbv zeta in Hcell. rewrite Hjet in Hcell.
  assert (Heq : forall n,
    CylindricalJet.AddJets_kernel pjet gm1 nfluid nscalars (mb_indcs pm) (mb_size pm)
      m k j i u m n k j i
    = CylindricalJet.UserProblem_kernel pjet gm1 nfluid nscalars (mb_indcs pm)
        (mb_size pm) m k j i u m n k j i).
  { intros n. apply jet_kernels_agree. exact Hjet. }
  rewrite !Heq. destruct Hcell as (C0 & C1 & C2 & C3 & C4 & C5).
  repeat split; try assumption. intros n Hn. rewrite Heq. now apply C5.
Qed.
End OtherInitial.

Section InitialStatesReal.
Local Open Scope R_scope.

(** The kinetic term of a state at rest vanishes over the reals. *)
Lemma rest_energy_R (pres gm1 dens : R) :
  (pres / gm1 + lit_0_5 * (SQR lit_0_0 + SQR lit_0_0 + SQR lit_0_0) / dens)%real
  = pres / gm1.
Proof. unfold SQR, lit_0_0. real_ops. unfold Rdiv. ring. Qed.

(** X6. After a setup of [bondi] without restart, every cell of the pack
    holds the uniform ambient state: density [d_amb], zero momentum and the
    energy [d_amb cs_amb^2 / (gamma - 1)]. *)
Theorem bondi_initial_state (P : PowOp R) (pin : ParameterInput R)
    (pg pg' : ProblemGenerator R (Bondi.pgen_bh R)) (hyd : Hydro R)
    (m k j i : Z) :
  Bondi.UserProblem pin false pg = Ok pg' ->
  phydro (pmy_mesh_ pg) = Some hyd ->
  in_pack (pmy_mesh_ pg) m k j i ->
  exists hyd',
    phydro (pmy_mesh_ pg') = Some hyd' /\
    u0 hyd' m IDN k j i = Bondi.d_amb (params pg') /\
    u0 hyd' m IM1 k j i = 0 /\
    u0 hyd' m IM2 k j i = 0 /\
    u0 hyd' m IM3 k j i = 0 /\
    u0 hyd' m IEN k j i
    = Bondi.d_amb (params pg') * Bondi.cs_amb (params pg') ^ 2
      / (Bondi.gamma (params pg') - 1).
Proof.
  intros Hret Hhyd Hin.
  destruct (bondi_initial_cell pin pg pg' hyd m k j i Hret Hhyd Hin)
    as (hyd' & Hhyd' & Hd & H1 & H2 & H3 & He).
  exists hyd'. rewrite Hd, H1, H2, H3, He, rest_energy_R.
  repeat split; try assumption. unfold SQR. real_ops. unfold Rdiv. ring.
Qed.

(** X7. After a setup of [rad_bondi] without restart, a cell of the pack
    whose radius is at or beyond the virial radius holds the ambient state:
    density [rho_cgm], zero momentum and the energy
    [rho_cgm cs_cgm^2 / (gamma - 1)]. *)
Theorem rad_initial_state_outside (P : PowOp R) (pin : ParameterInput R)
    (pg pg' : ProblemGenerator R (RadBondi.pgen_bh R)) (hyd : Hydro R)
    (m k j i : Z) :
  RadBondi.UserProblem pin false pg = Ok pg' ->
  phydro (pmy_mesh_ pg) = Some hyd ->
  in_pack (pmy_mesh_ pg) m k j i ->
  RadBondi.r_vir (params pg') <= cell_rad (pmy_mesh_ pg) m k j i ->
  exists hyd',
    phydro (pmy_mesh_ pg') = Some hyd' /\
    u0 hyd' m IDN k j i = RadBondi.rho_cgm (params pg') /\
    u0 hyd' m IM1 k j i = 0 /\
    u0 hyd' m IM2 k j i = 0 /\
    u0 hyd' m IM3 k j i = 0 /\
    u0 hyd' m IEN k j i
    = RadBondi.rho_cgm (params pg') * RadBondi.cs_cgm (params pg') ^ 2
      / (RadBondi.gamma_gas (params pg') - 1).
Proof.
  intros Hret Hhyd Hin Hr.
  destruct (rad_initial_cell pin pg pg' hyd m k j i Hret Hhyd Hin)
    as (hyd' & Hhyd' & Hd & H1 & H2 & H3 & He).
  exists hyd'. cbv zeta in He. unfold rad_initial_density in Hd, He.
  apply rltb_R_false in Hr. rewrite Hr in Hd, He.
  rewrite Hd, H1, H2, H3, He, rest_energy_R.
  repeat split; try assumption. unfold SQR. real_ops. unfold Rdiv. ring.
Qed.

(** X8. After a setup of [cylindrical_jet_2] without restart (scalar slots
    after the energy), a cell of the pack for which [InJet] holds has the
    jet density, the first momentum [rho_jet v_jet] (zero at zero radius),
    the ambient pressure, i.e. the energy
    [d_amb cs_amb^2 / (gamma - 1) + 0.5 (rho_jet v_jet)^2 / rho_jet], and 1
    in every scalar slot; a cell for which it fails has the ambient state
    at rest and 0 in every scalar slot. *)
Theorem jet_initial_state (pin : ParameterInput R)
    (pg pg' : ProblemGenerator R (CylindricalJet.pgen_jet_amb R)) (hyd : Hydro R)
    (m k j i : Z) :
  CylindricalJet.UserProblem pin false pg = Ok pg' ->
  phydro (pmy_mesh_ pg) = Some hyd ->
  (IEN < nhydro hyd)%Z ->
  in_pack (pmy_mesh_ pg) m k j i ->
  let pjet := params pg' in
  let pm := pmy_mesh_ pg in
  let e_amb := CylindricalJet.d_amb pjet * CylindricalJet.cs_amb pjet ^ 2
               / (CylindricalJet.gamma pjet - 1) in
  exists hyd',
    phydro (pmy_mesh_ pg') = Some hyd' /\
    (CylindricalJet.InJet (cell_x1 pm m i) (cell_x2 pm m j) (cell_x3 pm m k)
       (CylindricalJet.r_jet pjet) (CylindricalJet.h_jet pjet) = true ->
     u0 hyd' m IDN k j i = CylindricalJet.rho_jet pjet /\
     (0 < cell_rad pm m k j i ->
      u0 hyd' m IM1 k j i = CylindricalJet.rho_jet pjet * CylindricalJet.v_jet pjet /\
      u0 hyd' m IEN k j i
      = e_amb
        + 0.5 * (CylindricalJet.rho_jet pjet * CylindricalJet.v_jet pjet) ^ 2
          / CylindricalJet.rho_jet pjet) /\
     (cell_rad pm m k j i = 0 ->
      u0 hyd' m IM1 k j i = 0 /\ u0 hyd' m IEN k j i = e_amb) /\
     u0 hyd' m IM2 k j i = 0 /\
     u0 hyd' m IM3 k j i = 0 /\
     forall n, (nhydro hyd <= n < nhydro hyd + nscalars hyd)%Z ->
       u0 hyd' m n k j i = 1) /\
    (CylindricalJet.InJet (cell_x1 pm m i) (cell_x2 pm m j) (cell_x3 pm m k)
       (CylindricalJet.r_jet pjet) (CylindricalJet.h_jet pjet) = false ->
     u0 hyd' m IDN k j i = CylindricalJet.d_amb pjet /\
     u0 hyd' m IM1 k j i = 0 /\
     u0 hyd' m IM2 k j i = 0 /\
     u0 hyd' m IM3 k j i = 0 /\
     u0 hyd' m IEN k j i = e_amb /\
     forall n, (nhydro hyd <= n < nhydro hyd + nscalars hyd)%Z ->
       u0 hyd' m n k j i = 0).
Proof.
  intros Hret Hhyd Hnh Hin. cbv zeta.
  apply jet_UserProblem_Ok in Hret as (_ & _ & _ & Hmesh).
  rewrite Hhyd in Hmesh. cbv zeta in Hmesh.
  eexists. split; [rewrite Hmesh; reflexivity|]. cbn [u0 set_u0].
  assert (Hcell : forall n,
    par_for 0 (nmb_thispack (pmy_mesh_ pg) - 1)
      (ks (mb_indcs (pmy_mesh_ pg))) (ke (mb_indcs (pmy_mesh_ pg)))
      (js (mb_indcs (pmy_mesh_ pg))) (je (mb_indcs (pmy_mesh_ pg)))
      (is_ (mb_indcs (pmy_mesh_ pg))) (ie (mb_indcs (pmy_mesh_ pg)))
      (CylindricalJet.UserProblem_kernel (params pg')
         (CylindricalJet.gamma (params pg') - of_int 1)%real
         (nhydro hyd) (nscalars hyd) (mb_indcs (pmy_mesh_ pg))
         (mb_size (pmy_mesh_ pg))) (u0 hyd) m n k j i
    = CylindricalJet.UserProblem_kernel (params pg')
        (CylindricalJet.gamma (params pg') - of_int 1)%real
        (nhydro hyd) (nscalars hyd) (mb_indcs (pmy_mesh_ pg))
        (mb_size (pmy_mesh_ pg)) m k j i (u0 hyd) m n k j i).
  { intros n. apply par_for_inside;
      [apply jet_UserProblem_kernel_writes | apply jet_UserProblem_kernel_reads
      | exact Hin]. }
  pose proof (jet_UserProblem_kernel_cell (params pg')
                (CylindricalJet.gamma (params pg') - of_int 1)%real
                (nhydro hyd) (nscalars hyd) (pmy_mesh_ pg) m k j i (u0 hyd) Hnh)
    as Hk.
  cbv zeta in Hk. rewrite !Hcell.
  split; intros Hjet; rewrite Hjet in Hk;
    destruct Hk as (K0 & K1 & K2 & K3 & K4 & K5).
  - rewrite K0, K1, K2, K3, K4. split; [reflexivity|].
    split; [|split; [|split; [reflexivity|split; [reflexivity|]]]].
    + intros Hpos. unfold jet_p1_of. apply rltb_R in Hpos.
      change (of_int 0) with 0. rewrite Hpos. split; [reflexivity|].
      unfold SQR, lit_0_0. real_ops. unfold Rdiv. ring.
    + intros Hzero. unfold jet_p1_of.
      replace (of_int 0 <? cell_rad (pmy_mesh_ pg) m k j i)%real with false
        by (symmetry; apply rltb_R_false; change (of_int 0) with 0; lra).
      split; [reflexivity|]. rewrite rest_energy_R.
      unfold SQR. real_ops. unfold Rdiv. ring.
    + intros n Hn. rewrite Hcell. now apply K5.
  - rewrite K0, K1, K2, K3, K4, rest_energy_R. repeat split.
    + unfold SQR. real_ops. unfold Rdiv. ring.
    + intros n Hn. rewrite Hcell. now apply K5.
Qed.
End InitialStatesReal.

(** ** Jet injection: what it pins and what it keeps *)

Section JetOperator.
Context {Real : Type} `{RealOps Real}.
Local Open Scope real_scope.

(** On a cell of the jet region, the entries the injection kernel writes do
    not depend on the array it is given. *)
Lemma jet_AddJets_kernel_pins (pjet : CylindricalJet.pgen_jet_amb Real)
    gm1 nfluid nscalars indcs size m k j i (u v : DvceArray5D Real) n :
  CylindricalJet.InJet
    (CellCenterX (i - is_ indcs) (nx1 indcs) (x1min (size m)) (x1max (size m)))
    (CellCenterX (j - js indcs) (nx2 indcs) (x2min (size m)) (x2max (size m)))
    (CellCenterX (k - ks indcs) (nx3 indcs) (x3min (size m)) (x3max (size m)))
    (CylindricalJet.r_jet pjet) (CylindricalJet.h_jet pjet) = true ->
  (IDN <= n <= IEN)%Z \/ (nfluid <= n < nfluid + nscalars)%Z ->
  CylindricalJet.AddJets_kernel pjet gm1 nfluid nscalars indcs size m k j i u m n k j i
  = CylindricalJet.AddJets_kernel pjet gm1 nfluid nscalars indcs size m k j i v
      m n k j i.
Proof.
  intros Hjet Hn. unfold CylindricalJet.AddJets_kernel. cbv zeta. rewrite Hjet.
  rewrite !set_scalars_cell.
  destruct ((nfluid <=? n)%Z && (n <? nfluid + nscalars)%Z) eqn:Hsc; [reflexivity|].
  destruct Hn as [Hn|Hn].
  - hydro_slot n; try (at_own_cell; reflexivity).
    exfalso. unfold IDN, IM1, IM2, IM3, IEN in *. lia.
  - exfalso. apply andb_false_iff in Hsc as [Hsc|Hsc];
      [apply Z.leb_gt in Hsc | apply Z.ltb_ge in Hsc]; lia.
Qed.

(** X9. Injection pins the state: on a cell of the pack in the jet region,
    the five hydro variables and the scalar slots after [AddJets] are the
    same whatever the conserved and primitive arrays and the substep it was
    called with, hence whatever operator ran before it. *)
Theorem AddJets_overwrites (pjet : CylindricalJet.pgen_jet_amb Real) (pm : Mesh Real)
    (hyd : Hydro Real) (m n k j i : Z)
    (bdt bdt' : Real) (u w u' w' : DvceArray5D Real) :
  in_pack pm m k j i ->
  CylindricalJet.InJet (cell_x1 pm m i) (cell_x2 pm m j) (cell_x3 pm m k)
    (CylindricalJet.r_jet pjet) (CylindricalJet.h_jet pjet) = true ->
  (IDN <= n <= IEN)%Z \/ (nhydro hyd <= n < nhydro hyd + nscalars hyd)%Z ->
  CylindricalJet.AddJets pjet pm bdt hyd u w m n k j i
  = CylindricalJet.AddJets pjet pm bdt' hyd u' w' m n k j i.
Proof.
  intros Hin Hjet Hn. unfold CylindricalJet.AddJets. cbv zeta.
  rewrite (par_for_inside _ _ _ _ _ _ _ _ _ u m n k j i
             (jet_AddJets_kernel_writes _ _ _ _ _ _)
             (jet_AddJets_kernel_reads _ _ _ _ _ _) Hin).
  rewrite (par_for_inside _ _ _ _ _ _ _ _ _ u' m n k j i
             (jet_AddJets_kernel_writes _ _ _ _ _ _)
             (jet_AddJets_kernel_reads _ _ _ _ _ _) Hin).
  apply jet_AddJets_kernel_pins; assumption.
Qed.

(** X10. [AddJets] is idempotent: injecting twice, with any substeps and
    primitive arrays, leaves every entry as injecting once does. *)
Theorem AddJets_idempotent (pjet : CylindricalJet.pgen_jet_amb Real) (pm : Mesh Real)
    (hyd : Hydro Real) (bdt bdt' : Real) (u w w' : DvceArray5D Real)
    (m n k j i : Z) :
  CylindricalJet.AddJets pjet pm bdt' hyd
    (CylindricalJet.AddJets pjet pm bdt hyd u w) w' m n k j i
  = CylindricalJet.AddJets pjet pm bdt hyd u w m n k j i.
Proof.
  unfold CylindricalJet.AddJets. cbv zeta.
  apply par_for_idempotent;
    [apply jet_AddJets_kernel_writes | apply jet_AddJets_kernel_reads
    | intros; apply jet_AddJets_kernel_idem].
Qed.

(** X11. [AddJets] writes nothing outside the jet: an entry is left as it
    was when its cell is not in the pack, or is outside the jet region, or
    when its variable is neither a hydro variable nor a scalar slot. *)
Theorem AddJets_frame (pjet : CylindricalJet.pgen_jet_amb Real) (pm : Mesh Real)
    (hyd : Hydro Real) (bdt : Real) (u w : DvceArray5D Real) (m n k j i : Z) :
  ~ in_pack pm m k j i \/
  CylindricalJet.InJet (cell_x1 pm m i) (cell_x2 pm m j) (cell_x3 pm m k)
    (CylindricalJet.r_jet pjet) (CylindricalJet.h_jet pjet) = false \/
  (~ (IDN <= n <= IEN)%Z /\ ~ (nhydro hyd <= n < nhydro hyd + nscalars hyd)%Z) ->
  CylindricalJet.AddJets pjet pm bdt hyd u w m n k j i = u m n k j i.
Proof.
  intros [Hout|[Hjet|Hn]].
  - unfold CylindricalJet.AddJets. cbv zeta. apply par_for_outside;
      [apply jet_AddJets_kernel_writes | apply jet_AddJets_kernel_reads | exact Hout].
  - now apply jet_AddJets_outside.
  - unfold CylindricalJet.AddJets. cbv zeta.
    apply (par_for_preserves
             (fun _ n _ _ _ => ~ (IDN <= n <= IEN)%Z /\
                               ~ (nhydro hyd <= n < nhydro hyd + nscalars hyd)%Z));
      [|exact Hn].
    intros. now apply jet_AddJets_kernel_keeps.
Qed.

(** X12. Injection keeps the initial state: called on the generator a setup
    without restart returned, the registered source function returns a mesh
    with the same geometry and the same hydro state, whatever the substep. *)
Theorem AddJets_after_setup (pin : ParameterInput Real)
    (pg pg' : ProblemGenerator Real (CylindricalJet.pgen_jet_amb Real))
    (hyd : Hydro Real) (bdt : Real) :
  CylindricalJet.UserProblem pin false pg = Ok pg' ->
  phydro (pmy_mesh_ pg) = Some hyd ->
  exists pm',
    CylindricalJet.AddUserSrcs (params pg') (pmy_mesh_ pg') bdt = Some pm' /\
    user_srcs_func pg' = Some CylindricalJet.AddUserSrcs /\
    same_geometry (pmy_mesh_ pg') pm' /\
    same_hydro (pmy_mesh_ pg') pm'.
Proof.
  intros Hret Hhyd.
  apply jet_UserProblem_Ok in Hret as (Hf & _ & _ & Hmesh).
  rewrite Hhyd in Hmesh. cbv zeta in Hmesh.
  unfold CylindricalJet.AddUserSrcs. rewrite Hmesh.
  cbn [phydro set_phydro]. cbv zeta.
  eexists. split; [reflexivity|]. split; [exact Hf|].
  unfold same_geometry, same_hydro.
  cbn [phydro set_phydro set_u0 u0 w0 nhydro nscalars nmb_thispack mb_indcs mb_size].
  repeat split.
  intros m n k j i. symmetry.
  unfold CylindricalJet.AddJets. cbv zeta.
  cbn [phydro set_phydro set_u0 u0 w0 nhydro nscalars nmb_thispack mb_indcs mb_size].
  set (pm := pmy_mesh_ pg).
  set (Kset := CylindricalJet.UserProblem_kernel (params pg')
                 (CylindricalJet.gamma (params pg') - of_int 1)
                 (nhydro hyd) (nscalars hyd) (mb_indcs pm) (mb_size pm)).
  set (Kinj := CylindricalJet.AddJets_kernel (params pg')
                 (CylindricalJet.gamma (params pg') - of_int 1)
                 (nhydro hyd) (nscalars hyd) (mb_indcs pm) (mb_size pm)).
  assert (Hw : writes_own_cell Kset) by apply jet_UserProblem_kernel_writes.
  assert (Hr : reads_own_cell Kset) by apply jet_UserProblem_kernel_reads.
  assert (Hw' : writes_own_cell Kinj) by apply jet_AddJets_kernel_writes.
  assert (Hr' : reads_own_cell Kinj) by apply jet_AddJets_kernel_reads.
  destruct (range_dec 0 (nmb_thispack pm - 1) (ks (mb_indcs pm)) (ke (mb_indcs pm))
              (js (mb_indcs pm)) (je (mb_indcs pm)) (is_ (mb_indcs pm))
              (ie (mb_indcs pm)) m k j i) as [Hin|Hout].
  - rewrite (par_for_inside Kinj _ _ _ _ _ _ _ _ _ m n k j i Hw' Hr' Hin).
    assert (Hset : forall n0,
      par_for 0 (nmb_thispack pm - 1) (ks (mb_indcs pm)) (ke (mb_indcs pm))
        (js (mb_indcs pm)) (je (mb_indcs pm)) (is_ (mb_indcs pm)) (ie (mb_indcs pm))
        Kset (u0 hyd) m n0 k j i = Kset m k j i (u0 hyd) m n0 k j i).
    { intros n0. now apply par_for_inside. }
    destruct (CylindricalJet.InJet
                (CellCenterX (i - is_ (mb_indcs pm)) (nx1 (mb_indcs pm))
                   (x1min (mb_size pm m)) (x1max (mb_size pm m)))
                (CellCenterX (j - js (mb_indcs pm)) (nx2 (mb_indcs pm))
                   (x2min (mb_size pm m)) (x2max (mb_size pm m)))
                (CellCenterX (k - ks (mb_indcs pm)) (nx3 (mb_indcs pm))
                   (x3min (mb_size pm m)) (x3max (mb_size pm m)))
                (CylindricalJet.r_jet (params pg'))
                (CylindricalJet.h_jet (params pg'))) eqn:Hjet.
    + unfold Kinj. rewrite (jet_kernels_agree _ _ _ _ _ _ _ _ _ _ _ _ Hjet).
      fold Kset. rewrite (Hr m k j i _ (Kset m k j i (u0 hyd)) Hset n).
      rewrite Hset. apply jet_UserProblem_kernel_idem.
    + unfold Kinj, CylindricalJet.AddJets_kernel. cbv zeta. rewrite Hjet.
      reflexivity.
  - now rewrite (par_for_outside Kinj _ _ _ _ _ _ _ _ _ m n k j i Hw' Hr' Hout).
Qed.
End JetOperator.

(** ** Gravity and cooling: what each keeps, and their order *)

Section GravityKeeps.
Context {Real : Type} `{RealOps Real} `{PowOp Real}.
Local Open Scope real_scope.

(** [AddBHGrav] of [rad_bondi] writes the momenta and the energy only. *)
Lemma rad_AddBHGrav_other_vars (pr : RadBondi.pgen_bh Real) (pm : Mesh Real)
    (bdt : Real) (u w : DvceArray5D Real) (m n k j i : Z) :
  n <> IM1 -> n <> IM2 -> n <> IM3 -> n <> IEN ->
  RadBondi.AddBHGrav pr pm bdt u w m n k j i = u m n k j i.
Proof.
  intros N1 N2 N3 N4. unfold RadBondi.AddBHGrav. cbv zeta.
  apply (par_for_preserves
           (fun _ n _ _ _ => n <> IM1 /\ n <> IM2 /\ n <> IM3 /\ n <> IEN));
    [|tauto].
  intros cm ck cj ci v m0 n0 k0 j0 i0 (M1 & M2 & M3 & M4).
  unfold RadBondi.AddBHGrav_kernel. cbv zeta. peel_upd assumption.
Qed.

Lemma rad_AddBHGrav_outside (pr : RadBondi.pgen_bh Real) (pm : Mesh Real)
    (bdt : Real) (u w : DvceArray5D Real) (m n k j i : Z) :
  ~ in_pack pm m k j i ->
  RadBondi.AddBHGrav pr pm bdt u w m n k j i = u m n k j i.
Proof.
  intros Hout. unfold RadBondi.AddBHGrav. cbv zeta.
  apply par_for_outside;
    [apply rad_AddBHGrav_kernel_writes | apply rad_AddBHGrav_kernel_reads | exact Hout].
Qed.

Variable ISMCoolFn : Real -> Real.

Lemma rad_AddTabularCooling_outside (pbh : RadBondi.pgen_bh Real) (pm : Mesh Real)
    (bdt : Real) (u w : DvceArray5D Real) (m n k j i : Z) :
  ~ in_pack pm m k j i ->
  RadBondi.AddTabularCooling ISMCoolFn pbh pm bdt u w m n k j i = u m n k j i.
Proof.
  intros Hout. unfold RadBondi.AddTabularCooling. cbv zeta.
  apply par_for_outside;
    [apply rad_cooling_kernel_writes | apply rad_cooling_kernel_reads | exact Hout].
Qed.

(** X19. Cooling and gravity of [rad_bondi] interfere through the energy
    only.  Applied in either order with the same primitive array, they
    leave the same value in every entry but the energy of the cells of the
    pack; there, both orders subtract the same two amounts from the energy,
    the gravity work [g] and the cooling loss [c], one as [(E - g) - c] and
    the other as [(E - c) - g]. *)
Theorem cooling_gravity_order (pbh : RadBondi.pgen_bh Real) (pm : Mesh Real)
    (bc bg : Real) (u w : DvceArray5D Real) (m n k j i : Z) :
  let cool v := RadBondi.AddTabularCooling ISMCoolFn pbh pm bc v w in
  let grav v := RadBondi.AddBHGrav pbh pm bg v w in
  (n <> IEN \/ ~ in_pack pm m k j i ->
   cool (grav u) m n k j i = grav (cool u) m n k j i) /\
  (in_pack pm m k j i ->
   exists g c,
     grav u m IEN k j i = u m IEN k j i - g /\
     cool u m IEN k j i = u m IEN k j i - c /\
     cool (grav u) m IEN k j i = (u m IEN k j i - g) - c /\
     grav (cool u) m IEN k j i = (u m IEN k j i - c) - g).
Proof.
  cbv zeta.
  assert (Hc : forall n0 v, n0 <> IEN ->
            RadBondi.AddTabularCooling ISMCoolFn pbh pm bc v w m n0 k j i
            = v m n0 k j i)
    by (intros; now apply rad_AddTabularCooling_others).
  assert (Hmom : in_pack pm m k j i ->
            RadBondi.AddBHGrav pbh pm bg
              (RadBondi.AddTabularCooling ISMCoolFn pbh pm bc u w) w m IM1 k j i
            = RadBondi.AddBHGrav pbh pm bg u w m IM1 k j i /\
            RadBondi.AddBHGrav pbh pm bg
              (RadBondi.AddTabularCooling ISMCoolFn pbh pm bc u w) w m IM2 k j i
            = RadBondi.AddBHGrav pbh pm bg u w m IM2 k j i /\
            RadBondi.AddBHGrav pbh pm bg
              (RadBondi.AddTabularCooling ISMCoolFn pbh pm bc u w) w m IM3 k j i
            = RadBondi.AddBHGrav pbh pm bg u w m IM3 k j i).
  { intros Hin.
    destruct (rad_gravity_cell pbh pm bg u w m k j i Hin) as (P1 & P2 & P3 & _).
    destruct (rad_gravity_cell pbh pm bg
                (RadBondi.AddTabularCooling ISMCoolFn pbh pm bc u w) w m k j i Hin)
      as (Q1 & Q2 & Q3 & _).
    cbv zeta in P1, P2, P3, Q1, Q2, Q3.
    rewrite Q1, Q2, Q3, P1, P2, P3.
    rewrite !Hc by (unfold IDN, IM1, IM2, IM3, IEN; lia).
    repeat split. }
  split.
  - intros [Hn|Hout].
    + rewrite Hc by exact Hn.
      destruct (range_dec 0 (nmb_thispack pm - 1) (ks (mb_indcs pm))
                  (ke (mb_indcs pm)) (js (mb_indcs pm)) (je (mb_indcs pm))
                  (is_ (mb_indcs pm)) (ie (mb_indcs pm)) m k j i) as [Hin|Hout].
      * destruct (Hmom Hin) as (E1 & E2 & E3).
        destruct (Z.eq_dec n IM1) as [->|N1]; [now rewrite E1|].
        destruct (Z.eq_dec n IM2) as [->|N2]; [now rewrite E2|].
        destruct (Z.eq_dec n IM3) as [->|N3]; [now rewrite E3|].
        rewrite !rad_AddBHGrav_other_vars by assumption.
        now rewrite Hc by exact Hn.
      * rewrite !(rad_AddBHGrav_outside pbh pm bg _ w m n k j i Hout).
        now rewrite Hc by exact Hn.
    + rewrite (rad_AddTabularCooling_outside pbh pm _ _ w m n k j i Hout).
      rewrite !(rad_AddBHGrav_outside pbh pm bg _ w m n k j i Hout).
      now rewrite (rad_AddTabularCooling_outside pbh pm _ _ w m n k j i Hout).
  - intros Hin.
    destruct (Hmom Hin) as (E1 & E2 & E3).
    destruct (rad_gravity_cell pbh pm bg u w m k j i Hin) as (_ & _ & _ & P4).
    destruct (rad_gravity_cell pbh pm bg
                (RadBondi.AddTabularCooling ISMCoolFn pbh pm bc u w) w m k j i Hin)
      as (_ & _ & _ & Q4).
    cbv zeta in P4, Q4. rewrite E1, E2, E3 in Q4.
    pose proof (rad_AddTabularCooling_energy ISMCoolFn pbh pm bc u w m k j i Hin)
      as Cu.
    pose proof (rad_AddTabularCooling_energy ISMCoolFn pbh pm bc
                  (RadBondi.AddBHGrav pbh pm bg u w) w m k j i Hin) as Cg.
    cbv zeta in Cu, Cg.
    eexists. eexists.
    split; [exact P4|]. split; [exact Cu|].
    split; [rewrite Cg, P4; reflexivity | rewrite Q4, Cu; reflexivity].
Qed.
End GravityKeeps.

Section SofteningReal.
Local Open Scope R_scope.

(** X16. Softening bounds the pull: for [G M > 0] and [eps <> 0] the
    acceleration over the radius that both [AddBHGrav] kernels compute is
    never negative, never exceeds its value at the origin, and does not
    increase with the radius. *)
Theorem grav_accel_softened (G M eps : R) :
  0 < G * M -> eps <> 0 ->
  (forall r, 0 <= grav_accel G M eps r <= grav_accel G M eps 0) /\
  (forall r1 r2, 0 <= r1 -> r1 <= r2 ->
     grav_accel G M eps r2 <= grav_accel G M eps r1).
Proof.
  intros HGM He.
  assert (Hbase : forall r, 0 < r * r + eps * eps) by (intros r; nra).
  assert (Hmono : forall r1 r2, r1 * r1 <= r2 * r2 ->
            grav_accel G M eps r2 <= grav_accel G M eps r1).
  { intros r1 r2 H12. unfold grav_accel, SQR. real_ops.
    unfold Rdiv. apply Rmult_le_compat_l; [lra|].
    apply Rinv_le_contravar; [apply exp_pos|].
    apply Rle_Rpower_l; [lra|]. split; [apply Hbase | lra]. }
  split.
  - intros r. split.
    + unfold grav_accel, SQR. real_ops. apply Rlt_le.
      apply Rdiv_lt_0_compat; [exact HGM | apply exp_pos].
    + apply Hmono. nra.
  - intros r1 r2 H1 H12. apply Hmono. nra.
Qed.

Lemma grav_accel_softened_witness :
  0 <= grav_accel 1 1 0.1 1 <= grav_accel 1 1 0.1 0.
Proof.
  apply (proj1 (grav_accel_softened 1 1 0.1 ltac:(lra) ltac:(lra))).
Defined.
End SofteningReal.

(** ** Cooling over the reals *)

Section CoolingReal.
Local Open Scope R_scope.
Variable ISMCoolFn : R -> R.

(** The amount [AddTabularCooling] subtracts per unit of substep on a cell:
    [cooling_rate_code] of the kernel. *)
Lemma rad_cooling_rate (pbh : RadBondi.pgen_bh R) (pm : Mesh R) (bdt : R)
    (u w : DvceArray5D R) (m k j i : Z) :
  in_pack pm m k j i ->
  exists rate,
    (forall b v, RadBondi.AddTabularCooling ISMCoolFn pbh pm b v w m IEN k j i
                 = v m IEN k j i - rate * b) /\
    (0 < RadBondi.mass_cgs pbh -> 0 < RadBondi.length_cgs pbh ->
     0 < RadBondi.time_cgs pbh -> (forall T, 0 <= ISMCoolFn T) -> 0 <= rate).
Proof.
  intros Hin.
  eexists. split.
  - intros b v.
    rewrite (rad_AddTabularCooling_energy ISMCoolFn pbh pm b v w m k j i Hin).
    real_ops. reflexivity.
  - intros Hm Hl Ht Hlam. unfold SQR, lit_3_0. real_ops.
    apply Rmult_le_pos.
    + apply Rmult_le_pos; [apply Rle_0_sqr | apply Hlam].
    + apply Rlt_le, Rinv_0_lt_compat. apply Rdiv_lt_0_compat; [exact Hm|].
      apply Rmult_lt_0_compat; [exact Hl | apply exp_pos].
Qed.

(** X17. Cooling never raises the energy: for positive unit factors, a
    cooling function that is nowhere negative and a substep that is not
    negative, the energy of every cell of the pack after
    [AddTabularCooling] is at most what it was. *)
Theorem cooling_lowers_energy (pbh : RadBondi.pgen_bh R) (pm : Mesh R) (bdt : R)
    (u w : DvceArray5D R) (m k j i : Z) :
  in_pack pm m k j i ->
  0 < RadBondi.mass_cgs pbh -> 0 < RadBondi.length_cgs pbh ->
  0 < RadBondi.time_cgs pbh ->
  (forall T, 0 <= ISMCoolFn T) -> 0 <= bdt ->
  RadBondi.AddTabularCooling ISMCoolFn pbh pm bdt u w m IEN k j i <= u m IEN k j i.
Proof.
  intros Hin Hm Hl Ht Hlam Hb.
  destruct (rad_cooling_rate pbh pm bdt u w m k j i Hin) as (rate & Hrate & Hpos).
  rewrite Hrate. specialize (Hpos Hm Hl Ht Hlam).
  assert (0 <= rate * bdt) by now apply Rmult_le_pos. lra.
Qed.
End CoolingReal.
(** ** The jet region and the potential over the reals *)

Section RegionReal.
Local Open Scope R_scope.

Lemma bool_eq_iff (a b : bool) : (a = true <-> b = true) -> a = b.
Proof.
  destruct a, b; intros [H1 H2]; try reflexivity;
    [symmetry; apply H1; reflexivity | apply H2; reflexivity].
Qed.

(** X20. The jet region is a solid of revolution about the first axis,
    mirrored in the plane [x1 = 0], and depends on [r_jet] through its
    square only: [InJet] gives the same answer at two points with the same
    [x2^2 + x3^2] and the same [x1], for radii of the same square, and, for
    [x1] within the range of [int], the same answer at [x1] and [- x1]. *)
Theorem InJet_symmetric (x1 x2 x3 y2 y3 r s h : R) :
  y2 * y2 + y3 * y3 = x2 * x2 + x3 * x3 ->
  s * s = r * r ->
  CylindricalJet.InJet x1 y2 y3 s h = CylindricalJet.InJet x1 x2 x3 r h /\
  (Rabs x1 < 2147483648 ->
   CylindricalJet.InJet (- x1) y2 y3 s h = CylindricalJet.InJet x1 x2 x3 r h).
Proof.
  intros H23 Hr. split.
  - unfold CylindricalJet.InJet. cbv zeta. real_ops. rewrite H23, Hr. reflexivity.
  - intros Hx. apply bool_eq_iff.
    rewrite !InJet_R by (rewrite ?Rabs_Ropp; exact Hx).
    rewrite Rabs_Ropp, H23, Hr. reflexivity.
Qed.

Lemma InJet_symmetric_witness :
  CylindricalJet.InJet (- (2.5)) 4 (-3) (-5) 2 = CylindricalJet.InJet 2.5 3 4 5 2.
Proof.
  refine (proj2 (InJet_symmetric 2.5 3 4 4 (-3) 5 (-5) 2 _ _) _).
  - lra.
  - lra.
  - rewrite Rabs_pos_eq; lra.
Defined.

(** X21. For [x1] within the range of [int]: a negative half-length makes
    the jet region empty; every point with [x2^2 + x3^2 <= r_jet^2] and
    [|x1| <= h_jet], the boundary included, is in the region; and a point
    of the region stays in it when the square of the radius and the
    half-length grow.  The origin is in the region exactly when the
    half-length is not negative, whatever the radius. *)
Theorem InJet_extent (x1 x2 x3 r h : R) :
  Rabs x1 < 2147483648 ->
  (h < 0 -> CylindricalJet.InJet x1 x2 x3 r h = false) /\
  (x2 * x2 + x3 * x3 <= r * r -> Rabs x1 <= h ->
   CylindricalJet.InJet x1 x2 x3 r h = true) /\
  (forall r' h', CylindricalJet.InJet x1 x2 x3 r h = true ->
     r * r <= r' * r' -> h <= h' ->
     CylindricalJet.InJet x1 x2 x3 r' h' = true) /\
  (CylindricalJet.InJet 0 0 0 r h = true <-> 0 <= h).
Proof.
  intros Hx.
  pose proof (Zfloor_bound (Rabs x1)) as [Hfl _].
  assert (Hf0 : 0 <= IZR (Zfloor (Rabs x1))).
  { apply IZR_le. apply (Zfloor_lub 0). apply Rabs_pos. }
  split; [|split; [|split]].
  - intros Hh. destruct (CylindricalJet.InJet x1 x2 x3 r h) eqn:E; [|reflexivity].
    apply (InJet_R x1 x2 x3 r h Hx) in E as [_ E]. lra.
  - intros Hr Hh. apply (InJet_R x1 x2 x3 r h Hx). split; [exact Hr | lra].
  - intros r' h' Hin Hr Hh. apply (InJet_R x1 x2 x3 r h Hx) in Hin as [H1 H2].
    apply (InJet_R x1 x2 x3 r' h' Hx). lra.
  - assert (H0 : Rabs 0 < 2147483648) by (rewrite Rabs_R0; lra).
    rewrite (InJet_R 0 0 0 r h H0), Rabs_R0, (ZfloorZ 0).
    split; [tauto|]. intros Hh. split; [nra | exact Hh].
Qed.

Lemma InJet_extent_witness :
  CylindricalJet.InJet 2 3 4 5 (-1) = false /\
  CylindricalJet.InJet (-2) 3 4 5 2 = true.
Proof.
  split.
  - apply (proj1 (InJet_extent 2 3 4 5 (-1) ltac:(rewrite Rabs_pos_eq; lra))). lra.
  - apply (proj1 (proj2 (InJet_extent (-2) 3 4 5 2 ltac:(rewrite Rabs_left; lra)))).
    + lra.
    + rewrite Rabs_left; lra.
Defined.

Lemma Phi_Bondi_R (r eps G M : R) :
  RadBondi.Phi_Bondi r eps G M = - (G * M) / sqrt (r * r + eps * eps).
Proof. unfold RadBondi.Phi_Bondi, SQR. real_ops. unfold Rdiv. ring. Qed.

(** X22. The softened potential is bounded: for [G M > 0] and [eps <> 0],
    [Phi_Bondi] is never positive, is deepest at the origin, and does not
    decrease with the radius. *)
Theorem Phi_Bondi_bounds (eps G M : R) :
  0 < G * M -> eps <> 0 ->
  (forall r, RadBondi.Phi_Bondi 0 eps G M <= RadBondi.Phi_Bondi r eps G M <= 0) /\
  (forall r1 r2, 0 <= r1 -> r1 <= r2 ->
     RadBondi.Phi_Bondi r1 eps G M <= RadBondi.Phi_Bondi r2 eps G M).
Proof.
  intros HGM He.
  assert (Hbase : forall r, 0 < r * r + eps * eps) by (intros r; nra).
  assert (Hs : forall r, 0 < sqrt (r * r + eps * eps))
    by (intros r; apply sqrt_lt_R0, Hbase).
  assert (Hmono : forall r1 r2, r1 * r1 <= r2 * r2 ->
            RadBondi.Phi_Bondi r1 eps G M <= RadBondi.Phi_Bondi r2 eps G M).
  { intros r1 r2 H12. rewrite !Phi_Bondi_R. unfold Rdiv.
    rewrite !Ropp_mult_distr_l_reverse. apply Ropp_le_contravar.
    apply Rmult_le_compat_l; [lra|].
    apply Rinv_le_contravar; [apply Hs|].
    apply sqrt_le_1; [apply Rlt_le, Hbase | apply Rlt_le, Hbase | lra]. }
  split.
  - intros r. split.
    + apply Hmono. nra.
    + rewrite Phi_Bondi_R. unfold Rdiv. rewrite Ropp_mult_distr_l_reverse.
      apply Rlt_le. apply Ropp_lt_gt_0_contravar.
      apply Rmult_lt_0_compat; [exact HGM|].
      apply Rinv_0_lt_compat, Hs.
  - intros r1 r2 H1 H12. apply Hmono. nra.
Qed.

Lemma Phi_Bondi_bounds_witness :
  RadBondi.Phi_Bondi 0 0.1 1 1 <= RadBondi.Phi_Bondi 1 0.1 1 1 <= 0.
Proof.
  apply (proj1 (Phi_Bondi_bounds 0.1 1 1 ltac:(lra) ltac:(lra))).
Defined.
End RegionReal.

(** ** The order of the cells *)

Section SweepOrder.
Context {Real : Type} `{RealOps Real} `{PowOp Real}.
Variable ISMCoolFn : Real -> Real.

(** X24. No kernel depends on the order in which the cells are visited:
    run over two duplicate-free enumerations of the same cells, each of the
    seven kernel bodies leaves the same array, whatever its parameters. *)
Theorem kernels_any_order (l l' : list (Z * Z * Z * Z)) (u w : DvceArray5D Real)
    (indcs : RegionIndcs) (size : Z -> RegionSize Real)
    (pr : RadBondi.pgen_bh Real) (pb : Bondi.pgen_bh Real)
    (pjet : CylindricalJet.pgen_jet_amb Real)
    (bdt gm1 rho_cgs v_cgs temp_unit cooling_rate_unit : Real)
    (nfluid nscalars : Z) :
  NoDup l -> NoDup l' -> (forall c, In c l <-> In c l') ->
  same_array (run_cells (RadBondi.UserProblem_kernel pr gm1 indcs size) l u)
             (run_cells (RadBondi.UserProblem_kernel pr gm1 indcs size) l' u) /\
  same_array (run_cells (RadBondi.AddBHGrav_kernel pr bdt indcs size) l u)
             (run_cells (RadBondi.AddBHGrav_kernel pr bdt indcs size) l' u) /\
  same_array (run_cells (RadBondi.AddTabularCooling_kernel ISMCoolFn pr bdt gm1
                           rho_cgs v_cgs temp_unit cooling_rate_unit indcs size w) l u)
             (run_cells (RadBondi.AddTabularCooling_kernel ISMCoolFn pr bdt gm1
                           rho_cgs v_cgs temp_unit cooling_rate_unit indcs size w) l' u) /\
  same_array (run_cells (Bondi.UserProblem_kernel pb gm1 indcs size) l u)
             (run_cells (Bondi.UserProblem_kernel pb gm1 indcs size) l' u) /\
  same_array (run_cells (Bondi.AddBHGrav_kernel pb bdt indcs size) l u)
             (run_cells (Bondi.AddBHGrav_kernel pb bdt indcs size) l' u) /\
  same_array (run_cells (CylindricalJet.UserProblem_kernel pjet gm1 nfluid nscalars
                           indcs size) l u)
             (run_cells (CylindricalJet.UserProblem_kernel pjet gm1 nfluid nscalars
                           indcs size) l' u) /\
  same_array (run_cells (CylindricalJet.AddJets_kernel pjet gm1 nfluid nscalars
                           indcs size) l u)
             (run_cells (CylindricalJet.AddJets_kernel pjet gm1 nfluid nscalars
                           indcs size) l' u).
Proof.
  intros Hl Hl' Hsame. unfold same_array, run_cells.
  repeat split; intros m n k j i; apply fold_cells_any_order; try assumption.
  - apply rad_UserProblem_kernel_writes.
  - apply rad_UserProblem_kernel_reads.
  - apply rad_AddBHGrav_kernel_writes.
  - apply rad_AddBHGrav_kernel_reads.
  - apply rad_cooling_kernel_writes.
  - apply rad_cooling_kernel_reads.
  - apply bondi_UserProblem_kernel_writes.
  - apply bondi_UserProblem_kernel_reads.
  - apply bondi_AddBHGrav_kernel_writes.
  - apply bondi_AddBHGrav_kernel_reads.
  - apply jet_UserProblem_kernel_writes.
  - apply jet_UserProblem_kernel_reads.
  - apply jet_AddJets_kernel_writes.
  - apply jet_AddJets_kernel_reads.
Qed.
End SweepOrder.

(** ** Positivity of the [rad_bondi] initial state *)

Section RadPositive.
Local Open Scope R_scope.

End RadPositive.

(** ** The properties at the fixtures *)

Section ExtraFixtures.
Local Open Scope R_scope.

Lemma far_cell_in_pack : in_pack far_cell_mesh 0 0 0 0.
Proof. unfold in_pack. simpl. lia. Qed.

Lemma far_cell_rad : cell_rad far_cell_mesh 0 0 0 0 = 3.
Proof.
  unfold cell_rad, cell_x1, cell_x2, cell_x3, CellCenterX, SQR. simpl.
  match goal with |- sqrt ?e = _ => replace e with (Rsqr 3) by (unfold Rsqr; lra) end.
  apply sqrt_Rsqr. lra.
Qed.

Lemma setup_frame_witness :
  same_geometry (pmy_mesh_ rad_pg0) (pmy_mesh_ rad_pg1) /\
  same_geometry (pmy_mesh_ bondi_pg0) (pmy_mesh_ bondi_pg1) /\
  same_geometry (pmy_mesh_ jet_pg0) (pmy_mesh_ jet_pg1).
Proof.
  pose proof (setup_frame unit_pin false rad_pg0 rad_pg1
                unit_pin false bondi_pg0 bondi_pg1
                unit_pin false jet_pg0 jet_pg1) as (Hr & Hb & Hj).
  split; [exact (proj1 (Hr eq_refl))|].
  split; [exact (proj1 (Hb eq_refl)) | exact (proj1 (Hj eq_refl))].
Defined.

Lemma setup_idempotent_witness :
  exists pg2,
    RadBondi.UserProblem unit_pin false rad_pg1 = Ok pg2 /\
    params pg2 = params rad_pg1 /\
    same_geometry (pmy_mesh_ rad_pg1) (pmy_mesh_ pg2) /\
    same_hydro (pmy_mesh_ rad_pg1) (pmy_mesh_ pg2).
Proof.
  exact (proj1 (setup_idempotent unit_pin rad_pg0 rad_pg1
                  unit_pin bondi_pg0 bondi_pg1
                  unit_pin jet_pg0 jet_pg1) eq_refl).
Defined.

Lemma bondi_initial_state_witness :
  exists hyd',
    phydro (pmy_mesh_ bondi_pg1) = Some hyd' /\
    u0 hyd' 0%Z IDN 0%Z 0%Z 0%Z = Bondi.d_amb (params bondi_pg1).
Proof.
  destruct (bondi_initial_state R_pow unit_pin bondi_pg0 bondi_pg1 rest_hydro 0 0 0 0
              eq_refl eq_refl one_cell_in_pack)
    as (hyd' & Hhyd' & Hd & _).
  exists hyd'. split; assumption.
Defined.

Lemma rad_initial_state_outside_witness :
  exists hyd',
    phydro (pmy_mesh_ rad_far_pg1) = Some hyd' /\
    u0 hyd' 0%Z IDN 0%Z 0%Z 0%Z = RadBondi.rho_cgm (params rad_far_pg1).
Proof.
  assert (Hr : RadBondi.r_vir (params rad_far_pg1)
               <= cell_rad (pmy_mesh_ rad_far_pg0) 0 0 0 0).
  { change (2 <= cell_rad far_cell_mesh 0 0 0 0). rewrite far_cell_rad. lra. }
  destruct (rad_initial_state_outside R_pow unit_pin rad_far_pg0 rad_far_pg1 rest_hydro
              0 0 0 0 eq_refl eq_refl far_cell_in_pack Hr)
    as (hyd' & Hhyd' & Hd & _).
  exists hyd'. split; assumption.
Defined.

Lemma jet_initial_state_witness :
  exists hyd',
    phydro (pmy_mesh_ jet_pg1) = Some hyd' /\
    u0 hyd' 0%Z IDN 0%Z 0%Z 0%Z = CylindricalJet.rho_jet (params jet_pg1) /\
    u0 hyd' 0%Z 5%Z 0%Z 0%Z 0%Z = 1.
Proof.
  assert (Hn : (IEN < nhydro rest_hydro)%Z) by (unfold IEN; simpl; lia).
  destruct (jet_initial_state unit_pin jet_pg0 jet_pg1 rest_hydro 0 0 0 0
              eq_refl eq_refl Hn two_cell_in_pack)
    as (hyd' & Hhyd' & Hjet & _).
  destruct (Hjet two_cell_in_jet) as (Hd & _ & _ & _ & _ & Hs).
  exists hyd'. split; [exact Hhyd'|]. split; [exact Hd|].
  apply Hs. simpl. lia.
Defined.

Lemma AddJets_overwrites_witness :
  CylindricalJet.AddJets unit_jet two_cell_mesh 0.01 rest_hydro rest_gas rest_gas
    0%Z IDN 0%Z 0%Z 0%Z
  = CylindricalJet.AddJets unit_jet two_cell_mesh 0.02 rest_hydro
      (fun _ _ _ _ _ => 7) (fun _ _ _ _ _ => 9) 0%Z IDN 0%Z 0%Z 0%Z.
Proof.
  apply (AddJets_overwrites unit_jet two_cell_mesh rest_hydro 0 IDN 0 0 0
           0.01 0.02 rest_gas rest_gas (fun _ _ _ _ _ => 7) (fun _ _ _ _ _ => 9)
           two_cell_in_pack two_cell_in_jet).
  left. unfold IDN, IEN. lia.
Defined.

Lemma AddJets_frame_witness :
  CylindricalJet.AddJets unit_jet two_cell_mesh 0.01 rest_hydro rest_gas rest_gas
    0%Z 6%Z 0%Z 0%Z 0%Z
  = rest_gas 0%Z 6%Z 0%Z 0%Z 0%Z.
Proof.
  apply (AddJets_frame unit_jet two_cell_mesh rest_hydro 0.01 rest_gas rest_gas
           0 6 0 0 0).
  right. right. unfold IDN, IEN. simpl. lia.
Defined.

Lemma AddJets_after_setup_witness :
  exists pm',
    CylindricalJet.AddUserSrcs (params jet_pg1) (pmy_mesh_ jet_pg1) 0.01 = Some pm' /\
    user_srcs_func jet_pg1 = Some CylindricalJet.AddUserSrcs /\
    same_geometry (pmy_mesh_ jet_pg1) pm' /\
    same_hydro (pmy_mesh_ jet_pg1) pm'.
Proof.
  exact (AddJets_after_setup unit_pin jet_pg0 jet_pg1 rest_hydro 0.01 eq_refl eq_refl).
Defined.

Lemma cooling_gravity_order_witness :
  RadBondi.AddTabularCooling (fun _ => 1) unit_rad_bh one_cell_mesh 0.01
    (RadBondi.AddBHGrav unit_rad_bh one_cell_mesh 0.02 rest_gas rest_gas) rest_gas
    0%Z IM1 0%Z 0%Z 0%Z
  = RadBondi.AddBHGrav unit_rad_bh one_cell_mesh 0.02
      (RadBondi.AddTabularCooling (fun _ => 1) unit_rad_bh one_cell_mesh 0.01
         rest_gas rest_gas) rest_gas
      0%Z IM1 0%Z 0%Z 0%Z.
Proof.
  apply (proj1 (cooling_gravity_order (fun _ => 1) unit_rad_bh one_cell_mesh
                  0.01 0.02 rest_gas rest_gas 0 IM1 0 0 0)).
  left. unfold IM1, IEN. lia.
Defined.

Lemma cooling_lowers_energy_witness :
  RadBondi.AddTabularCooling (fun _ => 1) unit_rad_bh one_cell_mesh 0.01
    rest_gas rest_gas 0%Z IEN 0%Z 0%Z 0%Z
  <= rest_gas 0%Z IEN 0%Z 0%Z 0%Z.
Proof.
  apply (cooling_lowers_energy (fun _ => 1) unit_rad_bh one_cell_mesh 0.01
           rest_gas rest_gas 0 0 0 0 one_cell_in_pack).
  - simpl. lra.
  - simpl. lra.
  - simpl. lra.
  - intros _. lra.
  - lra.
Defined.

Lemma kernels_any_order_witness :
  same_array
    (run_cells (RadBondi.AddBHGrav_kernel unit_rad_bh 0.01 two_cell_indcs
                  (fun _ => jet_box))
       [(0, 0, 0, 0); (0, 0, 0, 1)]%Z rest_gas)
    (run_cells (RadBondi.AddBHGrav_kernel unit_rad_bh 0.01 two_cell_indcs
                  (fun _ => jet_box))
       [(0, 0, 0, 1); (0, 0, 0, 0)]%Z rest_gas).
Proof.
  refine (proj1 (proj2
    (kernels_any_order (fun _ => 1) [(0, 0, 0, 0); (0, 0, 0, 1)]%Z
       [(0, 0, 0, 1); (0, 0, 0, 0)]%Z rest_gas rest_gas two_cell_indcs
       (fun _ => jet_box) unit_rad_bh unit_bh unit_jet 0.01 (2 / 3) 1 1 1 1 5 1
       _ _ _))).
  - repeat constructor; simpl; intuition congruence.
  - repeat constructor; simpl; intuition congruence.
  - intros c. simpl. tauto.
Defined.

End ExtraFixtures.
